(** * Hierarchical master/worker synchronisation protocol (mpi_tools/MPIProcess.py)

  A shallow embedding of the classes [MPIProcess], [MPIWorker] and
  [MPIMaster] and of the entry point's computation of [validate_every],
  together with the properties the specification states about them.

  MPIProcess.py is Python 2 (print statements, [dict.iteritems]): integers
  are unbounded ([Z]) and [%] raises [ZeroDivisionError] on a zero divisor.
  The entry point OptimizeCNN.py is a Python 3 script. *)

From Stdlib Require Import ZArith Lia.
From Stdlib Require QArith Qcanon.
From stdpp Require Import base option list gmap strings functions.

Open Scope string_scope.
Open Scope Z_scope.
Open Scope list_scope.

(** ** Platform parameters

  The elements of the numpy arrays are floating point numbers.  The protocol
  only moves them around, creates zero arrays and adds arrays element-wise
  ([obj[i] += tmp[i]]), so the element type is kept abstract. *)
Class Scalar := {
  num : Type;
  nzero : num;
  nadd : num → num → num;
}.

(** [MPI.ANY_SOURCE] and [MPI.ANY_TAG] are constants of the MPI library. *)
Class MPIConsts := {
  ANY_SOURCE : Z;
  ANY_TAG : Z;
}.

(** ** The message-type table *)
Module Tags.
Section Tags.
Context `{MPIConsts}.

(** The items of the dict literal [tag_lookup], in source order. *)
Definition tag_items : list (string * Z) :=
  [ ("any", ANY_SOURCE);
    ("train", 0);
    ("exit", 1);
    ("begin_weights", 2);
    ("begin_update", 3);
    ("time", 4);
    ("bool", 5);
    ("model_arch", 10);
    ("algo", 11);
    ("weights_shapes", 12);
    ("weights", 13);
    ("update", 13) ].

(** A dict built from a sequence of items: a later item replaces an earlier
    one with the same key. *)
Definition dict_of_items {K V} `{Countable K} (l : list (K * V)) : gmap K V :=
  foldl (λ m kv, <[kv.1 := kv.2]> m) ∅ l.

Definition tag_lookup : gmap string Z := dict_of_items tag_items.

(** [{ value:key for key,value in tag_lookup.iteritems() }], for the order
    [order] in which [iteritems] enumerates the table. *)
Definition invert_items (order : list (string * Z)) : gmap Z string :=
  dict_of_items (map (λ kv, (kv.2, kv.1)) order).

(** An enumeration order of [tag_lookup]: Python 2 fixes none. *)
Definition iteration_order (order : list (string * Z)) : Prop :=
  order ≡ₚ tag_items.

(** [lookup_mpi_tag(name, inv=False)]: [None] on a [KeyError]. *)
Definition lookup_mpi_tag (name : string) : option Z := tag_lookup !! name.

(** [lookup_mpi_tag(name, inv=True)] for a table [inv_tag_lookup]. *)
Definition lookup_mpi_tag_inv (inv_tag_lookup : gmap Z string) (tag : Z)
  : option string := inv_tag_lookup !! tag.
End Tags.
End Tags.

(** ** Arrays, weights and messages *)
Section Arrays.
Context `{Scalar}.

(** A numpy array: its shape tuple and its elements, in storage order. *)
Record ndarray := { shape : list nat; data : list num }.

Definition shape_size (s : list nat) : nat := foldr Nat.mul 1%nat s.

(** [np.zeros(shape)]. *)
Definition np_zeros (s : list nat) : ndarray :=
  {| shape := s; data := replicate (shape_size s) nzero |}.

(** [a += b] on arrays of one shape: element-wise, in place. *)
Definition iadd (a b : ndarray) : ndarray :=
  {| shape := shape a; data := zip_with nadd (data a) (data b) |}.

(** Modelled from the spec: [weights_from_shapes] of [mpi_tools.Utils],
    which is not among the sources; the spec has the pending update buffer
    reset to zero-valued arrays of matching shape. *)
Definition weights_from_shapes (shapes : list (list nat)) : list ndarray :=
  map np_zeros shapes.

(** What travels in one message: a pickled Python object ([comm.send]) or
    the elements of a buffer ([comm.Send]). *)
Inductive PyObj := PyNone | PyInt (z : Z) | PyBool (b : bool).
Inductive Payload := Pickled (o : PyObj) | Buffer (d : list num).

(** Truth value of an object ([if not decision]). *)
Definition truthy (o : PyObj) : bool :=
  match o with
  | PyNone => false
  | PyInt z => negb (z =? 0)
  | PyBool b => b
  end.

(** The integer an object stands for in arithmetic ([bool] is a subclass of
    [int]); [None] has none. *)
Definition as_int (o : PyObj) : option Z :=
  match o with
  | PyNone => None
  | PyInt z => Some z
  | PyBool b => Some (if b then 1 else 0)
  end.

(** The two communicators of a process. *)
Inductive Comm := ParentComm | ChildComm.

Global Instance Comm_eq_dec : EqDecision Comm.
Proof. solve_decision. Defined.

(** A message in a mailbox: [peer] is the source rank of a received
    message and the destination rank of a sent one. *)
Record Envelope := {
  env_comm : Comm;
  env_peer : Z;
  env_tag : Z;
  env_body : Payload;
}.

Definition msg (c : Comm) (peer tag : Z) (body : Payload) : Envelope :=
  {| env_comm := c; env_peer := peer; env_tag := tag; env_body := body |}.

(** [MPI.Status] after a receive. *)
Record Status := { Get_source : Z; Get_tag : Z }.
End Arrays.

(** ** External collaborators

    The validation metrics are Python floats; only their comparison [<] is
    used by the protocol.  The batches of the data source are opaque. *)
Class Collab := {
  metric : Type;
  metric_zero : metric;                            (* 0.0 *)
  metric_ltb : metric → metric → bool;             (* < *)
  Batch : Type;
}.

Section Objects.
Context `{Scalar, Collab}.

(** What [np.divide] hands to [save_model_if_best]: an object with
    [__getitem__] (a sequence of metrics) or a plain scalar. *)
Inductive Metrics := MetricSeq (l : list metric) | MetricScalar (m : metric).

(** The two numpy routines of [validate], opaque. *)
Class NumPy := {
  np_add : Metrics → Metrics → Metrics;
  np_divide : Metrics → Z → Metrics;
}.

(** The Keras model: the weights it holds, the files written by [save], and
    its opaque evaluation routines. *)
Record Model := {
  model_weights : list ndarray;
  saved_models : list (string * list ndarray);
  n_metrics : nat;                                (* len(model.metrics) *)
  train_step : list ndarray → Batch → list ndarray; (* train_on_batch *)
  test_on_batch : list ndarray → Batch → Metrics;
}.

(** The [Algo] object (its class is not among the sources): the attributes
    the processes read and write, and its opaque methods. *)
Record Algo := {
  staleness : Z;
  send_before_apply : bool;
  validate_every : Z;
  compute_update : list ndarray → list ndarray → list ndarray;
  apply_update : list ndarray → list ndarray → list ndarray;
  set_worker_model_weights : Model → list ndarray → Model;
}.

(** The attributes of an [MPIProcess], with those an [MPIMaster] adds.
    [parent_rank = None] is Python's [None]. *)
Record Process := {
  parent_rank : option Z;
  rank : Z;
  data_batches : list Batch;                      (* data.generate_data() *)
  model : Model;
  algo : Algo;
  weights_shapes : list (list nat);
  weights : list ndarray;
  update : list ndarray;
  time_step : Z;
  has_parent : bool;
  best_val_loss : option metric;
  num_workers : Z;
  running_workers : Z;
  waiting_workers_list : list Z;
  num_sync_workers : Z;
  num_epochs : nat;
}.

Definition set_staleness (a : Algo) (s : Z) : Algo :=
  {| staleness := s; send_before_apply := send_before_apply a;
     validate_every := validate_every a; compute_update := compute_update a;
     apply_update := apply_update a;
     set_worker_model_weights := set_worker_model_weights a |}.

Definition set_model_weights (m : Model) (ws : list ndarray) : Model :=
  {| model_weights := ws; saved_models := saved_models m;
     n_metrics := n_metrics m; train_step := train_step m;
     test_on_batch := test_on_batch m |}.

(** [model.save(path)]. *)
Definition model_save (m : Model) (path : string) : Model :=
  {| model_weights := model_weights m;
     saved_models := saved_models m ++ [(path, model_weights m)];
     n_metrics := n_metrics m; train_step := train_step m;
     test_on_batch := test_on_batch m |}.

Definition with_model (m : Model) (p : Process) : Process :=
  {| parent_rank := parent_rank p; rank := rank p;
     data_batches := data_batches p; model := m; algo := algo p;
     weights_shapes := weights_shapes p; weights := weights p;
     update := update p; time_step := time_step p;
     has_parent := has_parent p; best_val_loss := best_val_loss p;
     num_workers := num_workers p; running_workers := running_workers p;
     waiting_workers_list := waiting_workers_list p;
     num_sync_workers := num_sync_workers p; num_epochs := num_epochs p |}.

Definition with_algo (a : Algo) (p : Process) : Process :=
  {| parent_rank := parent_rank p; rank := rank p;
     data_batches := data_batches p; model := model p; algo := a;
     weights_shapes := weights_shapes p; weights := weights p;
     update := update p; time_step := time_step p;
     has_parent := has_parent p; best_val_loss := best_val_loss p;
     num_workers := num_workers p; running_workers := running_workers p;
     waiting_workers_list := waiting_workers_list p;
     num_sync_workers := num_sync_workers p; num_epochs := num_epochs p |}.

Definition with_weights (ws : list ndarray) (p : Process) : Process :=
  {| parent_rank := parent_rank p; rank := rank p;
     data_batches := data_batches p; model := model p; algo := algo p;
     weights_shapes := weights_shapes p; weights := ws;
     update := update p; time_step := time_step p;
     has_parent := has_parent p; best_val_loss := best_val_loss p;
     num_workers := num_workers p; running_workers := running_workers p;
     waiting_workers_list := waiting_workers_list p;
     num_sync_workers := num_sync_workers p; num_epochs := num_epochs p |}.

Definition with_update (u : list ndarray) (p : Process) : Process :=
  {| parent_rank := parent_rank p; rank := rank p;
     data_batches := data_batches p; model := model p; algo := algo p;
     weights_shapes := weights_shapes p; weights := weights p;
     update := u; time_step := time_step p;
     has_parent := has_parent p; best_val_loss := best_val_loss p;
     num_workers := num_workers p; running_workers := running_workers p;
     waiting_workers_list := waiting_workers_list p;
     num_sync_workers := num_sync_workers p; num_epochs := num_epochs p |}.

Definition with_time_step (t : Z) (p : Process) : Process :=
  {| parent_rank := parent_rank p; rank := rank p;
     data_batches := data_batches p; model := model p; algo := algo p;
     weights_shapes := weights_shapes p; weights := weights p;
     update := update p; time_step := t;
     has_parent := has_parent p; best_val_loss := best_val_loss p;
     num_workers := num_workers p; running_workers := running_workers p;
     waiting_workers_list := waiting_workers_list p;
     num_sync_workers := num_sync_workers p; num_epochs := num_epochs p |}.

Definition with_best_val_loss (b : option metric) (p : Process) : Process :=
  {| parent_rank := parent_rank p; rank := rank p;
     data_batches := data_batches p; model := model p; algo := algo p;
     weights_shapes := weights_shapes p; weights := weights p;
     update := update p; time_step := time_step p;
     has_parent := has_parent p; best_val_loss := b;
     num_workers := num_workers p; running_workers := running_workers p;
     waiting_workers_list := waiting_workers_list p;
     num_sync_workers := num_sync_workers p; num_epochs := num_epochs p |}.

Definition with_running_workers (n : Z) (p : Process) : Process :=
  {| parent_rank := parent_rank p; rank := rank p;
     data_batches := data_batches p; model := model p; algo := algo p;
     weights_shapes := weights_shapes p; weights := weights p;
     update := update p; time_step := time_step p;
     has_parent := has_parent p; best_val_loss := best_val_loss p;
     num_workers := num_workers p; running_workers := n;
     waiting_workers_list := waiting_workers_list p;
     num_sync_workers := num_sync_workers p; num_epochs := num_epochs p |}.

Definition with_waiting_workers_list (l : list Z) (p : Process) : Process :=
  {| parent_rank := parent_rank p; rank := rank p;
     data_batches := data_batches p; model := model p; algo := algo p;
     weights_shapes := weights_shapes p; weights := weights p;
     update := update p; time_step := time_step p;
     has_parent := has_parent p; best_val_loss := best_val_loss p;
     num_workers := num_workers p; running_workers := running_workers p;
     waiting_workers_list := l;
     num_sync_workers := num_sync_workers p; num_epochs := num_epochs p |}.

Definition with_num_sync_workers (n : Z) (p : Process) : Process :=
  {| parent_rank := parent_rank p; rank := rank p;
     data_batches := data_batches p; model := model p; algo := algo p;
     weights_shapes := weights_shapes p; weights := weights p;
     update := update p; time_step := time_step p;
     has_parent := has_parent p; best_val_loss := best_val_loss p;
     num_workers := num_workers p; running_workers := running_workers p;
     waiting_workers_list := waiting_workers_list p;
     num_sync_workers := n; num_epochs := num_epochs p |}.
End Objects.

(** ** The process monad

    A method runs on a world: the process object, the messages that have
    arrived for it and the messages it has sent.  It returns, raises, or
    blocks in a receive for which no message has arrived. *)
Section Monad.
Context `{Scalar, MPIConsts, Collab, !NumPy}.

Inductive Exn :=
| UtilsError (what : string)          (* mpi_tools.Utils.Error *)
| ValueError (tag : option string)    (* "Tag %s not recognized" *)
| ZeroDivisionError
| TypeError
| IndexError
| TransportError.                     (* raised inside the MPI library *)

Record World := {
  self : Process;
  inbox : list Envelope;
  outbox : list Envelope;
}.

Inductive Res (A : Type) :=
| Ok (a : A) (w : World)
| Raised (e : Exn) (w : World)
| Blocked (w : World).
Global Arguments Ok {A} a w.
Global Arguments Raised {A} e w.
Global Arguments Blocked {A} w.

Definition M (A : Type) : Type := World → Res A.

Definition ret {A} (a : A) : M A := λ w, Ok a w.

Definition bind {A B} (m : M A) (k : A → M B) : M B :=
  λ w, match m w with
       | Ok a w' => k a w'
       | Raised e w' => Raised e w'
       | Blocked w' => Blocked w'
       end.

Global Instance M_ret : MRet M := @ret.
Global Instance M_bind : MBind M := λ A B k m, bind m k.

Definition raise {A} (e : Exn) : M A := λ w, Raised e w.

Definition get_self : M Process := λ w, Ok (self w) w.

Definition modify_self (f : Process → Process) : M unit :=
  λ w, Ok tt {| self := f (self w); inbox := inbox w; outbox := outbox w |}.

(** [comm.send] and [comm.Send]: the message leaves. *)
Definition mpi_send (e : Envelope) : M unit :=
  λ w, Ok tt {| self := self w; inbox := inbox w; outbox := outbox w ++ [e] |}.

(** MPI matching: communicator, source (or [ANY_SOURCE]) and tag (or
    [ANY_TAG]). *)
Definition matches (c : Comm) (source tag : Z) (e : Envelope) : bool :=
  bool_decide (env_comm e = c)
  && ((source =? ANY_SOURCE) || (source =? env_peer e))
  && ((tag =? ANY_TAG) || (tag =? env_tag e)).

(** The first message of the mailbox that matches, and the mailbox without
    it. *)
Fixpoint take_first (f : Envelope → bool) (l : list Envelope)
  : option (Envelope * list Envelope) :=
  match l with
  | [] => None
  | e :: r =>
      if f e then Some (e, r)
      else match take_first f r with
           | Some (e', r') => Some (e', e :: r')
           | None => None
           end
  end.

(** [comm.recv] and [comm.Recv]: blocks until a matching message is there. *)
Definition mpi_recv (c : Comm) (source tag : Z) : M Envelope :=
  λ w, match take_first (matches c source tag) (inbox w) with
       | Some (e, rest) =>
           Ok e {| self := self w; inbox := rest; outbox := outbox w |}
       | None => Blocked w
       end.
End Monad.

(** ** MPIProcess: the typed send and receive primitives *)
Section MPIProcess.
Context `{Scalar, MPIConsts, Collab, !NumPy}.

(** What [recv] returns: the unpickled object, or the buffer it filled. *)
Inductive Received := RecvObj (o : PyObj) | RecvBuf (a : ndarray).

(** [comm.Recv(obj, ...)] into the array [w]: the elements received replace
    the first elements of [w]; more elements than [w] holds is an MPI
    truncation error. *)
Definition fill_buffer (w : ndarray) (d : list num) : option ndarray :=
  if decide (length d ≤ length (data w))%nat
  then Some {| shape := shape w; data := d ++ drop (length d) (data w) |}
  else None.

(** [recv(obj, tag, source, buffer, status, comm)], with the status it
    fills. *)
Definition recv (obj : option ndarray) (tag : string) (source : option Z)
    (buffer : bool) (comm : option Comm) : M (Received * Status) :=
  p ← get_self;
  let comm := default ParentComm comm in
  source ← match source with
           | Some s => mret s
           | None =>
               match parent_rank p with
               | None => raise (UtilsError tag)
               | Some r => mret r
               end
           end;
  tag_num ← match Tags.lookup_mpi_tag tag with
            | Some t => mret t
            | None => raise TypeError
            end;
  e ← mpi_recv comm source tag_num;
  let status := {| Get_source := env_peer e; Get_tag := env_tag e |} in
  if buffer then
    match obj, env_body e with
    | Some w, Buffer d =>
        match fill_buffer w d with
        | Some w' => mret (RecvBuf w', status)
        | None => raise TransportError
        end
    | _, _ => raise TransportError
    end
  else
    match env_body e with
    | Pickled o => mret (RecvObj o, status)
    | Buffer _ => raise TransportError
    end.

(** [send(obj, tag, dest, buffer, comm)]: [obj] and [buffer] together are
    the payload. *)
Definition send (obj : Payload) (tag : string) (dest : option Z)
    (comm : option Comm) : M unit :=
  p ← get_self;
  let comm := default ParentComm comm in
  dest ← match dest with
         | Some d => mret d
         | None =>
             match parent_rank p with
             | None => raise (UtilsError tag)
             | Some r => mret r
             end
         end;
  tag_num ← match Tags.lookup_mpi_tag tag with
            | Some t => mret t
            | None => raise TypeError
            end;
  mpi_send {| env_comm := comm; env_peer := dest; env_tag := tag_num;
              env_body := obj |}.

(** [send_exit_to_parent()]. *)
Definition send_exit_to_parent : M unit :=
  p ← get_self;
  match parent_rank p with
  | Some _ => send (Pickled PyNone) "exit" None None
  | None => mret tt
  end.

(** [send_time_step(comm, dest)]. *)
Definition send_time_step (comm : option Comm) (dest : option Z) : M unit :=
  p ← get_self;
  send (Pickled (PyInt (time_step p))) "time" dest comm.

(** [send_bool(obj, comm, dest)]. *)
Definition send_bool (obj : bool) (comm : option Comm) (dest : option Z)
  : M unit :=
  send (Pickled (PyBool obj)) "bool" dest comm.

(** [recv_time_step(comm, source)]. *)
Definition recv_time_step (comm : option Comm) (source : option Z) : M PyObj :=
  r ← recv None "time" source false comm;
  match r.1 with
  | RecvObj o => mret o
  | RecvBuf _ => raise TransportError
  end.

(** [recv_bool(comm, source)]. *)
Definition recv_bool (comm : option Comm) (source : option Z) : M PyObj :=
  r ← recv None "bool" source false comm;
  match r.1 with
  | RecvObj o => mret o
  | RecvBuf _ => raise TransportError
  end.

(** [for w in obj: self.send(w, tag, comm=comm, dest=dest, buffer=True)]. *)
Fixpoint send_each (obj : list ndarray) (tag : string) (comm : option Comm)
    (dest : option Z) : M unit :=
  match obj with
  | [] => mret tt
  | w :: rest =>
      send (Buffer (data w)) tag dest comm;;
      send_each rest tag comm dest
  end.

(** [send_arrays(obj, expect_tag, tag, comm, dest, check_permission)]. *)
Definition send_arrays (obj : list ndarray) (expect_tag tag : string)
    (comm : option Comm) (dest : option Z) (check_permission : bool)
  : M unit :=
  send (Pickled PyNone) expect_tag dest comm;;
  if check_permission then
    send_time_step comm dest;;
    decision ← recv_bool comm dest;
    if negb (truthy decision) then mret tt
    else send_each obj tag comm dest
  else send_each obj tag comm dest.

(** [send_weights(comm, dest, check_permission)]. *)
Definition send_weights (comm : option Comm) (dest : option Z)
    (check_permission : bool) : M unit :=
  p ← get_self;
  send_arrays (weights p) "begin_weights" "weights" comm dest check_permission.

(** [send_update(comm, dest, check_permission)]. *)
Definition send_update (comm : option Comm) (dest : option Z)
    (check_permission : bool) : M unit :=
  p ← get_self;
  send_arrays (update p) "begin_update" "update" comm dest check_permission.

(** [for w in obj: self.recv(w, tag, comm=comm, source=source, buffer=True)];
    the arrays of [obj] are filled in place, the list returned is [obj]
    afterwards. *)
Fixpoint recv_each (obj : list ndarray) (tag : string) (comm : option Comm)
    (source : option Z) : M (list ndarray) :=
  match obj with
  | [] => mret []
  | w :: rest =>
      r ← recv (Some w) tag source true comm;
      match r.1 with
      | RecvBuf w' =>
          rest' ← recv_each rest tag comm source;
          mret (w' :: rest')
      | RecvObj _ => raise TransportError
      end
  end.

(** [recv_arrays(obj, tag, comm, source, add_to_existing)]. *)
Definition recv_arrays (obj : list ndarray) (tag : string)
    (comm : option Comm) (source : option Z) (add_to_existing : bool)
  : M (list ndarray) :=
  if add_to_existing then
    let tmp := weights_from_shapes (map shape obj) in
    tmp ← recv_each tmp tag comm source;
    mret (zip_with iadd obj tmp)
  else recv_each obj tag comm source.

(** [recv_weights(comm, source, add_to_existing)]. *)
Definition recv_weights (comm : option Comm) (source : option Z)
    (add_to_existing : bool) : M unit :=
  p ← get_self;
  ws ← recv_arrays (weights p) "weights" comm source add_to_existing;
  modify_self (with_weights ws).

(** [recv_update(comm, source, add_to_existing)]. *)
Definition recv_update (comm : option Comm) (source : option Z)
    (add_to_existing : bool) : M unit :=
  p ← get_self;
  u ← recv_arrays (update p) "update" comm source add_to_existing;
  modify_self (with_update u).

(** [sync_with_master()].  The time step received is used as an integer
    from here on; an object that is none is refused where it is stored. *)
Definition sync_with_master : M unit :=
  t ← recv_time_step None None;
  t ← match as_int t with
      | Some z => mret z
      | None => raise TypeError
      end;
  modify_self (with_time_step t);;
  recv_weights None None false;;
  p ← get_self;
  modify_self
    (with_model (set_worker_model_weights (algo p) (model p) (weights p))).

(** [do_send_sequence()]. *)
Definition do_send_sequence : M unit :=
  send_update None None true;;
  sync_with_master.
End MPIProcess.

(** ** MPIWorker *)
Section MPIWorker.
Context `{Scalar, MPIConsts, Collab, !NumPy}.

(** [train_on_batch(batch)]: the model trains; the loss is only printed. *)
Definition train_on_batch (batch : Batch) : M unit :=
  p ← get_self;
  let m := model p in
  modify_self
    (with_model (set_model_weights m (train_step m (model_weights m) batch))).

(** [compute_update()]. *)
Definition worker_compute_update : M unit :=
  p ← get_self;
  modify_self
    (with_update
       (compute_update (algo p) (weights p) (model_weights (model p)))).

(** The body of the batch loop of [MPIWorker.train]. *)
Definition worker_batch (batch : Batch) : M unit :=
  train_on_batch batch;;
  worker_compute_update;;
  do_send_sequence.

(** [for batch in self.data.generate_data(): ...]. *)
Fixpoint worker_batches (batches : list Batch) : M unit :=
  match batches with
  | [] => mret tt
  | b :: rest => worker_batch b;; worker_batches rest
  end.

(** [for epoch in range(self.num_epochs): ...]. *)
Fixpoint worker_epochs (n : nat) : M unit :=
  match n with
  | O => mret tt
  | S n' =>
      p ← get_self;
      worker_batches (data_batches p);;
      worker_epochs n'
  end.

(** [await_signal_from_parent()]. *)
Definition await_signal_from_parent : M unit :=
  recv None "train" None false None;; mret tt.

(** [MPIWorker.train()], from the wait for the start signal on. *)
Definition worker_train : M unit :=
  await_signal_from_parent;;
  p ← get_self;
  worker_epochs (num_epochs p);;
  send_exit_to_parent.
End MPIWorker.

(** ** MPIMaster *)
Section MPIMaster.
Context `{Scalar, MPIConsts, Collab, !NumPy}.

(** The order in which [iteritems] enumerated [tag_lookup] when the class
    body built [inv_tag_lookup]. *)
Variable order : list (string * Z).

Definition inv_tag_lookup : gmap Z string := Tags.invert_items order.

(** [decide_whether_to_sync()]. *)
Definition decide_whether_to_sync (p : Process) : bool :=
  num_sync_workers p <=? Z.of_nat (length (waiting_workers_list p)).

(** [is_synchronous()]. *)
Definition is_synchronous (p : Process) : bool := 1 <? num_sync_workers p.

(** [accept_update()]. *)
Definition accept_update (p : Process) : bool :=
  negb (is_synchronous p) || (staleness (algo p) =? 0).

(** [sync_child(child)]. *)
Definition sync_child (child : Z) : M unit :=
  send_time_step (Some ChildComm) (Some child);;
  send_weights (Some ChildComm) (Some child) false.

(** [sync_children()]: [while self.waiting_workers_list: child = pop(); ...].
    [stack] is the list with its last element first; [pop] removes that
    element before the child is served. *)
Fixpoint sync_children_from (stack : list Z) : M unit :=
  match stack with
  | [] => mret tt
  | child :: rest =>
      modify_self (with_waiting_workers_list (reverse rest));;
      sync_child child;;
      sync_children_from rest
  end.

Definition sync_children : M unit :=
  p ← get_self;
  sync_children_from (reverse (waiting_workers_list p)).

(** [sync_parent()]. *)
Definition sync_parent : M unit :=
  p ← get_self;
  if has_parent p then do_send_sequence
  else modify_self (with_time_step (time_step p + 1)).

(** [apply_update()]. *)
Definition master_apply_update : M unit :=
  p ← get_self;
  modify_self (with_weights (apply_update (algo p) (weights p) (update p))).

(** [save_model_if_best(val_metrics)]. *)
Definition save_model_if_best (val_metrics : Metrics) : M unit :=
  val_loss ← match val_metrics with
             | MetricSeq [] => raise IndexError
             | MetricSeq (m :: _) => mret m
             | MetricScalar m => mret m
             end;
  p ← get_self;
  let better :=
    match best_val_loss p with
    | None => true
    | Some best => metric_ltb val_loss best
    end in
  if better then
    modify_self (with_best_val_loss (Some val_loss));;
    p ← get_self;
    modify_self (with_model (model_save (model p) "mpi_learn_model.h5"))
  else mret tt.

(** The batch loop of [validate]: the number of batches and the sum of the
    metrics. *)
Fixpoint validate_batches (m : Model) (batches : list Batch)
    (n_batches : Z) (val_metrics : Metrics) : Z * Metrics :=
  match batches with
  | [] => (n_batches, val_metrics)
  | b :: rest =>
      validate_batches m rest (n_batches + 1)
        (np_add val_metrics (test_on_batch m (model_weights m) b))
  end.

(** [validate(save_if_best)]. *)
Definition validate (save_if_best : bool) : M unit :=
  p ← get_self;
  if has_parent p then mret tt
  else
    modify_self (with_model (set_model_weights (model p) (weights p)));;
    p ← get_self;
    let '(n_batches, val_metrics) :=
      validate_batches (model p) (data_batches p) 0
        (MetricSeq (replicate (n_metrics (model p)) metric_zero)) in
    let val_metrics := np_divide val_metrics n_batches in
    if save_if_best then save_model_if_best val_metrics else mret tt.

(** [a % b] on integers. *)
Definition py_mod (a b : Z) : M Z :=
  if b =? 0 then raise ZeroDivisionError else mret (a `mod` b).

(** The last statement of the accepted branch of [do_update_sequence]:
    [if self.time_step % self.algo.validate_every == 0
        and self.time_step > 0: self.validate()]. *)
Definition periodic_validation : M unit :=
  p ← get_self;
  r ← py_mod (time_step p) (validate_every (algo p));
  if (r =? 0) && (0 <? time_step p) then validate true else mret tt.

(** The accepted branch of [do_update_sequence(source)]: what follows
    [if accepted:]. *)
Definition accepted_update_sequence (source : Z) : M unit :=
  p ← get_self;
  recv_update (Some ChildComm) (Some source) (is_synchronous p);;
  p ← get_self;
  modify_self
    (with_waiting_workers_list (waiting_workers_list p ++ [source]));;
  p ← get_self;
  (if decide_whether_to_sync p then
     (if send_before_apply (algo p) then
        sync_parent;; sync_children;; master_apply_update
      else
        master_apply_update;; sync_parent;; sync_children);;
     p ← get_self;
     modify_self (with_update (weights_from_shapes (weights_shapes p)))
   else mret tt);;
  periodic_validation.

(** [do_update_sequence(source)]. *)
Definition do_update_sequence (source : Z) : M unit :=
  p ← get_self;
  t ← recv_time_step (Some ChildComm) (Some source);
  t ← match as_int t with
      | Some z => mret z
      | None => raise TypeError
      end;
  modify_self (with_algo (set_staleness (algo p) (time_step p - t)));;
  p ← get_self;
  let accepted := accept_update p in
  send_bool accepted (Some ChildComm) (Some source);;
  if accepted then accepted_update_sequence source
  else sync_child source.

(** [process_message(status)]. *)
Definition process_message (status : Status) : M (option string) :=
  let source := Get_source status in
  let tag := Tags.lookup_mpi_tag_inv inv_tag_lookup (Get_tag status) in
  (if bool_decide (tag = Some "begin_update") then
     do_update_sequence source
   else if bool_decide (tag = Some "exit") then
     p ← get_self;
     modify_self (with_running_workers (running_workers p - 1));;
     p ← get_self;
     modify_self (with_num_sync_workers (num_sync_workers p - 1))
   else raise (ValueError tag));;
  mret tag.

(** [recv_any_from_child(status)]. *)
Definition recv_any_from_child : M Status :=
  r ← recv None "any" (Some ANY_SOURCE) false (Some ChildComm);
  mret r.2.

(** The serving loop of [MPIMaster.train]:
    [while self.running_workers > 0: ...]; [fuel] bounds the number of
    iterations, and the result is [false] when it is used up. *)
Fixpoint serve (fuel : nat) : M bool :=
  p ← get_self;
  if 0 <? running_workers p then
    match fuel with
    | O => mret false
    | S fuel' =>
        status ← recv_any_from_child;
        process_message status;;
        serve fuel'
    end
  else mret true.

(** [MPIMaster.train()], from the creation of the status object on. *)
Definition master_train (fuel : nat) : M bool :=
  p ← get_self;
  modify_self (with_running_workers (num_workers p));;
  modify_self (with_waiting_workers_list []);;
  finished ← serve fuel;
  if finished : bool then
    validate true;;
    send_exit_to_parent;;
    mret true
  else mret false.
End MPIMaster.

(** ** The entry point (OptimizeCNN.py)

    The script is Python 3 ([#!/usr/bin/env python3]): [/] between two
    integers is true division and gives a float.  A rational stands for
    that float, which is the exact quotient rounded to the nearest double:
    for integers of the size of a sample count and a batch size it is zero
    only when the quotient is. *)
Module Entry.


(** What ends the branch early. *)
Inductive Failure :=
| AttributeError
| ZeroDivisionError
| TypeError.

#[local] Instance failure_ret : MRet (sum Failure) := λ A a, inr a.
#[local] Instance failure_bind : MBind (sum Failure) := λ A B k x,
  match x with
  | inl e => inl e
  | inr a => k a
  end.








End Entry.

(** ** A concrete platform, for examples

    Integers stand for the array elements and for the metrics; the MPI
    constants are those of Open MPI. *)
Module Concrete.
Instance scalar : Scalar := {| num := Z; nzero := 0; nadd := Z.add |}.
Instance consts : MPIConsts := {| ANY_SOURCE := -1; ANY_TAG := -1 |}.
Instance collab : Collab :=
  {| metric := Z; metric_zero := 0; metric_ltb := Z.ltb; Batch := unit |}.

Definition seq_add (a b : list Z) : list Z := zip_with Z.add a b.

Instance numpy : NumPy :=
  {| np_add := λ a b,
       match a, b with
       | MetricSeq x, MetricSeq y => MetricSeq (seq_add x y)
       | MetricSeq x, MetricScalar y => MetricSeq (map (Z.add y) x)
       | MetricScalar x, MetricSeq y => MetricSeq (map (Z.add x) y)
       | MetricScalar x, MetricScalar y => MetricScalar (x + y)
       end;
     np_divide := λ a n,
       match a with
       | MetricSeq x => MetricSeq (map (λ v, v / n) x)
       | MetricScalar x => MetricScalar (x / n)
       end |}.

(** A model that learns nothing and reports a loss of 1. *)
Definition model0 (ws : list ndarray) : Model :=
  {| model_weights := ws; saved_models := []; n_metrics := 1;
     train_step := λ ws _, ws;
     test_on_batch := λ _ _, MetricSeq [1] |}.

(** Updates are differences, and are applied by addition. *)
Definition algo0 (send_first : bool) (every : Z) : Algo :=
  {| staleness := 0; send_before_apply := send_first;
     validate_every := every;
     compute_update := λ old new, new;
     apply_update := λ ws u, zip_with iadd ws u;
     set_worker_model_weights := set_model_weights |}.

Definition vec (l : list Z) : ndarray :=
  {| shape := [length l]; data := l |}.

(** A process holding the one-array model [ws]. *)
Definition process0 (parent : option Z) (ws u : list Z) (t : Z)
    (send_first : bool) (every n_sync : Z) (waiting : list Z) : Process :=
  {| parent_rank := parent; rank := 0; data_batches := [tt];
     model := model0 [vec ws]; algo := algo0 send_first every;
     weights_shapes := [[length ws]]; weights := [vec ws];
     update := [vec u]; time_step := t;
     has_parent := bool_decide (parent ≠ None); best_val_loss := None;
     num_workers := 2; running_workers := 2;
     waiting_workers_list := waiting; num_sync_workers := n_sync;
     num_epochs := 1 |}.

Definition metrics (l : list Z) : Metrics := MetricSeq l.

Definition world0 (p : Process) (inbox : list Envelope) : World :=
  {| self := p; inbox := inbox; outbox := [] |}.
End Concrete.

(** ** A tree of processes

    The processes of a master/worker tree and the channels between them, as
    a transition system.  A step is one blocking receive of a process
    together with the sends and assignments that follow it up to the next
    receive.  Between two processes messages are delivered in the order they
    were sent; a receive takes the first message with the tag it asks for.
    The arrays of a weights or update transfer play no part in the time
    steps: one message [Arrays] of tag 13 stands for the whole list. *)
Module System.

Inductive Msg :=
| Train | Exit | BeginWeights | BeginUpdate
| Time (t : Z) | Bool (b : bool) | Arrays.

(** The tag of a message, as in [tag_lookup]. *)
Definition tag_of (m : Msg) : Z :=
  match m with
  | Train => 0
  | Exit => 1
  | BeginWeights => 2
  | BeginUpdate => 3
  | Time _ => 4
  | Bool _ => 5
  | Arrays => 13
  end.

(** The first message of tag [tag] in a channel, and the channel without
    it. *)
Fixpoint take_tag (tag : Z) (l : list Msg) : option (Msg * list Msg) :=
  match l with
  | [] => None
  | m :: r =>
      if tag_of m =? tag then Some (m, r)
      else match take_tag tag r with
           | Some (m', r') => Some (m', m :: r')
           | None => None
           end
  end.

(** What a process does once [do_send_sequence] has returned. *)
Inductive Cont :=
| NextBatch (batches_left : nat)  (* a worker goes on with its batch loop *)
| FinishRound.                    (* a master goes on with its round *)

(** Where a process stands: the receive it is blocked in. *)
Inductive PC :=
| Start                         (* before the start signal *)
| Training (batches_left : nat) (* worker: top of the batch loop *)
| Serving                       (* master: [recv_any_from_child] *)
| AwaitChildTime (c : nat)      (* [do_update_sequence]: [recv_time_step] *)
| AwaitChildUpdate (c : nat)    (* [do_update_sequence]: [recv_update] *)
| AwaitBool (k : Cont)          (* [send_arrays]: [recv_bool] *)
| AwaitTime (k : Cont)          (* [sync_with_master]: [recv_time_step] *)
| AwaitWeights (k : Cont)       (* [sync_with_master]: [recv_weights] *)
| Exited
| Failed.                       (* an exception ended the process *)

(** The attributes of a process that the protocol reads and writes. *)
Record Node := {
  pc : PC;
  time_step : Z;
  staleness : Z;                 (* [algo.staleness] *)
  num_sync_workers : Z;
  running_workers : Z;
  waiting_workers_list : list nat;
}.

(** The tree and the configuration of its processes. *)
Record Tree := {
  parent : nat → option nat;       (* [parent_rank], as a process *)
  is_master : nat → bool;
  children : nat → list nat;       (* the other members of [child_comm] *)
  send_before_apply : nat → bool;  (* [algo.send_before_apply] *)
  validate_every : nat → Z;        (* [algo.validate_every] *)
  sync_workers : nat → Z;          (* the constructor's [num_sync_workers] *)
  total_batches : nat → nat;       (* batches of all the epochs of a worker *)
}.

Record Config := {
  nodes : nat → Node;
  chan : nat * nat → list Msg;     (* [chan (s, d)]: sent by [s] to [d] *)
}.

Definition with_pc (v : PC) (s : Node) : Node :=
  {| pc := v; time_step := time_step s; staleness := staleness s;
     num_sync_workers := num_sync_workers s;
     running_workers := running_workers s;
     waiting_workers_list := waiting_workers_list s |}.

Definition with_time_step (v : Z) (s : Node) : Node :=
  {| pc := pc s; time_step := v; staleness := staleness s;
     num_sync_workers := num_sync_workers s;
     running_workers := running_workers s;
     waiting_workers_list := waiting_workers_list s |}.

Definition with_staleness (v : Z) (s : Node) : Node :=
  {| pc := pc s; time_step := time_step s; staleness := v;
     num_sync_workers := num_sync_workers s;
     running_workers := running_workers s;
     waiting_workers_list := waiting_workers_list s |}.

Definition with_num_sync_workers (v : Z) (s : Node) : Node :=
  {| pc := pc s; time_step := time_step s; staleness := staleness s;
     num_sync_workers := v;
     running_workers := running_workers s;
     waiting_workers_list := waiting_workers_list s |}.

Definition with_running_workers (v : Z) (s : Node) : Node :=
  {| pc := pc s; time_step := time_step s; staleness := staleness s;
     num_sync_workers := num_sync_workers s;
     running_workers := v;
     waiting_workers_list := waiting_workers_list s |}.

Definition with_waiting_workers_list (v : list nat) (s : Node) : Node :=
  {| pc := pc s; time_step := time_step s; staleness := staleness s;
     num_sync_workers := num_sync_workers s;
     running_workers := running_workers s;
     waiting_workers_list := v |}.

Definition update_node (n : nat) (f : Node → Node) (cfg : Config) : Config :=
  {| nodes := <[n := f (nodes cfg n)]> (nodes cfg); chan := chan cfg |}.

(** [n] sends [msgs] to [d]. *)
Definition push (n d : nat) (msgs : list Msg) (cfg : Config) : Config :=
  {| nodes := nodes cfg;
     chan := <[(n, d) := chan cfg (n, d) ++ msgs]> (chan cfg) |}.

(** [n] sends [msgs] to its parent, when it has one. *)
Definition push_parent (T : Tree) (n : nat) (msgs : list Msg) (cfg : Config)
  : Config :=
  match parent T n with
  | Some p => push n p msgs cfg
  | None => cfg
  end.

(** The channel from [s] to [d] becomes [l]: a message was taken. *)
Definition set_chan (s d : nat) (l : list Msg) (cfg : Config) : Config :=
  {| nodes := nodes cfg; chan := <[(s, d) := l]> (chan cfg) |}.

(** [decide_whether_to_sync()], [is_synchronous()] and [accept_update()]. *)
Definition decide_whether_to_sync (s : Node) : bool :=
  num_sync_workers s <=? Z.of_nat (length (waiting_workers_list s)).

Definition is_synchronous (s : Node) : bool := 1 <? num_sync_workers s.

Definition accept_update (s : Node) : bool :=
  negb (is_synchronous s) || (staleness s =? 0).

(** [sync_child(child)]: the time step, then the weights. *)
Definition sync_child (n child : nat) (cfg : Config) : Config :=
  push n child [Time (time_step (nodes cfg n)); BeginWeights; Arrays] cfg.

(** [sync_children()]: the waiting children are served last first. *)
Definition sync_children (n : nat) (cfg : Config) : Config :=
  let stack := reverse (waiting_workers_list (nodes cfg n)) in
  update_node n (with_waiting_workers_list [])
    (foldl (λ cfg child, sync_child n child cfg) cfg stack).

(** The test before [validate()] in [do_update_sequence]: [%] raises on a
    zero [validate_every]; the validation itself exchanges no message. *)
Definition validation_check (T : Tree) (n : nat) (cfg : Config) : Config :=
  update_node n
    (with_pc (if validate_every T n =? 0 then Failed else Serving)) cfg.

(** The rest of a round once [sync_parent()] has returned.  Applying the
    update, before or after, and resetting it touch the arrays only. *)
Definition finish_round (T : Tree) (n : nat) (cfg : Config) : Config :=
  validation_check T n (sync_children n cfg).

(** The continuation of [do_send_sequence]. *)
Definition continue (T : Tree) (n : nat) (k : Cont) (cfg : Config)
  : Config :=
  match k with
  | NextBatch b => update_node n (with_pc (Training b)) cfg
  | FinishRound => finish_round T n cfg
  end.

(** [signal_children()]. *)
Definition signal_children (T : Tree) (n : nat) (cfg : Config) : Config :=
  foldl (λ cfg child, push n child [Train] cfg) cfg (children T n).

(** What an observer of a step sees: the staleness a master computed. *)
Inductive Label := Silent | Staleness (master : nat) (value : Z).

Inductive step (T : Tree) : Config → Label → Config → Prop :=
(* MPIWorker.train: await_signal_from_parent *)
| worker_start n p cfg rest :
    is_master T n = false → pc (nodes cfg n) = Start →
    parent T n = Some p →
    take_tag 0 (chan cfg (p, n)) = Some (Train, rest) →
    step T cfg Silent
      (update_node n (with_pc (Training (total_batches T n)))
         (set_chan p n rest cfg))
(* MPIWorker.train: one batch, up to recv_bool in send_arrays *)
| worker_batch n b cfg :
    pc (nodes cfg n) = Training (S b) →
    step T cfg Silent
      (update_node n (with_pc (AwaitBool (NextBatch b)))
         (push_parent T n [BeginUpdate; Time (time_step (nodes cfg n))] cfg))
(* MPIWorker.train: send_exit_to_parent *)
| worker_exit n cfg :
    pc (nodes cfg n) = Training O →
    step T cfg Silent
      (update_node n (with_pc Exited) (push_parent T n [Exit] cfg))
(* send_arrays: the decision arrives; the arrays follow if it is true *)
| sender_bool n p k b cfg rest :
    pc (nodes cfg n) = AwaitBool k → parent T n = Some p →
    take_tag 5 (chan cfg (p, n)) = Some (Bool b, rest) →
    step T cfg Silent
      (update_node n (with_pc (AwaitTime k))
         (push n p (if b then [Arrays] else []) (set_chan p n rest cfg)))
(* sync_with_master: self.time_step = self.recv_time_step() *)
| sender_time n p k t cfg rest :
    pc (nodes cfg n) = AwaitTime k → parent T n = Some p →
    take_tag 4 (chan cfg (p, n)) = Some (Time t, rest) →
    step T cfg Silent
      (update_node n (λ s, with_pc (AwaitWeights k) (with_time_step t s))
         (set_chan p n rest cfg))
(* sync_with_master: recv_weights, and what follows do_send_sequence *)
| sender_weights n p k cfg rest :
    pc (nodes cfg n) = AwaitWeights k → parent T n = Some p →
    take_tag 13 (chan cfg (p, n)) = Some (Arrays, rest) →
    step T cfg Silent (continue T n k (set_chan p n rest cfg))
(* MPIMaster.train: signal_children and the initialisations *)
| master_start n cfg :
    is_master T n = true → pc (nodes cfg n) = Start →
    step T cfg Silent
      (update_node n
         (λ s, with_pc Serving
                 (with_waiting_workers_list []
                    (with_running_workers
                       (Z.of_nat (length (children T n))) s)))
         (signal_children T n cfg))
(* MPIMaster.train: the loop ends, validate, send_exit_to_parent *)
| master_exit n cfg :
    pc (nodes cfg n) = Serving → running_workers (nodes cfg n) ≤ 0 →
    step T cfg Silent
      (update_node n (with_pc Exited) (push_parent T n [Exit] cfg))
(* process_message: begin_update *)
| master_begin_update n c cfg rest :
    pc (nodes cfg n) = Serving → 0 < running_workers (nodes cfg n) →
    parent T c = Some n →
    chan cfg (c, n) = BeginUpdate :: rest →
    step T cfg Silent
      (update_node n (with_pc (AwaitChildTime c)) (set_chan c n rest cfg))
(* process_message: exit *)
| master_child_exit n c cfg rest :
    pc (nodes cfg n) = Serving → 0 < running_workers (nodes cfg n) →
    parent T c = Some n →
    chan cfg (c, n) = Exit :: rest →
    step T cfg Silent
      (update_node n
         (λ s, with_num_sync_workers (num_sync_workers s - 1)
                 (with_running_workers (running_workers s - 1) s))
         (set_chan c n rest cfg))
(* process_message: any other tag raises ValueError *)
| master_bad_tag n c m cfg rest :
    pc (nodes cfg n) = Serving → 0 < running_workers (nodes cfg n) →
    parent T c = Some n →
    chan cfg (c, n) = m :: rest → tag_of m ≠ 3 → tag_of m ≠ 1 →
    step T cfg Silent
      (update_node n (with_pc Failed) (set_chan c n rest cfg))
(* do_update_sequence: staleness, decision, and the rejected branch *)
| master_child_time n c t cfg rest :
    pc (nodes cfg n) = AwaitChildTime c → parent T c = Some n →
    take_tag 4 (chan cfg (c, n)) = Some (Time t, rest) →
    let s := with_staleness (time_step (nodes cfg n) - t) (nodes cfg n) in
    let cfg1 := update_node n (λ _, s) (set_chan c n rest cfg) in
    let cfg2 := push n c [Bool (accept_update s)] cfg1 in
    step T cfg (Staleness n (time_step (nodes cfg n) - t))
      (if accept_update s
       then update_node n (with_pc (AwaitChildUpdate c)) cfg2
       else update_node n (with_pc Serving) (sync_child n c cfg2))
(* do_update_sequence: the accepted branch, up to sync_parent *)
| master_child_update n c cfg rest :
    pc (nodes cfg n) = AwaitChildUpdate c → parent T c = Some n →
    take_tag 13 (chan cfg (c, n)) = Some (Arrays, rest) →
    let cfg1 :=
      update_node n
        (λ s, with_waiting_workers_list (waiting_workers_list s ++ [c]) s)
        (set_chan c n rest cfg) in
    step T cfg Silent
      (if decide_whether_to_sync (nodes cfg1 n) then
         match parent T n with
         | Some p =>
             update_node n (with_pc (AwaitBool FinishRound))
               (push n p
                  [BeginUpdate; Time (time_step (nodes cfg1 n))] cfg1)
         | None =>
             finish_round T n
               (update_node n
                  (λ s, with_time_step (time_step s + 1) s) cfg1)
         end
       else validation_check T n cfg1).

(** Every process is fresh: [time_step = 0], nothing sent. *)
Definition initial (T : Tree) : Config :=
  {| nodes := λ n,
       {| pc := Start; time_step := 0; staleness := 0;
          num_sync_workers := sync_workers T n; running_workers := 0;
          waiting_workers_list := [] |};
     chan := λ _, [] |}.

Inductive reachable (T : Tree) : Config → Prop :=
| reachable_initial : reachable T (initial T)
| reachable_step cfg l cfg' :
    reachable T cfg → step T cfg l cfg' → reachable T cfg'.

(** A tree proper: a parent has a smaller number than its children. *)
Definition well_formed (T : Tree) : Prop :=
  ∀ n p, parent T n = Some p → (p < n)%nat.

(** The time steps in flight in a channel, oldest first. *)
Definition times (l : list Msg) : list Z :=
  omap (λ m, match m with Time t => Some t | _ => None end) l.

Fixpoint ascending (l : list Z) : Prop :=
  match l with
  | [] => True
  | x :: rest => Forall (Z.le x) rest ∧ ascending rest
  end.

(** The time step of a process. *)
Definition clock (cfg : Config) (n : nat) : Z := time_step (nodes cfg n).

(** Time flows down the tree: between a child [c] and its parent [p], the
    child is not ahead of the parent; the time steps on their way down are
    in ascending order, not behind the child and not ahead of the parent;
    and the time steps on their way up are not ahead of the parent. *)
Definition times_ok (T : Tree) (tm : nat → Z) (ch : nat * nat → list Msg)
  : Prop :=
  ∀ c p, parent T c = Some p →
    tm c ≤ tm p
    ∧ ascending (times (ch (p, c)))
    ∧ Forall (λ t, tm c ≤ t ≤ tm p) (times (ch (p, c)))
    ∧ Forall (λ t, t ≤ tm p) (times (ch (c, p))).

Definition invariant (T : Tree) (cfg : Config) : Prop :=
  times_ok T (clock cfg) (chan cfg)
  ∧ ∀ n, 0 ≤ staleness (nodes cfg n).

End System.

(** A tree of two processes: the master 0 and its worker 1, which trains
    on one batch. *)
Definition tree0 : System.Tree :=
  {| System.parent := λ n, if (n =? 1)%nat then Some 0%nat else None;
     System.is_master := λ n, (n =? 0)%nat;
     System.children := λ n, if (n =? 0)%nat then [1%nat] else [];
     System.send_before_apply := λ _, false;
     System.validate_every := λ _, 5;
     System.sync_workers := λ _, 1;
     System.total_batches := λ _, 1%nat |}.

(** ** Vocabulary of the properties *)
Section Vocabulary.
Context `{Scalar, MPIConsts, Collab, !NumPy}.

(** The world a call leaves behind, however it ends. *)
Definition world_of {A} (r : Res A) : World :=
  match r with
  | Ok _ w => w
  | Raised _ w => w
  | Blocked w => w
  end.

(** A method that takes a world only to worlds related to it by [R],
    however it ends. *)
Definition respects {A} (R : relation World) (m : M A) : Prop :=
  ∀ w, R w (world_of (m w)).

(** An update of the process that leaves the count of running workers
    alone. *)
Definition gentle (f : Process → Process) : Prop :=
  ∀ p, running_workers (f p) = running_workers p.

(** Messages sent are never taken back. *)
Definition sent_grows (w w' : World) : Prop :=
  outbox w `prefix_of` outbox w'.

(** No worker is counted out and no message is put into the mailbox. *)
Definition steady (w w' : World) : Prop :=
  running_workers (self w') = running_workers (self w)
  ∧ (length (inbox w') ≤ length (inbox w))%nat.

(** The messages of one transfer of the arrays [ws] under tag 13. *)
Definition array_messages (c : Comm) (peer : Z) (ws : list ndarray)
  : list Envelope :=
  map (λ w, msg c peer 13 (Buffer (data w))) ws.

(** The messages by which a child is served a time step and weights. *)
Definition child_service (child t : Z) (ws : list ndarray) : list Envelope :=
  msg ChildComm child 4 (Pickled (PyInt t))
  :: msg ChildComm child 2 (Pickled PyNone)
  :: array_messages ChildComm child ws.

(** The buffers [ds] as messages of tag 13 from or to [peer]. *)
Definition buffer_messages (c : Comm) (peer : Z) (ds : list (list num))
  : list Envelope :=
  map (λ d, msg c peer 13 (Buffer d)) ds.

(** The rank a call addresses: the one given, or else the parent. *)
Definition address (p : Process) (peer : option Z) : option Z :=
  match peer with
  | Some d => Some d
  | None => parent_rank p
  end.

(** The arrays [ws] once the buffers [ds] have been received into them. *)
Definition filled (ws : list ndarray) (ds : list (list num)) : list ndarray :=
  zip_with (λ w d, {| shape := shape w;
                      data := d ++ drop (length d) (data w) |}) ws ds.

(** The buffers that [recv_arrays] fills: the arrays themselves, or fresh
    zero arrays of their shapes when it adds to the existing ones. *)
Definition landing (obj : list ndarray) (add_to_existing : bool)
  : list ndarray :=
  if add_to_existing then weights_from_shapes (map shape obj) else obj.

(** The arrays [obj] once [recv_arrays] has received the buffers [ds]. *)
Definition received (obj : list ndarray) (add_to_existing : bool)
    (ds : list (list num)) : list ndarray :=
  if add_to_existing
  then zip_with iadd obj (filled (landing obj true) ds)
  else filled obj ds.

(** The buffers [ds] fit the arrays [ws], one for one. *)
Definition fits (ws : list ndarray) (ds : list (list num)) : Prop :=
  Forall2 (λ w d, (length d ≤ length (data w))%nat) ws ds.
(** The messages by which the children of [stack] are served, first to
    last, the time step [t] and the weights [ws]. *)
Definition fan_out (t : Z) (ws : list ndarray) (stack : list Z)
  : list Envelope :=
  concat (map (λ child, child_service child t ws) stack).

(** What a master with a parent finds in its mailbox when it propagates:
    the decision [dec], the time step [tp] and the weights [pds] of its
    parent [r].  A root expects nothing. *)
Definition parent_replies (below : bool) (r : Z) (dec : PyObj) (tp : Z)
    (pds : list (list num)) : list Envelope :=
  if below
  then msg ParentComm r 5 (Pickled dec)
       :: msg ParentComm r 4 (Pickled (PyInt tp))
       :: buffer_messages ParentComm r pds
  else [].

(** What a master with a parent sends it when it propagates the update
    [u] at time step [t]; a root sends nothing. *)
Definition parent_requests (below : bool) (r t : Z) (dec : PyObj)
    (u : list ndarray) : list Envelope :=
  if below
  then [msg ParentComm r 3 (Pickled PyNone);
        msg ParentComm r 4 (Pickled (PyInt t))]
       ++ (if truthy dec then array_messages ParentComm r u else [])
  else [].

(** The primary metric of a validation: [val_metrics[0]], or the scalar
    itself; an empty sequence has none. *)
Definition primary_metric (v : Metrics) : option metric :=
  match v with
  | MetricSeq [] => None
  | MetricSeq (m :: _) => Some m
  | MetricScalar m => Some m
  end.

(** Successive calls of [save_model_if_best], one per validation. *)
Fixpoint save_each (vs : list Metrics) : M unit :=
  match vs with
  | [] => mret tt
  | v :: rest => save_model_if_best v;; save_each rest
  end.

(** The attributes of a process that the protocol itself works on: all but
    the model and the best validation loss. *)
Definition protocol_state (p : Process) :=
  (weights p, update p, time_step p, waiting_workers_list p,
   num_sync_workers p, running_workers p, algo p,
   (parent_rank p, has_parent p, weights_shapes p, data_batches p)).

(** A method that leaves the protocol state and the mailboxes alone. *)
Definition frames {A} (m : M A) : Prop :=
  ∀ w, protocol_state (self (world_of (m w))) = protocol_state (self w)
       ∧ inbox (world_of (m w)) = inbox w
       ∧ outbox (world_of (m w)) = outbox w.

(** The claim as the specification words it: after a rejection the worker
    still has the weights it had. *)
Definition keeps_weights_on_rejection : Prop :=
  ∀ r t ds p ib ob w',
    parent_rank p = Some r → fits (weights p) ds →
    do_send_sequence
      {| self := p;
         inbox := msg ParentComm r 5 (Pickled (PyBool false))
                  :: msg ParentComm r 4 (Pickled (PyInt t))
                  :: buffer_messages ParentComm r ds ++ ib;
         outbox := ob |} = Ok tt w' →
    weights (self w') = weights p.

End Vocabulary.

(** ** More of the entry point (OptimizeCNN.py)

    The operands of the two divisions below are an MPI rank or size and the
    [--block-size] argument.  On a rank of at least 1, a size that is not
    negative and a positive block size, floor division and the truncation
    [int(...)] of a quotient agree. *)

(** [get_block_num(comm, block_size)] for [rank = comm.Get_rank()]; [None]
    stands for the [ZeroDivisionError] of a zero block size. *)
Definition get_block_num (rank block_size : Z) : option Z :=
  if rank =? 0 then Some 999
  else if block_size =? 0 then None
  else Some ((rank - 1) / block_size).

(** [num_blocks = int(comm_world.Get_size()/args.block_size)]. *)
Definition entry_num_blocks (size block_size : Z) : option Z :=
  if block_size =? 0 then None else Some (size / block_size).

(** The two branches of the main block: [if block_num == -1] runs the
    coordinator, [else] builds and runs a training block.  The calls
    between the block number and the test, [mm.get_device] and
    [comm_world.Split], do not change the block number and are taken to
    return. *)
Inductive Branch := RunCoordinator | RunBlock.

Definition entry_branch (size rank block_size : Z) : option Branch :=
  _ ← entry_num_blocks size block_size;
  block_num ← get_block_num rank block_size;
  Some (if block_num =? -1 then RunCoordinator else RunBlock).

(** ** More vocabulary *)
Section Silence.
Context `{Scalar, MPIConsts, Collab, !NumPy}.

(** No message of [l] answers a receive on [c] from [source] under
    [tag]. *)
Definition silent (c : Comm) (source tag : Z) (l : list Envelope) : Prop :=
  Forall (λ e, matches c source tag e = false) l.

(** The messages [out] that a parent of rank [r] sent one of its children,
    as that child finds them on its parent communicator. *)
Definition as_received (r : Z) (out : list Envelope) : list Envelope :=
  map (λ e, msg ParentComm r (env_tag e) (env_body e)) out.

(** Two lists of arrays agree in the number of elements, array by array. *)
Definition same_sizes (ws vs : list ndarray) : Prop :=
  Forall2 (λ w v, length (data w) = length (data v)) ws vs.
End Silence.

(** ** Well-formed arrays *)
Section Shapes.
Context `{Scalar}.

(** A numpy array holds as many elements as its shape says. *)
Definition well_shaped (a : ndarray) : Prop :=
  length (data a) = shape_size (shape a).

(** The number of elements of each array of a list. *)
Definition sizes (ws : list ndarray) : list nat :=
  map (λ a, length (data a)) ws.
End Shapes.

(** ** Setting a process up

    The model attributes of an [MPIProcess]: [__init__] sets each of them
    to [None]; [set_model_info] and [bcast_model_info] fill them in, and
    [check_sanity] asks for them before a process trains. *)
Module Setup.
Section Setup.
Context `{Scalar, Collab}.

(** [keras.models.model_from_json]: the model of an architecture. *)
Variable model_from_json : string → Model.

Record Attributes := {
  model : option Model;
  model_arch : option string;
  algo : option Algo;
  weights_shapes : option (list (list nat));
  weights : option (list ndarray);
  update : option (list ndarray);
}.

(** What ends a call early: [Error] of [mpi_tools.Utils], the
    [AttributeError] of a method called on [None], the [TypeError] of an
    iteration over [None], and a broadcast whose sides disagree, which is
    erroneous in MPI. *)
Inductive Failure :=
| Error (what : string)
| AttributeError
| TypeError
| Mismatch.

(** The attributes as [MPIProcess.__init__] creates them. *)
Definition fresh : Attributes :=
  {| model := None; model_arch := None; algo := None;
     weights_shapes := None; weights := None; update := None |}.

(** Modelled from the spec: [shapes_from_weights] of [mpi_tools.Utils],
    which is not among the sources; the spec has [set_model_info] derive
    [weights_shapes] from the weights, and the update buffer made of zero
    arrays of matching shape. *)
Definition shapes_from_weights (ws : list ndarray) : list (list nat) :=
  map shape ws.

(** [set_model_info(model_arch, algo, weights)].  The call stops at
    [self.model.set_weights] when there is no model; what was assigned
    before stays. *)
Definition set_model_info (new_arch : option string) (new_algo : option Algo)
    (new_weights : option (list ndarray)) (a : Attributes)
  : Attributes * option Failure :=
  let a1 :=
    match new_arch with
    | Some arch =>
        {| model := Some (model_from_json arch); model_arch := Some arch;
           algo := algo a; weights_shapes := weights_shapes a;
           weights := weights a; update := update a |}
    | None => a
    end in
  let a2 :=
    match new_algo with
    | Some g =>
        {| model := model a1; model_arch := model_arch a1; algo := Some g;
           weights_shapes := weights_shapes a1; weights := weights a1;
           update := update a1 |}
    | None => a1
    end in
  match new_weights with
  | Some ws =>
      let shapes := shapes_from_weights ws in
      match model a2 with
      | Some m =>
          ({| model := Some (set_model_weights m ws);
              model_arch := model_arch a2; algo := algo a2;
              weights_shapes := Some shapes; weights := Some ws;
              update := Some (weights_from_shapes shapes) |}, None)
      | None =>
          ({| model := None; model_arch := model_arch a2; algo := algo a2;
              weights_shapes := Some shapes; weights := Some ws;
              update := update a2 |}, Some AttributeError)
      end
  | None => (a2, None)
  end.

(** [getattr(self, par) is None]. *)
Definition is_None {A} (o : option A) : bool :=
  match o with
  | None => true
  | Some _ => false
  end.

(** The loop of [check_sanity] over the names and what [getattr] finds
    under them: the first that is [None] raises. *)
Fixpoint first_missing (pars : list (string * bool)) : option Failure :=
  match pars with
  | [] => None
  | (par, none) :: rest =>
      if none then Some (Error par) else first_missing rest
  end.

(** [check_sanity()]: [None] when it returns. *)
Definition check_sanity (a : Attributes) : option Failure :=
  first_missing
    [ ("model", is_None (model a));
      ("model_arch", is_None (model_arch a));
      ("algo", is_None (algo a));
      ("weights_shapes", is_None (weights_shapes a));
      ("weights", is_None (weights a)) ].

(** [comm.Bcast(w, root=root)] at a member of the communicator, where the
    root broadcasts its array [root_w]: the elements of [root_w] replace
    those of [w]; the two arrays must agree in size. *)
Definition Bcast (root_w w : ndarray) : option ndarray :=
  if decide (length (data root_w) = length (data w))
  then Some {| shape := shape w; data := data root_w |}
  else None.

(** [bcast_weights(comm, root)] at a member holding the arrays [ws], where
    the root holds [root_ws]: one broadcast per array on either side. *)
Fixpoint bcast_weights (root_ws ws : list ndarray)
  : option (list ndarray) :=
  match ws, root_ws with
  | [], [] => Some []
  | w :: ws', root_w :: root_ws' =>
      match Bcast root_w w, bcast_weights root_ws' ws' with
      | Some w', Some rest => Some (w' :: rest)
      | _, _ => None
      end
  | _, _ => None
  end.

(** [bcast_model_info(comm, root)] at a member with the attributes [a],
    where [root] are the attributes of the root of the broadcast:
    [comm.bcast] hands every member the object of the root. *)
Definition bcast_model_info (root a : Attributes)
  : Attributes * option Failure :=
  let a1 :=
    {| model := model a; model_arch := model_arch root; algo := algo root;
       weights_shapes := weights_shapes root; weights := weights a;
       update := update a |} in
  let created :=
    match weights a1, weights_shapes a1 with
    | Some ws, _ => Some ws
    | None, Some shapes => Some (weights_from_shapes shapes)
    | None, None => None
    end in
  match created with
  | None => (a1, Some TypeError)
  | Some ws =>
      let a2 :=
        {| model := model a1; model_arch := model_arch a1;
           algo := algo a1; weights_shapes := weights_shapes a1;
           weights := Some ws; update := update a1 |} in
      match weights root with
      | None => (a2, Some Mismatch)
      | Some root_ws =>
          match bcast_weights root_ws ws with
          | Some ws' =>
              ({| model := model a2; model_arch := model_arch a2;
                  algo := algo a2; weights_shapes := weights_shapes a2;
                  weights := Some ws'; update := update a2 |}, None)
          | None => (a2, Some Mismatch)
          end
      end
  end.

(** [MPIProcess.__init__(parent_comm, parent_rank, data)], up to the call
    of [train()]: with a parent rank the process takes part in the
    broadcast of the root of [parent_comm] and sets its model up from what
    it received; without, it stays as created. *)
Definition MPIProcess_init (parent_rank : option Z) (root : Attributes)
  : Attributes * option Failure :=
  match parent_rank with
  | Some _ =>
      match bcast_model_info root fresh with
      | (a, None) => set_model_info (model_arch a) None (weights a) a
      | (a, Some e) => (a, Some e)
      end
  | None => (fresh, None)
  end.

(** [MPIWorker.__init__(data, parent_comm, parent_rank, num_epochs)], up
    to the call of [train()]. *)
Definition MPIWorker_init (parent_rank : option Z) (root : Attributes)
  : Attributes * option Failure :=
  match parent_rank with
  | None => (fresh, Some (Error "MPIWorker initialized without parent rank"))
  | Some _ => MPIProcess_init parent_rank root
  end.

(** [MPIMaster.__init__(parent_comm, parent_rank, child_comm, data,
    num_sync_workers)], up to the call of [train()]; [child_comm] tells
    whether a child communicator was given. *)
Definition MPIMaster_init (parent_rank : option Z) (child_comm : bool)
    (root : Attributes) : Attributes * option Failure :=
  if child_comm then MPIProcess_init parent_rank root
  else (fresh, Some (Error "MPIMaster initialized without child communicator")).

(** A process set up for training: every attribute is there, the shapes
    are those of the weights, and the arrays are well formed. *)
Definition configured (a : Attributes) : Prop :=
  check_sanity a = None
  ∧ ∃ ws, weights a = Some ws
          ∧ weights_shapes a = Some (shapes_from_weights ws)
          ∧ Forall well_shaped ws.
End Setup.
End Setup.

(** ** More of MPIMaster: the start signal *)
Section Signal.
Context `{Scalar, MPIConsts, Collab, !NumPy}.
Variable order : list (string * Z).

(** [signal_children()]: [for child in range(1, self.child_comm.Get_size())].
    The size of the child communicator is [num_workers + 1]: the
    constructor sets [num_workers] to the size less one and nothing
    assigns it afterwards. *)
Fixpoint signal_each (children : list Z) : M unit :=
  match children with
  | [] => mret tt
  | child :: rest =>
      send (Pickled PyNone) "train" (Some child) (Some ChildComm);;
      signal_each rest
  end.

Definition signal_children : M unit :=
  p ← get_self;
  signal_each (seqZ 1 (num_workers p)).

(** [MPIMaster.train()], from [signal_children()] on. *)
Definition master_train_signalled (fuel : nat) : M bool :=
  signal_children;;
  master_train order fuel.
End Signal.

(** ** Vocabulary of the invariants *)
Section Invariants.
Context `{Scalar, MPIConsts, Collab, !NumPy}.

(** The assignments that the methods of the exchange make: to the model,
    the algorithm, the weights, the update, the time step, the best
    validation loss and the list of waiting workers. *)
Inductive assigns : (Process → Process) → Prop :=
| assigns_model m : assigns (with_model m)
| assigns_algo a : assigns (with_algo a)
| assigns_weights ws : assigns (with_weights ws)
| assigns_update u : assigns (with_update u)
| assigns_time_step t : assigns (with_time_step t)
| assigns_best_val_loss b : assigns (with_best_val_loss b)
| assigns_waiting_workers_list l : assigns (with_waiting_workers_list l).

(** A message of the protocol: the tag says what the payload is.  Arrays
    travel as buffers under tag 13, a time step as a pickled integer
    under tag 4, a decision as a pickled boolean under tag 5, and the
    signals [train], [exit], [begin_weights] and [begin_update] carry
    [None]. *)
Definition protocol_message (e : Envelope) : Prop :=
  match env_body e with
  | Buffer _ => env_tag e = 13
  | Pickled PyNone => env_tag e ∈ [0; 1; 2; 3]
  | Pickled (PyInt _) => env_tag e = 4
  | Pickled (PyBool _) => env_tag e = 5
  end.

(** What goes up: a message of the protocol on the parent communicator,
    addressed to the parent [r], that is part of a request ([begin_update],
    the time step, the update) or an [exit]. *)
Definition upward (r : option Z) (e : Envelope) : Prop :=
  protocol_message e
  ∧ env_comm e = ParentComm
  ∧ r = Some (env_peer e)
  ∧ env_tag e ∈ [1; 3; 4; 13].

(** What goes down: a message of the protocol on the child communicator
    that is the start signal, a decision, a time step or weights. *)
Definition downward (e : Envelope) : Prop :=
  protocol_message e
  ∧ env_comm e = ChildComm
  ∧ env_tag e ∈ [0; 2; 4; 5; 13].

Definition up_or_down (r : option Z) (e : Envelope) : Prop :=
  upward r e ∨ downward e.

(** The process keeps its parent, what it had sent is still the head of
    what it has sent, and each message sent since is one that [ok]
    allows a process of that parent. *)
Definition traffic (ok : option Z → Envelope → Prop) (w w' : World) : Prop :=
  parent_rank (self w') = parent_rank (self w)
  ∧ ∃ l, outbox w' = outbox w ++ l
         ∧ Forall (ok (parent_rank (self w))) l.

(** [send(obj, tag, dest, comm)] builds allowed messages only. *)
Definition sendable (ok : option Z → Envelope → Prop) (obj : Payload)
    (tag : string) (dest : option Z) (comm : option Comm) : Prop :=
  ∀ p d t,
    address p dest = Some d → Tags.lookup_mpi_tag tag = Some t →
    ok (parent_rank p) (msg (default ParentComm comm) d t obj).

(** What a process is given when it is made. *)
Definition given (p : Process) :=
  (parent_rank p, has_parent p, rank p, num_workers p, weights_shapes p,
   data_batches p, num_epochs p).

(** The process keeps what it was given, and its threshold exceeds its
    count of running workers by what it did. *)
Definition lockstep (w w' : World) : Prop :=
  given (self w') = given (self w)
  ∧ num_sync_workers (self w') - running_workers (self w')
    = num_sync_workers (self w) - running_workers (self w).

(** The train signal for the child [child]. *)
Definition train_signal (child : Z) : Envelope :=
  msg ChildComm child 0 (Pickled PyNone).

(** The exit messages of the children [sources], as their master finds
    them. *)
Definition exit_messages (sources : list Z) : list Envelope :=
  map (λ s, msg ChildComm s 1 (Pickled PyNone)) sources.
End Invariants.

(** ** Stalled trees *)

(** A configuration from which no process can take a step. *)
Definition stuck (T : System.Tree) (cfg : System.Config) : Prop :=
  ∀ l cfg', ¬ System.step T cfg l cfg'.

(** A tree of three processes: the master 0, which synchronises on two
    updates, the worker 1, which trains on [S batches] batches, and the
    worker 2, whose data source yields no batch. *)
Definition tree1 (batches : nat) (every : Z) : System.Tree :=
  {| System.parent :=
       λ n, if (n =? 1)%nat || (n =? 2)%nat then Some 0%nat else None;
     System.is_master := λ n, (n =? 0)%nat;
     System.children := λ n, if (n =? 0)%nat then [1%nat; 2%nat] else [];
     System.send_before_apply := λ _, false;
     System.validate_every := λ _, every;
     System.sync_workers := λ _, 2;
     System.total_batches := λ n, if (n =? 1)%nat then S batches else 0%nat |}.

(** ** A concrete setup, for examples *)
Module Examples.
Import Concrete.

(** Every architecture gives the model of the examples. *)
Definition model_of (arch : string) : Model := model0 [].

(** A root set up with one array of two elements. *)
Definition root0 : Setup.Attributes :=
  {| Setup.model := Some (model0 [vec [1; 2]]);
     Setup.model_arch := Some "{}";
     Setup.algo := Some (algo0 false 5);
     Setup.weights_shapes := Some [[2%nat]];
     Setup.weights := Some [vec [1; 2]];
     Setup.update := None |}.
End Examples.

(** ** Vocabulary of whole runs *)
Section Scripts.
Context `{Scalar, MPIConsts, Collab, !NumPy}.

(** An update request as it reaches the master: the child it comes from,
    the time step the child declares and the elements of its update
    arrays. *)
Definition Request : Type := Z * Z * list (list num).

(** The messages of a request whose update is accepted. *)
Definition request_messages (r : Request) : list Envelope :=
  let '(source, t, ds) := r in
  msg ChildComm source 3 (Pickled PyNone)
  :: msg ChildComm source 4 (Pickled (PyInt t))
  :: buffer_messages ChildComm source ds.

(** The periodic validation is due at time step [t]. *)
Definition due (t every : Z) : Prop := t `mod` every = 0 ∧ 0 < t.

(** What an accepted request makes of a root, and what the root sends: the
    update is received and the child waits; when the threshold is reached
    the update is applied, the round is counted, the waiting children are
    served, last first, the weights the algorithm asks for, and the update
    buffer is reset. *)
Definition root_accepts (p : Process) (r : Request)
  : Process * list Envelope :=
  let '(source, t, ds) := r in
  let p1 := with_algo (set_staleness (algo p) (time_step p - t)) p in
  let U := received (update p) (is_synchronous p) ds in
  let l := waiting_workers_list p ++ [source] in
  let decision := msg ChildComm source 5 (Pickled (PyBool true)) in
  if num_sync_workers p <=? Z.of_nat (length l) then
    let W := apply_update (algo p) (weights p) U in
    (with_update (weights_from_shapes (weights_shapes p))
       (with_waiting_workers_list []
          (with_time_step (time_step p + 1)
             (with_weights W (with_update U p1)))),
     decision
     :: fan_out (time_step p + 1)
          (if send_before_apply (algo p) then weights p else W)
          (reverse l))
  else (with_waiting_workers_list l (with_update U p1), [decision]).

(** The request [r] is accepted by the root [p], its arrays fit the
    buffers, and no validation is due once it is dealt with. *)
Definition acceptable (p : Process) (r : Request) : Prop :=
  has_parent p = false
  ∧ accept_update
      (with_algo (set_staleness (algo p) (time_step p - r.1.2)) p) = true
  ∧ fits (landing (update p) (is_synchronous p)) r.2
  ∧ validate_every (algo p) ≠ 0
  ∧ ¬ due (time_step (root_accepts p r).1) (validate_every (algo p)).

(** A sequence of requests dealt with one after the other. *)
Fixpoint all_acceptable (p : Process) (rs : list Request) : Prop :=
  match rs with
  | [] => True
  | r :: rest => acceptable p r ∧ all_acceptable (root_accepts p r).1 rest
  end.

Fixpoint after_requests (p : Process) (rs : list Request) : Process :=
  match rs with
  | [] => p
  | r :: rest => after_requests (root_accepts p r).1 rest
  end.

Fixpoint answers (p : Process) (rs : list Request) : list Envelope :=
  match rs with
  | [] => []
  | r :: rest => (root_accepts p r).2 ++ answers (root_accepts p r).1 rest
  end.



End Scripts.

(** ** Vocabulary of a worker's run *)
Section WorkerScripts.
Context `{Scalar, MPIConsts, Collab, !NumPy}.

(** What a master answers to a request: its decision, its time step and
    its weights. *)
Definition Reply : Type := PyObj * Z * list ndarray.

(** The answer of the master of rank [r] to its child [child], as the
    child finds it: the decision, then what [sync_child] sends. *)
Definition reply_messages (r child : Z) (reply : Reply) : list Envelope :=
  let '(dec, t, ws) := reply in
  as_received r
    (msg ChildComm child 5 (Pickled dec) :: child_service child t ws).

(** What a batch and the answer to its request make of a worker with the
    parent [r], and what the worker sends: the model trains, the update
    is computed and sent if it is accepted, and the time step and the
    weights of the master replace the worker's. *)
Definition worker_step (r : Z) (p : Process) (b : Batch) (reply : Reply)
  : Process * list Envelope :=
  let '(dec, t, ws) := reply in
  let m := model p in
  let m1 := set_model_weights m (train_step m (model_weights m) b) in
  let u := compute_update (algo p) (weights p) (model_weights m1) in
  let W := filled (weights p) (map data ws) in
  (with_model (set_worker_model_weights (algo p) m1 W)
     (with_weights W (with_time_step t (with_update u (with_model m1 p)))),
   [msg ParentComm r 3 (Pickled PyNone);
    msg ParentComm r 4 (Pickled (PyInt (time_step p)))]
   ++ (if truthy dec then array_messages ParentComm r u else [])).

Fixpoint after_batches (r : Z) (p : Process) (steps : list (Batch * Reply))
  : Process :=
  match steps with
  | [] => p
  | (b, reply) :: rest => after_batches r (worker_step r p b reply).1 rest
  end.

Fixpoint requests (r : Z) (p : Process) (steps : list (Batch * Reply))
  : list Envelope :=
  match steps with
  | [] => []
  | (b, reply) :: rest =>
      (worker_step r p b reply).2
      ++ requests r (worker_step r p b reply).1 rest
  end.

(** The batches of all the epochs of a worker, in order. *)
Definition all_batches (p : Process) : list Batch :=
  concat (replicate (num_epochs p) (data_batches p)).

(** The announcement of a transfer of weights that stays in the mailbox
    of a child of [r]. *)
Definition leftover (r : Z) : Envelope :=
  msg ParentComm r 2 (Pickled PyNone).
End WorkerScripts.

(** * Properties *)

(** ** The message-type table *)
Section TagFacts.
Context `{MPIConsts}.

Lemma dict_of_items_snoc {K V} `{Countable K} (l : list (K * V)) kv :
  Tags.dict_of_items (l ++ [kv]) = <[kv.1 := kv.2]> (Tags.dict_of_items l).
Proof. unfold Tags.dict_of_items. by rewrite foldl_app. Qed.

(** Whatever a dict holds under a key was one of the items. *)
Lemma dict_of_items_lookup_Some {K V} `{Countable K} (l : list (K * V)) k v :
  Tags.dict_of_items l !! k = Some v → (k, v) ∈ l.
Proof.
  induction l as [|[k' v'] l IH] using rev_ind; intros Hl.
  - unfold Tags.dict_of_items in Hl. simpl in Hl.
    by rewrite lookup_empty in Hl.
  - rewrite dict_of_items_snoc in Hl. simpl in Hl.
    destruct (decide (k' = k)) as [->|Hne].
    + rewrite lookup_insert_eq in Hl. injection Hl as ->.
      apply elem_of_app. right. by apply list_elem_of_singleton.
    + rewrite lookup_insert_ne in Hl by done.
      apply elem_of_app. left. by apply IH.
Qed.

(** Every key of the items is a key of the dict. *)
Lemma dict_of_items_is_Some {K V} `{Countable K} (l : list (K * V)) k v :
  (k, v) ∈ l → is_Some (Tags.dict_of_items l !! k).
Proof.
  induction l as [|[k' v'] l IH] using rev_ind; intros Hl.
  - by apply elem_of_nil in Hl.
  - rewrite dict_of_items_snoc. simpl.
    destruct (decide (k' = k)) as [->|Hne].
    + rewrite lookup_insert_eq. by eexists.
    + rewrite lookup_insert_ne by done.
      apply elem_of_app in Hl as [Hl|Hl]; [by apply IH|].
      apply list_elem_of_singleton in Hl. congruence.
Qed.

(** A name the inverse table holds for a tag is a name of that tag. *)
Lemma invert_items_lookup_Some order t name :
  Tags.iteration_order order →
  Tags.invert_items order !! t = Some name → (name, t) ∈ Tags.tag_items.
Proof.
  intros Hperm Hl. apply dict_of_items_lookup_Some in Hl.
  apply list_elem_of_fmap in Hl as ([k v] & [= -> ->] & Hin).
  by rewrite <- Hperm.
Qed.

(** The inverse table has a name for every tag of the table. *)
Lemma invert_items_is_Some order t name :
  Tags.iteration_order order →
  (name, t) ∈ Tags.tag_items → is_Some (Tags.invert_items order !! t).
Proof.
  intros Hperm Hin. apply (dict_of_items_is_Some _ t name).
  apply list_elem_of_fmap. exists (name, t). split; [done|].
  by rewrite Hperm.
Qed.

Lemma tag_of_train : Tags.lookup_mpi_tag "train" = Some 0.
Proof. reflexivity. Qed.
Lemma tag_of_exit : Tags.lookup_mpi_tag "exit" = Some 1.
Proof. reflexivity. Qed.
Lemma tag_of_begin_weights : Tags.lookup_mpi_tag "begin_weights" = Some 2.
Proof. reflexivity. Qed.
Lemma tag_of_begin_update : Tags.lookup_mpi_tag "begin_update" = Some 3.
Proof. reflexivity. Qed.
Lemma tag_of_time : Tags.lookup_mpi_tag "time" = Some 4.
Proof. reflexivity. Qed.
Lemma tag_of_bool : Tags.lookup_mpi_tag "bool" = Some 5.
Proof. reflexivity. Qed.
Lemma tag_of_weights : Tags.lookup_mpi_tag "weights" = Some 13.
Proof. reflexivity. Qed.
Lemma tag_of_update : Tags.lookup_mpi_tag "update" = Some 13.
Proof. reflexivity. Qed.
Lemma tag_of_any : Tags.lookup_mpi_tag "any" = Some ANY_SOURCE.
Proof. reflexivity. Qed.

(** The names of a tag in the table. *)
Lemma tag_items_name name t :
  (name, t) ∈ Tags.tag_items →
  Tags.lookup_mpi_tag name = Some t.
Proof.
  unfold Tags.tag_items. intros Hin.
  repeat (apply elem_of_cons in Hin as [[= -> ->]|Hin]; [reflexivity|]).
  by apply elem_of_nil in Hin.
Qed.
End TagFacts.

Section WireTags.
Context `{Scalar, MPIConsts, Collab, !NumPy}.

(** C9. The table [tag_lookup] gives the two message names [weights] and
    [update] the same tag 13, so it is not injective; whatever the order in
    which the inverse table is built, it has a name for tag 13 and holds at
    most one of the two names; and sending or receiving under the name
    [weights] is the same on the wire as under the name [update]. *)
Theorem tag_13_shared (order : list (string * Z)) :
  Tags.iteration_order order →
  (Tags.tag_lookup !! "weights" = Some 13
   ∧ Tags.tag_lookup !! "update" = Some 13
   ∧ "weights" ≠ "update")
  ∧ is_Some (Tags.invert_items order !! 13)
  ∧ ¬ (∃ t t', Tags.invert_items order !! t = Some "weights"
             ∧ Tags.invert_items order !! t' = Some "update")
  ∧ (∀ obj dest comm w,
       send obj "weights" (Some dest) comm w
       = send obj "update" (Some dest) comm w)
  ∧ (∀ obj source buffer comm w,
       recv obj "weights" (Some source) buffer comm w
       = recv obj "update" (Some source) buffer comm w).
Proof.
  intros Hperm. repeat split; try reflexivity; try discriminate.
  - apply (invert_items_is_Some order 13 "weights" Hperm).
    unfold Tags.tag_items. set_solver.
  - intros (t & t' & Hw & Hu).
    pose proof (tag_items_name _ _ (invert_items_lookup_Some _ _ _ Hperm Hw))
      as Ht.
    pose proof (tag_items_name _ _ (invert_items_lookup_Some _ _ _ Hperm Hu))
      as Ht'.
    rewrite tag_of_weights in Ht. rewrite tag_of_update in Ht'.
    injection Ht as <-. injection Ht' as <-. congruence.
Qed.

End WireTags.

(** ** Running the primitives *)

(** Unfold the plumbing of the monad. *)
Ltac run :=
  unfold mbind, M_bind, bind, mret, M_ret, ret, get_self, modify_self, raise;
  simpl.

Section Running.
Context `{Scalar, MPIConsts, Collab, !NumPy}.

Lemma bind_Ok {A B} (m : M A) (k : A → M B) w a w' :
  m w = Ok a w' → (m ≫= k) w = k a w'.
Proof. intros Hm. unfold mbind, M_bind, bind. by rewrite Hm. Qed.

Lemma bind_Raised {A B} (m : M A) (k : A → M B) w e w' :
  m w = Raised e w' → (m ≫= k) w = Raised e w'.
Proof. intros Hm. unfold mbind, M_bind, bind. by rewrite Hm. Qed.

Lemma bind_Blocked {A B} (m : M A) (k : A → M B) w w' :
  m w = Blocked w' → (m ≫= k) w = Blocked w'.
Proof. intros Hm. unfold mbind, M_bind, bind. by rewrite Hm. Qed.

Lemma bind_get {B} (k : Process → M B) w :
  (get_self ≫= k) w = k (self w) w.
Proof. reflexivity. Qed.

Lemma bind_modify {B} f (k : unit → M B) w :
  (modify_self f ≫= k) w
  = k tt {| self := f (self w); inbox := inbox w; outbox := outbox w |}.
Proof. reflexivity. Qed.

Lemma bind_ret {A B} (a : A) (k : A → M B) w : (mret a ≫= k) w = k a w.
Proof. reflexivity. Qed.

Lemma bind_raise {A B} e (k : A → M B) w : (raise e ≫= k) w = Raised e w.
Proof. reflexivity. Qed.

Lemma bind_assoc {A B C} (m : M A) (f : A → M B) (g : B → M C) w :
  ((m ≫= f) ≫= g) w = (m ≫= λ x, f x ≫= g) w.
Proof. unfold mbind, M_bind, bind. by destruct (m w). Qed.

Lemma take_first_head f e l : f e = true → take_first f (e :: l) = Some (e, l).
Proof. intros Hf. simpl. by rewrite Hf. Qed.

Lemma matches_msg c source tag body :
  matches c source tag (msg c source tag body) = true.
Proof.
  unfold matches, msg. simpl. rewrite bool_decide_eq_true_2 by done.
  rewrite !Z.eqb_refl, !orb_true_r. done.
Qed.

(** A send, to a given rank or to the parent. *)
Lemma send_run obj tag t dest comm d p ib ob :
  Tags.lookup_mpi_tag tag = Some t → address p dest = Some d →
  send obj tag dest comm {| self := p; inbox := ib; outbox := ob |}
  = Ok tt {| self := p; inbox := ib;
             outbox := ob ++ [msg (default ParentComm comm) d t obj] |}.
Proof.
  intros Ht Hd. unfold send. run.
  destruct dest as [d'|]; simpl in Hd.
  - injection Hd as ->. simpl. rewrite Ht. reflexivity.
  - rewrite Hd. simpl. rewrite Ht. reflexivity.
Qed.

(** A receive of a pickled object that heads the mailbox. *)
Lemma recv_object tag t source comm s o p ib ob :
  Tags.lookup_mpi_tag tag = Some t → address p source = Some s →
  recv None tag source false comm
    {| self := p;
       inbox := msg (default ParentComm comm) s t (Pickled o) :: ib;
       outbox := ob |}
  = Ok (RecvObj o, {| Get_source := s; Get_tag := t |})
       {| self := p; inbox := ib; outbox := ob |}.
Proof.
  intros Ht Hs.
  destruct source as [s'|]; simpl in Hs; [injection Hs as ->|];
    unfold recv; run; rewrite ?Hs; simpl;
    rewrite Ht; unfold mpi_recv; cbn [inbox].
  all: rewrite take_first_head by apply matches_msg; reflexivity.
Qed.

(** A receive into the array [w] of a buffer that heads the mailbox. *)
Lemma recv_buffer tag t source comm s d w p ib ob :
  Tags.lookup_mpi_tag tag = Some t → address p source = Some s →
  (length d ≤ length (data w))%nat →
  recv (Some w) tag source true comm
    {| self := p;
       inbox := msg (default ParentComm comm) s t (Buffer d) :: ib;
       outbox := ob |}
  = Ok (RecvBuf {| shape := shape w;
                   data := d ++ drop (length d) (data w) |},
        {| Get_source := s; Get_tag := t |})
       {| self := p; inbox := ib; outbox := ob |}.
Proof.
  intros Ht Hs Hlen.
  destruct source as [s'|]; simpl in Hs; [injection Hs as ->|];
    unfold recv; run; rewrite ?Hs; simpl;
    rewrite Ht; unfold mpi_recv; cbn [inbox].
  all: rewrite take_first_head by apply matches_msg; simpl.
  all: unfold fill_buffer; rewrite decide_True by done; reflexivity.
Qed.

Lemma send_time_step_run comm dest d p ib ob :
  address p dest = Some d →
  send_time_step comm dest {| self := p; inbox := ib; outbox := ob |}
  = Ok tt {| self := p; inbox := ib;
             outbox := ob ++ [msg (default ParentComm comm) d 4
                                (Pickled (PyInt (time_step p)))] |}.
Proof.
  intros Hd. unfold send_time_step. rewrite bind_get. cbn [self].
  by apply send_run; [apply tag_of_time|].
Qed.

Lemma send_bool_run b comm dest d p ib ob :
  address p dest = Some d →
  send_bool b comm dest {| self := p; inbox := ib; outbox := ob |}
  = Ok tt {| self := p; inbox := ib;
             outbox := ob ++ [msg (default ParentComm comm) d 5
                                (Pickled (PyBool b))] |}.
Proof. intros Hd. by apply send_run; [apply tag_of_bool|]. Qed.

Lemma recv_time_step_run comm source s o p ib ob :
  address p source = Some s →
  recv_time_step comm source
    {| self := p;
       inbox := msg (default ParentComm comm) s 4 (Pickled o) :: ib;
       outbox := ob |}
  = Ok o {| self := p; inbox := ib; outbox := ob |}.
Proof.
  intros Hs. unfold recv_time_step.
  by rewrite (bind_Ok _ _ _ _ _ (recv_object _ _ _ _ _ _ _ _ _ tag_of_time Hs)).
Qed.

Lemma recv_bool_run comm source s o p ib ob :
  address p source = Some s →
  recv_bool comm source
    {| self := p;
       inbox := msg (default ParentComm comm) s 5 (Pickled o) :: ib;
       outbox := ob |}
  = Ok o {| self := p; inbox := ib; outbox := ob |}.
Proof.
  intros Hs. unfold recv_bool.
  by rewrite (bind_Ok _ _ _ _ _ (recv_object _ _ _ _ _ _ _ _ _ tag_of_bool Hs)).
Qed.

(** The arrays leave one by one, in order. *)
Lemma send_each_run ws tag comm dest d p ib ob :
  Tags.lookup_mpi_tag tag = Some 13 → address p dest = Some d →
  send_each ws tag comm dest {| self := p; inbox := ib; outbox := ob |}
  = Ok tt {| self := p; inbox := ib;
             outbox := ob ++ array_messages (default ParentComm comm) d ws |}.
Proof.
  intros Ht Hd. revert ob. induction ws as [|w ws IH]; intros ob; simpl.
  - unfold array_messages. simpl. by rewrite app_nil_r.
  - rewrite (bind_Ok _ _ _ _ _ (send_run _ _ _ _ _ _ _ _ _ Ht Hd)).
    rewrite IH. unfold array_messages. simpl.
    by rewrite <- app_assoc.
Qed.

(** The buffers that head the mailbox fill the arrays one by one. *)
Lemma recv_each_run ws ds tag comm source s p ib ob :
  Tags.lookup_mpi_tag tag = Some 13 → address p source = Some s →
  fits ws ds →
  recv_each ws tag comm source
    {| self := p;
       inbox := buffer_messages (default ParentComm comm) s ds ++ ib;
       outbox := ob |}
  = Ok (filled ws ds) {| self := p; inbox := ib; outbox := ob |}.
Proof.
  intros Ht Hs Hfit. induction Hfit as [|w d ws ds Hlen Hfit IH]; simpl.
  - reflexivity.
  - rewrite (bind_Ok _ _ _ _ _
               (recv_buffer _ _ _ _ _ _ _ _ _ _ Ht Hs Hlen)).
    simpl. rewrite (bind_Ok _ _ _ _ _ IH). reflexivity.
Qed.
End Running.

(** One step of a run: the first method of a sequence returns. *)
Ltac step_with tac := erewrite bind_Ok; [|tac].

(** ** What every method respects *)

Create HintDb respects.

Section Respects.
Context `{Scalar, MPIConsts, Collab, !NumPy}.
Variable R : relation World.
Context `{!PreOrder R}.
Hypothesis R_send : ∀ e w,
  R w {| self := self w; inbox := inbox w; outbox := outbox w ++ [e] |}.
Hypothesis R_recv : ∀ f e rest w,
  take_first f (inbox w) = Some (e, rest) →
  R w {| self := self w; inbox := rest; outbox := outbox w |}.
Hypothesis R_modify : ∀ f w,
  gentle f →
  R w {| self := f (self w); inbox := inbox w; outbox := outbox w |}.

Lemma respects_ret {A} (a : A) : respects R (mret a).
Proof. intros w. reflexivity. Qed.

Lemma respects_raise {A} e : respects R (@raise _ _ A e).
Proof. intros w. reflexivity. Qed.

Lemma respects_get : respects R get_self.
Proof. intros w. reflexivity. Qed.

Lemma respects_modify f : gentle f → respects R (modify_self f).
Proof. intros Hf w. by apply R_modify. Qed.

Lemma respects_mpi_send e : respects R (mpi_send e).
Proof. intros w. apply R_send. Qed.

Lemma respects_mpi_recv c s t : respects R (mpi_recv c s t).
Proof.
  intros w. unfold mpi_recv.
  destruct (take_first _ _) as [[e rest]|] eqn:Htake; simpl.
  - by eapply R_recv.
  - reflexivity.
Qed.

Lemma respects_bind {A B} (m : M A) (k : A → M B) :
  respects R m → (∀ a, respects R (k a)) → respects R (m ≫= k).
Proof.
  intros Hm Hk w. specialize (Hm w).
  unfold mbind, M_bind, bind. destruct (m w) as [a w'|e w'|w']; simpl in *.
  - etrans; [exact Hm|]. apply Hk.
  - exact Hm.
  - exact Hm.
Qed.

Hint Resolve respects_ret respects_raise respects_get respects_mpi_send
  respects_mpi_recv : respects.

(** Walk down a method: binds, then the cases of its conditionals. *)
Ltac respects_step :=
  first
    [ solve [eauto with respects]
    | apply respects_modify; intros ?; reflexivity
    | progress cbv beta iota zeta
    | apply respects_bind; [|intros ?]
    | match goal with
      | |- respects _ (match ?x with _ => _ end) => destruct x
      | |- respects _ (if ?b then _ else _) => destruct b
      end ].

Ltac solve_respects := repeat respects_step.

Lemma respects_send obj tag dest comm : respects R (send obj tag dest comm).
Proof. unfold send. solve_respects. Qed.

Lemma respects_recv obj tag source buffer comm :
  respects R (recv obj tag source buffer comm).
Proof. unfold recv. solve_respects. Qed.
Hint Resolve respects_send respects_recv : respects.

Lemma respects_send_exit_to_parent : respects R send_exit_to_parent.
Proof. unfold send_exit_to_parent. solve_respects. Qed.

Lemma respects_send_time_step comm dest :
  respects R (send_time_step comm dest).
Proof. unfold send_time_step. solve_respects. Qed.

Lemma respects_send_bool b comm dest : respects R (send_bool b comm dest).
Proof. unfold send_bool. solve_respects. Qed.

Lemma respects_recv_time_step comm source :
  respects R (recv_time_step comm source).
Proof. unfold recv_time_step. solve_respects. Qed.

Lemma respects_recv_bool comm source : respects R (recv_bool comm source).
Proof. unfold recv_bool. solve_respects. Qed.
Hint Resolve respects_send_exit_to_parent respects_send_time_step
  respects_send_bool respects_recv_time_step respects_recv_bool : respects.

Lemma respects_send_each obj tag comm dest :
  respects R (send_each obj tag comm dest).
Proof. induction obj; simpl; solve_respects. Qed.
Hint Resolve respects_send_each : respects.

Lemma respects_send_arrays obj expect_tag tag comm dest check :
  respects R (send_arrays obj expect_tag tag comm dest check).
Proof. unfold send_arrays. solve_respects. Qed.
Hint Resolve respects_send_arrays : respects.

Lemma respects_send_weights comm dest check :
  respects R (send_weights comm dest check).
Proof. unfold send_weights. solve_respects. Qed.

Lemma respects_send_update comm dest check :
  respects R (send_update comm dest check).
Proof. unfold send_update. solve_respects. Qed.

Lemma respects_recv_each obj tag comm source :
  respects R (recv_each obj tag comm source).
Proof. induction obj; simpl; solve_respects. Qed.
Hint Resolve respects_send_weights respects_send_update respects_recv_each
  : respects.

Lemma respects_recv_arrays obj tag comm source add :
  respects R (recv_arrays obj tag comm source add).
Proof. unfold recv_arrays. solve_respects. Qed.
Hint Resolve respects_recv_arrays : respects.

Lemma respects_recv_weights comm source add :
  respects R (recv_weights comm source add).
Proof. unfold recv_weights. solve_respects. Qed.

Lemma respects_recv_update comm source add :
  respects R (recv_update comm source add).
Proof. unfold recv_update. solve_respects. Qed.
Hint Resolve respects_recv_weights respects_recv_update : respects.

Lemma respects_sync_with_master : respects R sync_with_master.
Proof. unfold sync_with_master. solve_respects. Qed.
Hint Resolve respects_sync_with_master : respects.

Lemma respects_do_send_sequence : respects R do_send_sequence.
Proof. unfold do_send_sequence. solve_respects. Qed.
Hint Resolve respects_do_send_sequence : respects.

Lemma respects_sync_child child : respects R (sync_child child).
Proof. unfold sync_child. solve_respects. Qed.
Hint Resolve respects_sync_child : respects.

Lemma respects_sync_children_from stack :
  respects R (sync_children_from stack).
Proof. induction stack; simpl; solve_respects. Qed.
Hint Resolve respects_sync_children_from : respects.

Lemma respects_sync_children : respects R sync_children.
Proof. unfold sync_children. solve_respects. Qed.

Lemma respects_sync_parent : respects R sync_parent.
Proof. unfold sync_parent. solve_respects. Qed.

Lemma respects_master_apply_update : respects R master_apply_update.
Proof. unfold master_apply_update. solve_respects. Qed.

Lemma respects_save_model_if_best v : respects R (save_model_if_best v).
Proof. unfold save_model_if_best. solve_respects. Qed.
Hint Resolve respects_sync_children respects_sync_parent
  respects_master_apply_update respects_save_model_if_best : respects.

Lemma respects_validate b : respects R (validate b).
Proof. unfold validate. solve_respects. Qed.

Lemma respects_py_mod a b : respects R (py_mod a b).
Proof. unfold py_mod. solve_respects. Qed.
Hint Resolve respects_validate respects_py_mod : respects.

Lemma respects_periodic_validation : respects R periodic_validation.
Proof. unfold periodic_validation. solve_respects. Qed.
Hint Resolve respects_periodic_validation : respects.

Lemma respects_accepted_update_sequence source :
  respects R (accepted_update_sequence source).
Proof. unfold accepted_update_sequence. solve_respects. Qed.
Hint Resolve respects_accepted_update_sequence : respects.

Lemma respects_do_update_sequence source :
  respects R (do_update_sequence source).
Proof. unfold do_update_sequence. solve_respects. Qed.
End Respects.

Section Relations.
Context `{Scalar, MPIConsts, Collab, !NumPy}.

Global Instance sent_grows_preorder : PreOrder sent_grows.
Proof.
  split.
  - intros w. unfold sent_grows. reflexivity.
  - intros w1 w2 w3 H12 H23. unfold sent_grows in *. by etrans.
Qed.

Global Instance steady_preorder : PreOrder steady.
Proof.
  split.
  - intros w. by split.
  - intros w1 w2 w3 [Hr12 Hl12] [Hr23 Hl23]. split; [congruence|lia].
Qed.

Lemma take_first_length f l e rest :
  take_first f l = Some (e, rest) → length l = S (length rest).
Proof.
  revert e rest. induction l as [|x l IH]; intros e rest Ht; [done|].
  simpl in Ht. destruct (f x).
  - by injection Ht as <- <-.
  - destruct (take_first f l) as [[e' r']|]; [|done].
    injection Ht as <- <-. simpl. f_equal. by eapply IH.
Qed.

(** Whatever an update sequence does, it sends on top of what was sent. *)
Lemma accepted_update_sequence_sent_grows source :
  respects sent_grows (accepted_update_sequence source).
Proof.
  refine (respects_accepted_update_sequence sent_grows _ _ _ source).
  - intros e w. unfold sent_grows. simpl. by apply prefix_app_r.
  - intros f e rest w _. unfold sent_grows. reflexivity.
  - intros f w _. unfold sent_grows. reflexivity.
Qed.

Lemma sync_child_sent_grows child : respects sent_grows (sync_child child).
Proof.
  refine (respects_sync_child sent_grows _ _ child).
  - intros e w. unfold sent_grows. simpl. by apply prefix_app_r.
  - intros f e rest w _. unfold sent_grows. reflexivity.
Qed.

(** An update sequence counts no worker out and adds nothing to the
    mailbox. *)
Lemma do_update_sequence_steady source :
  respects steady (do_update_sequence source).
Proof.
  refine (respects_do_update_sequence steady _ _ _ source).
  - intros e w. by split.
  - intros f e rest w Ht. split; [done|]. simpl.
    apply take_first_length in Ht. lia.
  - intros f w Hf. split; [apply Hf|done].
Qed.
End Relations.

(** ** The acceptance decision *)
Section Acceptance.
Context `{Scalar, MPIConsts, Collab, !NumPy}.

(** In asynchronous mode every update is accepted. *)
Lemma accept_update_asynchronous p :
  num_sync_workers p = 1 → accept_update p = true.
Proof. intros Hn. unfold accept_update, is_synchronous. by rewrite Hn. Qed.

(** In synchronous mode an update is accepted exactly when it is not
    stale. *)
Lemma accept_update_synchronous p :
  1 < num_sync_workers p →
  accept_update p = true ↔ staleness (algo p) = 0.
Proof.
  intros Hn. unfold accept_update, is_synchronous.
  replace (1 <? num_sync_workers p) with true by (symmetry; lia).
  simpl. apply Z.eqb_eq.
Qed.

(** The process as [accept_update] finds it: the staleness has been set. *)
Lemma staleness_with_algo p s :
  staleness (algo (with_algo (set_staleness (algo p) s) p)) = s
  ∧ num_sync_workers (with_algo (set_staleness (algo p) s) p)
    = num_sync_workers p.
Proof. done. Qed.

(** C1. When a child's update request arrives with the time step [t], the
    first thing the master sends is its decision, to that child.  The
    decision is [accept_update] on the staleness
    [time_step - t]: true whenever [num_sync_workers] is 1, and, when
    [num_sync_workers] exceeds 1, true exactly when the staleness is 0,
    that is when [t] is the master's own time step. *)
Theorem acceptance_decision (source t : Z) p ib ob :
  let w := {| self := p;
              inbox := msg ChildComm source 4 (Pickled (PyInt t)) :: ib;
              outbox := ob |} in
  let p' := with_algo (set_staleness (algo p) (time_step p - t)) p in
  (∃ rest,
     outbox (world_of (do_update_sequence source w))
     = ob ++ msg ChildComm source 5 (Pickled (PyBool (accept_update p')))
          :: rest)
  ∧ staleness (algo p') = time_step p - t
  ∧ (num_sync_workers p = 1 → accept_update p' = true)
  ∧ (1 < num_sync_workers p →
     (accept_update p' = true ↔ staleness (algo p') = 0)
     ∧ (accept_update p' = true ↔ t = time_step p)).
Proof.
  intros w p'. split; [|split; [done|split]].
  - unfold do_update_sequence, w. rewrite bind_get. cbn [self].
    rewrite (bind_Ok _ _ _ _ _
               (recv_time_step_run (Some ChildComm) (Some source) source
                  (PyInt t) p ib ob eq_refl)).
    cbn [as_int]. rewrite bind_ret, bind_modify, bind_get. cbn [self inbox outbox].
    fold p'.
    rewrite (bind_Ok _ _ _ _ _
               (send_bool_run (accept_update p') (Some ChildComm)
                  (Some source) source p' ib ob eq_refl)).
    assert (respects sent_grows
              (if accept_update p' then accepted_update_sequence source
               else sync_child source)) as Happ.
    { destruct (accept_update p');
        [apply accepted_update_sequence_sent_grows
        |apply sync_child_sent_grows]. }
    destruct (Happ {| self := p'; inbox := ib;
                      outbox := ob ++ [msg ChildComm source 5
                                         (Pickled (PyBool (accept_update p')))]
                   |}) as [rest Hrest].
    exists rest. etrans; [exact Hrest|]. simpl. by rewrite <- app_assoc.
  - intros Hn. by apply accept_update_asynchronous.
  - intros Hn. split.
    + by apply accept_update_synchronous.
    + rewrite accept_update_synchronous by done. simpl. lia.
Qed.
End Acceptance.

(** ** A rejected request *)
Section Rejection.
Context `{Scalar, MPIConsts, Collab, !NumPy}.

(** Arrays sent without asking: the announcement, then the arrays. *)
Lemma send_arrays_plain ws expect_tag et tag comm dest d p ib ob :
  Tags.lookup_mpi_tag expect_tag = Some et →
  Tags.lookup_mpi_tag tag = Some 13 →
  address p dest = Some d →
  send_arrays ws expect_tag tag comm dest false
    {| self := p; inbox := ib; outbox := ob |}
  = Ok tt {| self := p; inbox := ib;
             outbox := ob ++ msg (default ParentComm comm) d et
                               (Pickled PyNone)
                            :: array_messages (default ParentComm comm) d ws
          |}.
Proof.
  intros Het Ht Hd. unfold send_arrays.
  rewrite (bind_Ok _ _ _ _ _ (send_run _ _ _ _ _ _ _ _ _ Het Hd)).
  rewrite (send_each_run _ _ _ _ _ _ _ _ Ht Hd).
  by rewrite <- app_assoc.
Qed.

(** [sync_child] sends the time step, then the weights. *)
Lemma sync_child_run child p ib ob :
  sync_child child {| self := p; inbox := ib; outbox := ob |}
  = Ok tt {| self := p; inbox := ib;
             outbox := ob ++ child_service child (time_step p) (weights p) |}.
Proof.
  unfold sync_child.
  rewrite (bind_Ok _ _ _ _ _
             (send_time_step_run (Some ChildComm) (Some child) child
                p ib ob eq_refl)).
  unfold send_weights. rewrite bind_get. cbn [self].
  rewrite (send_arrays_plain (weights p) "begin_weights" 2 "weights"
             (Some ChildComm) (Some child) child p ib _
             tag_of_begin_weights tag_of_weights eq_refl).
  unfold child_service. simpl. by rewrite <- app_assoc.
Qed.

(** C4. When the master rejects the request of the child [source], it
    sends that child the decision, then its current time step, then its
    current weights, and returns: nothing else is sent, and its weights,
    pending update, list of waiting workers, time step and threshold are
    what they were. *)
Theorem rejected_request (source t : Z) p ib ob :
  let p' := with_algo (set_staleness (algo p) (time_step p - t)) p in
  accept_update p' = false →
  do_update_sequence source
    {| self := p;
       inbox := msg ChildComm source 4 (Pickled (PyInt t)) :: ib;
       outbox := ob |}
  = Ok tt
      {| self := p'; inbox := ib;
         outbox := ob ++ msg ChildComm source 5 (Pickled (PyBool false))
                        :: child_service source (time_step p) (weights p) |}
  ∧ weights p' = weights p
  ∧ update p' = update p
  ∧ waiting_workers_list p' = waiting_workers_list p
  ∧ time_step p' = time_step p
  ∧ num_sync_workers p' = num_sync_workers p.
Proof.
  intros p' Hrej. split; [|done].
  unfold do_update_sequence. rewrite bind_get. cbn [self].
  rewrite (bind_Ok _ _ _ _ _
             (recv_time_step_run (Some ChildComm) (Some source) source
                (PyInt t) p ib ob eq_refl)).
  cbn [as_int]. rewrite bind_ret, bind_modify, bind_get.
  cbn [self inbox outbox]. fold p'. rewrite Hrej.
  rewrite (bind_Ok _ _ _ _ _
             (send_bool_run false (Some ChildComm) (Some source) source
                p' ib ob eq_refl)).
  rewrite sync_child_run. simpl. by rewrite <- app_assoc.
Qed.
End Rejection.

(** ** The worker's exchange with its master *)
Section Exchange.
Context `{Scalar, MPIConsts, Collab, !NumPy}.

(** Arrays sent after asking: the announcement and the time step; then the
    arrays, if the decision received is true. *)
Lemma send_arrays_checked ws expect_tag et tag comm dest d dec p ib ob :
  Tags.lookup_mpi_tag expect_tag = Some et →
  Tags.lookup_mpi_tag tag = Some 13 →
  address p dest = Some d →
  send_arrays ws expect_tag tag comm dest true
    {| self := p;
       inbox := msg (default ParentComm comm) d 5 (Pickled dec) :: ib;
       outbox := ob |}
  = Ok tt {| self := p; inbox := ib;
             outbox :=
               ob ++ [msg (default ParentComm comm) d et (Pickled PyNone);
                      msg (default ParentComm comm) d 4
                        (Pickled (PyInt (time_step p)))]
                  ++ (if truthy dec
                      then array_messages (default ParentComm comm) d ws
                      else []) |}.
Proof.
  intros Het Ht Hd. unfold send_arrays.
  rewrite (bind_Ok _ _ _ _ _ (send_run _ _ _ _ _ _ _ _ _ Het Hd)).
  rewrite (bind_Ok _ _ _ _ _ (send_time_step_run _ _ _ _ _ _ Hd)).
  rewrite (bind_Ok _ _ _ _ _ (recv_bool_run _ _ _ _ _ _ _ Hd)).
  destruct (truthy dec); simpl.
  - rewrite (send_each_run _ _ _ _ _ _ _ _ Ht Hd).
    by rewrite <- !app_assoc.
  - by rewrite <- !app_assoc.
Qed.

Lemma recv_arrays_run obj add ds tag comm source s p ib ob :
  Tags.lookup_mpi_tag tag = Some 13 → address p source = Some s →
  fits (landing obj add) ds →
  recv_arrays obj tag comm source add
    {| self := p;
       inbox := buffer_messages (default ParentComm comm) s ds ++ ib;
       outbox := ob |}
  = Ok (received obj add ds) {| self := p; inbox := ib; outbox := ob |}.
Proof.
  intros Ht Hs Hfit. unfold recv_arrays, received. destruct add.
  - rewrite (bind_Ok _ _ _ _ _
               (recv_each_run _ ds tag comm source s p ib ob Ht Hs Hfit)).
    reflexivity.
  - by apply recv_each_run.
Qed.

Lemma recv_weights_run add ds comm source s p ib ob :
  address p source = Some s → fits (landing (weights p) add) ds →
  recv_weights comm source add
    {| self := p;
       inbox := buffer_messages (default ParentComm comm) s ds ++ ib;
       outbox := ob |}
  = Ok tt {| self := with_weights (received (weights p) add ds) p;
             inbox := ib; outbox := ob |}.
Proof.
  intros Hs Hfit. unfold recv_weights. rewrite bind_get. cbn [self].
  rewrite (bind_Ok _ _ _ _ _
             (recv_arrays_run _ add ds "weights" comm source s p ib ob
                tag_of_weights Hs Hfit)).
  reflexivity.
Qed.

Lemma recv_update_run add ds comm source s p ib ob :
  address p source = Some s → fits (landing (update p) add) ds →
  recv_update comm source add
    {| self := p;
       inbox := buffer_messages (default ParentComm comm) s ds ++ ib;
       outbox := ob |}
  = Ok tt {| self := with_update (received (update p) add ds) p;
             inbox := ib; outbox := ob |}.
Proof.
  intros Hs Hfit. unfold recv_update. rewrite bind_get. cbn [self].
  rewrite (bind_Ok _ _ _ _ _
             (recv_arrays_run _ add ds "update" comm source s p ib ob
                tag_of_update Hs Hfit)).
  reflexivity.
Qed.

(** [sync_with_master] takes the time step and the weights. *)
Lemma sync_with_master_run r t ds p ib ob :
  parent_rank p = Some r → fits (weights p) ds →
  sync_with_master
    {| self := p;
       inbox := msg ParentComm r 4 (Pickled (PyInt t))
                :: buffer_messages ParentComm r ds ++ ib;
       outbox := ob |}
  = Ok tt
      {| self :=
           with_model
             (set_worker_model_weights (algo p) (model p)
                (filled (weights p) ds))
             (with_weights (filled (weights p) ds) (with_time_step t p));
         inbox := ib; outbox := ob |}.
Proof.
  intros Hr Hfit. unfold sync_with_master.
  rewrite (bind_Ok _ _ _ _ _ (recv_time_step_run None None r _ _ _ _ Hr)).
  cbn [as_int]. rewrite bind_ret, bind_modify. cbn [self inbox outbox].
  rewrite (bind_Ok _ _ _ _ _
             (recv_weights_run false ds None None r (with_time_step t p)
                ib ob Hr Hfit)).
  rewrite bind_get. reflexivity.
Qed.

(** The whole exchange of [do_send_sequence], for a decision [dec], a time
    step [t] and weights [ds] sent by the master. *)
Lemma do_send_sequence_run r dec t ds p ib ob :
  parent_rank p = Some r → fits (weights p) ds →
  do_send_sequence
    {| self := p;
       inbox := msg ParentComm r 5 (Pickled dec)
                :: msg ParentComm r 4 (Pickled (PyInt t))
                :: buffer_messages ParentComm r ds ++ ib;
       outbox := ob |}
  = Ok tt
      {| self :=
           with_model
             (set_worker_model_weights (algo p) (model p)
                (filled (weights p) ds))
             (with_weights (filled (weights p) ds) (with_time_step t p));
         inbox := ib;
         outbox :=
           ob ++ [msg ParentComm r 3 (Pickled PyNone);
                  msg ParentComm r 4 (Pickled (PyInt (time_step p)))]
              ++ (if truthy dec
                  then array_messages ParentComm r (update p)
                  else []) |}.
Proof.
  intros Hr Hfit. unfold do_send_sequence, send_update.
  rewrite bind_assoc, bind_get. cbn [self].
  rewrite (bind_Ok _ _ _ _ _
             (send_arrays_checked (update p) "begin_update" 3 "update"
                None None r dec p _ ob tag_of_begin_update tag_of_update Hr)).
  by apply sync_with_master_run.
Qed.

(** C3, as amended.  In the exchange of [do_send_sequence] the worker sends
    its update arrays only when the decision is true, but it receives the
    time step and the weights of the master and overwrites its own after
    every request, accepted or rejected; the update of the next batch is
    computed from the weights so received. *)
Theorem worker_exchange r dec t ds p ib ob :
  parent_rank p = Some r → fits (weights p) ds →
  ∃ p',
    do_send_sequence
      {| self := p;
         inbox := msg ParentComm r 5 (Pickled dec)
                  :: msg ParentComm r 4 (Pickled (PyInt t))
                  :: buffer_messages ParentComm r ds ++ ib;
         outbox := ob |}
    = Ok tt
        {| self := p'; inbox := ib;
           outbox :=
             ob ++ [msg ParentComm r 3 (Pickled PyNone);
                    msg ParentComm r 4 (Pickled (PyInt (time_step p)))]
                ++ (if truthy dec
                    then array_messages ParentComm r (update p)
                    else []) |}
    ∧ weights p' = filled (weights p) ds
    ∧ time_step p' = t
    ∧ update p' = update p
    ∧ ∀ ib' ob',
        worker_compute_update {| self := p'; inbox := ib'; outbox := ob' |}
        = Ok tt
            {| self :=
                 with_update
                   (compute_update (algo p) (filled (weights p) ds)
                      (model_weights (model p'))) p';
               inbox := ib'; outbox := ob' |}.
Proof.
  intros Hr Hfit. eexists. split; [by apply do_send_sequence_run|].
  repeat split.
Qed.
End Exchange.

(** ** What validation leaves alone *)
Section Frames.
Context `{Scalar, MPIConsts, Collab, !NumPy}.

Lemma frames_ret {A} (a : A) : frames (mret a).
Proof. by intros w. Qed.

Lemma frames_raise {A} e : frames (@raise _ _ A e).
Proof. by intros w. Qed.

Lemma frames_get : frames get_self.
Proof. by intros w. Qed.

Lemma frames_modify f :
  (∀ p, protocol_state (f p) = protocol_state p) → frames (modify_self f).
Proof. intros Hf w. simpl. by rewrite Hf. Qed.

Lemma frames_bind {A B} (m : M A) (k : A → M B) :
  frames m → (∀ a, frames (k a)) → frames (m ≫= k).
Proof.
  intros Hm Hk w. destruct (Hm w) as (Hp & Hi & Ho).
  unfold mbind, M_bind, bind.
  destruct (m w) as [a w'|e w'|w']; simpl in *; [|done..].
  destruct (Hk a w') as (Hp' & Hi' & Ho'). by rewrite Hp', Hi', Ho'.
Qed.

Lemma frames_py_mod a b : frames (py_mod a b).
Proof. unfold py_mod. destruct (b =? 0); [apply frames_raise|apply frames_ret]. Qed.

Lemma frames_save_model_if_best v : frames (save_model_if_best v).
Proof.
  unfold save_model_if_best. apply frames_bind.
  - destruct v as [[|m l]|m];
      [apply frames_raise|apply frames_ret|apply frames_ret].
  - intros val_loss. apply frames_bind; [apply frames_get|]. intros p.
    destruct (match best_val_loss p with
              | Some best => metric_ltb val_loss best
              | None => true
              end); [|apply frames_ret].
    apply frames_bind; [by apply frames_modify|]. intros _.
    apply frames_bind; [apply frames_get|]. intros p'.
    by apply frames_modify.
Qed.

Lemma frames_validate b : frames (validate b).
Proof.
  unfold validate. apply frames_bind; [apply frames_get|]. intros p.
  destruct (has_parent p); [apply frames_ret|].
  apply frames_bind; [by apply frames_modify|]. intros _.
  apply frames_bind; [apply frames_get|]. intros p'.
  destruct (validate_batches _ _ _ _) as [n v].
  destruct b; [apply frames_save_model_if_best|apply frames_ret].
Qed.

(** The periodic validation at the end of [do_update_sequence]. *)
Lemma frames_periodic_validation : frames periodic_validation.
Proof.
  unfold periodic_validation. apply frames_bind; [apply frames_get|]. intros p.
  apply frames_bind; [apply frames_py_mod|]. intros r.
  destruct (_ && _); [apply frames_validate|apply frames_ret].
Qed.
End Frames.

(** ** A round *)
Section Round.
Context `{Scalar, MPIConsts, Collab, !NumPy}.

(** The waiting children are served from the last to the first, and the
    list ends up empty. *)
Lemma sync_children_from_run child rest p ib ob :
  sync_children_from (child :: rest)
    {| self := p; inbox := ib; outbox := ob |}
  = Ok tt {| self := with_waiting_workers_list [] p; inbox := ib;
             outbox := ob ++ fan_out (time_step p) (weights p)
                               (child :: rest) |}.
Proof.
  revert child p ob. induction rest as [|c' rest IH]; intros child p ob.
  - simpl. rewrite bind_modify. cbn [self inbox outbox].
    rewrite (bind_Ok _ _ _ _ _ (sync_child_run child _ ib ob)).
    unfold fan_out. simpl. by rewrite app_nil_r.
  - change (sync_children_from (child :: c' :: rest))
      with (modify_self (with_waiting_workers_list (reverse (c' :: rest)))
            ≫= λ _, sync_child child
            ≫= λ _, sync_children_from (c' :: rest)).
    rewrite bind_modify. cbn [self inbox outbox].
    rewrite (bind_Ok _ _ _ _ _ (sync_child_run child _ ib ob)).
    rewrite IH. unfold fan_out. simpl. by rewrite <- !app_assoc.
Qed.

Lemma sync_children_run l child p ib ob :
  waiting_workers_list p = l ++ [child] →
  sync_children {| self := p; inbox := ib; outbox := ob |}
  = Ok tt {| self := with_waiting_workers_list [] p; inbox := ib;
             outbox := ob ++ fan_out (time_step p) (weights p)
                               (reverse (l ++ [child])) |}.
Proof.
  intros Hw. unfold sync_children. rewrite bind_get. cbn [self].
  rewrite Hw, reverse_snoc. apply sync_children_from_run.
Qed.

(** A root counts the round; a master below another exchanges with it. *)
Lemma sync_parent_root p ib ob :
  has_parent p = false →
  sync_parent {| self := p; inbox := ib; outbox := ob |}
  = Ok tt {| self := with_time_step (time_step p + 1) p; inbox := ib;
             outbox := ob |}.
Proof.
  intros Hp. unfold sync_parent. rewrite bind_get. cbn [self].
  by rewrite Hp.
Qed.

Lemma sync_parent_below r dec t ds p ib ob :
  has_parent p = true → parent_rank p = Some r → fits (weights p) ds →
  sync_parent
    {| self := p;
       inbox := msg ParentComm r 5 (Pickled dec)
                :: msg ParentComm r 4 (Pickled (PyInt t))
                :: buffer_messages ParentComm r ds ++ ib;
       outbox := ob |}
  = Ok tt
      {| self :=
           with_model
             (set_worker_model_weights (algo p) (model p)
                (filled (weights p) ds))
             (with_weights (filled (weights p) ds) (with_time_step t p));
         inbox := ib;
         outbox :=
           ob ++ [msg ParentComm r 3 (Pickled PyNone);
                  msg ParentComm r 4 (Pickled (PyInt (time_step p)))]
              ++ (if truthy dec
                  then array_messages ParentComm r (update p)
                  else []) |}.
Proof.
  intros Hp Hr Hfit. unfold sync_parent. rewrite bind_get. cbn [self].
  rewrite Hp. by apply do_send_sequence_run.
Qed.

Lemma master_apply_update_run p ib ob :
  master_apply_update {| self := p; inbox := ib; outbox := ob |}
  = Ok tt {| self := with_weights
                       (apply_update (algo p) (weights p) (update p)) p;
             inbox := ib; outbox := ob |}.
Proof. reflexivity. Qed.

(** The three phases of a round, in the order the algorithm asks for. *)
Lemma round_body r dec tp pds l child q ib ob :
  let W0 := if send_before_apply (algo q) then weights q
            else apply_update (algo q) (weights q) (update q) in
  let W1 := if has_parent q then filled W0 pds else W0 in
  let W2 := if send_before_apply (algo q)
            then apply_update (algo q) W1 (update q) else W1 in
  let t1 := if has_parent q then tp else time_step q + 1 in
  waiting_workers_list q = l ++ [child] →
  (has_parent q = true → parent_rank q = Some r ∧ fits W0 pds) →
  ∃ q',
    (if send_before_apply (algo q)
     then sync_parent ≫= λ _, sync_children ≫= λ _, master_apply_update
     else master_apply_update ≫= λ _, sync_parent ≫= λ _, sync_children)
      {| self := q;
         inbox := parent_replies (has_parent q) r dec tp pds ++ ib;
         outbox := ob |}
    = Ok tt
        {| self := q'; inbox := ib;
           outbox := ob ++ parent_requests (has_parent q) r (time_step q)
                             dec (update q)
                        ++ fan_out t1 W1 (reverse (l ++ [child])) |}
    ∧ weights q' = W2 ∧ time_step q' = t1
    ∧ waiting_workers_list q' = [] ∧ update q' = update q
    ∧ weights_shapes q' = weights_shapes q
    ∧ validate_every (algo q') = validate_every (algo q).
Proof.
  intros W0 W1 W2 t1 Hw Hpar. subst W0 W1 W2 t1.
  destruct (send_before_apply (algo q)) eqn:Hsba,
           (has_parent q) eqn:Hhp;
    unfold parent_replies, parent_requests.
  - (* propagate, fan out, apply; below a parent *)
    destruct (Hpar eq_refl) as [Hr Hfit]. eexists. split.
    + rewrite <- !app_comm_cons, <- app_assoc.
      step_with ltac:(by apply sync_parent_below).
      step_with ltac:(apply (sync_children_run l child); exact Hw).
      rewrite master_apply_update_run. cbn [time_step weights with_model
        with_weights with_time_step]. by rewrite <- !app_assoc.
    + done.
  - (* propagate, fan out, apply; at the root *)
    eexists. split.
    + step_with ltac:(by apply sync_parent_root).
      step_with ltac:(apply (sync_children_run l child); exact Hw).
      rewrite master_apply_update_run. reflexivity.
    + done.
  - (* apply, propagate, fan out; below a parent *)
    destruct (Hpar eq_refl) as [Hr Hfit]. eexists. split.
    + rewrite <- !app_comm_cons, <- app_assoc.
      step_with ltac:(apply master_apply_update_run).
      step_with ltac:(by apply sync_parent_below).
      etrans; [apply (sync_children_run l child); exact Hw|].
      cbn [time_step weights with_model with_weights with_time_step
           update]. by rewrite <- !app_assoc.
    + done.
  - (* apply, propagate, fan out; at the root *)
    eexists. split.
    + step_with ltac:(apply master_apply_update_run).
      step_with ltac:(by apply sync_parent_root).
      etrans; [apply (sync_children_run l child); exact Hw|]. reflexivity.
    + done.
Qed.
(** An accepted request that completes a round runs up to the periodic
    validation as follows. *)
Lemma accepted_round_run source t ds r dec tp pds p ib ob :
  let p1 := with_algo (set_staleness (algo p) (time_step p - t)) p in
  let U := received (update p) (is_synchronous p) ds in
  let W0 := if send_before_apply (algo p) then weights p
            else apply_update (algo p) (weights p) U in
  let W1 := if has_parent p then filled W0 pds else W0 in
  let W2 := if send_before_apply (algo p)
            then apply_update (algo p) W1 U else W1 in
  let t1 := if has_parent p then tp else time_step p + 1 in
  accept_update p1 = true →
  fits (landing (update p) (is_synchronous p)) ds →
  num_sync_workers p ≤ Z.of_nat (length (waiting_workers_list p)) + 1 →
  (has_parent p = true → parent_rank p = Some r ∧ fits W0 pds) →
  ∃ q,
    do_update_sequence source
      {| self := p;
         inbox := msg ChildComm source 4 (Pickled (PyInt t))
                  :: buffer_messages ChildComm source ds
                  ++ parent_replies (has_parent p) r dec tp pds ++ ib;
         outbox := ob |}
    = periodic_validation
        {| self := q; inbox := ib;
           outbox := ob ++ [msg ChildComm source 5 (Pickled (PyBool true))]
                        ++ parent_requests (has_parent p) r (time_step p)
                             dec U
                        ++ fan_out t1 W1
                             (reverse (waiting_workers_list p ++ [source]))
        |}
    ∧ weights q = W2 ∧ time_step q = t1
    ∧ waiting_workers_list q = []
    ∧ update q = weights_from_shapes (weights_shapes p)
    ∧ validate_every (algo q) = validate_every (algo p).
Proof.
  intros p1 U W0 W1 W2 t1 Hacc Hfit Hthr Hpar.
  set (q0 := with_waiting_workers_list (waiting_workers_list p ++ [source])
               (with_update U p1)).
  destruct (round_body r dec tp pds (waiting_workers_list p) source q0 ib
              (ob ++ [msg ChildComm source 5 (Pickled (PyBool true))])
              eq_refl Hpar)
    as (q' & Hrun & Hw & Ht & Hwait & Hu & Hsh & Hve).
  exists (with_update (weights_from_shapes (weights_shapes q')) q').
  split; [|simpl; rewrite Hsh; repeat split; assumption].
  unfold do_update_sequence. rewrite bind_get. cbn [self].
  step_with ltac:(by apply (recv_time_step_run (Some ChildComm)
                              (Some source) source)).
  cbn [as_int]. rewrite bind_ret, bind_modify, bind_get.
  cbn [self inbox outbox]. fold p1. rewrite Hacc.
  step_with ltac:(by apply (send_bool_run true (Some ChildComm)
                              (Some source) source)).
  cbv iota. unfold accepted_update_sequence. rewrite bind_get.
  cbn [self].
  step_with ltac:(by apply (recv_update_run (is_synchronous p) ds
                              (Some ChildComm) (Some source) source)).
  rewrite bind_get, bind_modify, bind_get. cbn [self inbox outbox].
  match goal with
  | |- context [decide_whether_to_sync ?x] => change x with q0
  end.
  assert (decide_whether_to_sync q0 = true) as ->.
  { unfold decide_whether_to_sync, q0. simpl. rewrite length_app. simpl.
    apply Z.leb_le. lia. }
  rewrite bind_assoc. step_with ltac:(exact Hrun).
  rewrite bind_assoc, bind_get, bind_modify. cbn [self inbox outbox].
  by rewrite <- !app_assoc.
Qed.

(** An accepted request that leaves the threshold unreached runs up to the
    periodic validation as follows. *)
Lemma accepted_waiting_run source t ds p ib ob :
  let p1 := with_algo (set_staleness (algo p) (time_step p - t)) p in
  let U := received (update p) (is_synchronous p) ds in
  accept_update p1 = true →
  fits (landing (update p) (is_synchronous p)) ds →
  Z.of_nat (length (waiting_workers_list p)) + 1 < num_sync_workers p →
  do_update_sequence source
    {| self := p;
       inbox := msg ChildComm source 4 (Pickled (PyInt t))
                :: buffer_messages ChildComm source ds ++ ib;
       outbox := ob |}
  = periodic_validation
      {| self := with_waiting_workers_list
                   (waiting_workers_list p ++ [source]) (with_update U p1);
         inbox := ib;
         outbox := ob ++ [msg ChildComm source 5 (Pickled (PyBool true))] |}.
Proof.
  intros p1 U Hacc Hfit Hthr.
  set (q0 := with_waiting_workers_list (waiting_workers_list p ++ [source])
               (with_update U p1)).
  unfold do_update_sequence. rewrite bind_get. cbn [self].
  step_with ltac:(by apply (recv_time_step_run (Some ChildComm)
                              (Some source) source)).
  cbn [as_int]. rewrite bind_ret, bind_modify, bind_get.
  cbn [self inbox outbox]. fold p1. rewrite Hacc.
  step_with ltac:(by apply (send_bool_run true (Some ChildComm)
                              (Some source) source)).
  cbv iota. unfold accepted_update_sequence. rewrite bind_get.
  cbn [self].
  step_with ltac:(by apply (recv_update_run (is_synchronous p) ds
                              (Some ChildComm) (Some source) source)).
  rewrite bind_get, bind_modify, bind_get. cbn [self inbox outbox].
  match goal with
  | |- context [decide_whether_to_sync ?x] => change x with q0
  end.
  assert (decide_whether_to_sync q0 = false) as ->.
  { unfold decide_whether_to_sync, q0. simpl. rewrite length_app. simpl.
    apply Z.leb_gt. lia. }
  rewrite bind_ret. reflexivity.
Qed.

(** C2. When an accepted child brings the number of waiting children up to
    the threshold, the master performs one round.  With
    [send_before_apply] it propagates to its parent, sends every waiting
    child the time step and the weights it then has, and applies the
    pending update last; without, it applies the update first, then
    propagates and serves the children.  Either way the list of waiting
    children ends up empty and the pending update is reset to zero arrays
    of [weights_shapes]. *)
Theorem round_completion source t ds r dec tp pds p ib ob :
  let p1 := with_algo (set_staleness (algo p) (time_step p - t)) p in
  let U := received (update p) (is_synchronous p) ds in
  let W0 := if send_before_apply (algo p) then weights p
            else apply_update (algo p) (weights p) U in
  let W1 := if has_parent p then filled W0 pds else W0 in
  let W2 := if send_before_apply (algo p)
            then apply_update (algo p) W1 U else W1 in
  let t1 := if has_parent p then tp else time_step p + 1 in
  let w' :=
    world_of
      (do_update_sequence source
         {| self := p;
            inbox := msg ChildComm source 4 (Pickled (PyInt t))
                     :: buffer_messages ChildComm source ds
                     ++ parent_replies (has_parent p) r dec tp pds ++ ib;
            outbox := ob |}) in
  accept_update p1 = true →
  fits (landing (update p) (is_synchronous p)) ds →
  num_sync_workers p ≤ Z.of_nat (length (waiting_workers_list p)) + 1 →
  (has_parent p = true → parent_rank p = Some r ∧ fits W0 pds) →
  outbox w'
  = ob ++ [msg ChildComm source 5 (Pickled (PyBool true))]
       ++ parent_requests (has_parent p) r (time_step p) dec U
       ++ fan_out t1 W1 (reverse (waiting_workers_list p ++ [source]))
  ∧ inbox w' = ib
  ∧ weights (self w') = W2
  ∧ time_step (self w') = t1
  ∧ waiting_workers_list (self w') = []
  ∧ update (self w') = weights_from_shapes (weights_shapes p).
Proof.
  intros p1 U W0 W1 W2 t1 w' Hacc Hfit Hthr Hpar.
  destruct (accepted_round_run source t ds r dec tp pds p ib ob
              Hacc Hfit Hthr Hpar)
    as (q & Hrun & Hw & Ht & Hwait & Hu & _).
  subst w'. rewrite Hrun.
  destruct (frames_periodic_validation
              {| self := q; inbox := ib;
                 outbox := ob ++ [msg ChildComm source 5
                                    (Pickled (PyBool true))]
                   ++ parent_requests (has_parent p) r (time_step p) dec U
                   ++ fan_out t1 W1
                        (reverse (waiting_workers_list p ++ [source])) |})
    as (Hp & Hi & Ho).
  unfold protocol_state in Hp.
  injection Hp as Hp1 Hp2 Hp3 Hp4 _ _ _ _.
  repeat split;
    [exact Ho | exact Hi | etrans; [exact Hp1|exact Hw]
    | etrans; [exact Hp3|exact Ht] | etrans; [exact Hp4|exact Hwait]
    | etrans; [exact Hp2|exact Hu]].
Qed.

End Round.

(** ** The serving loop *)
Section Dispatch.
Context `{Scalar, MPIConsts, Collab, !NumPy}.
Variable order : list (string * Z).
Hypothesis order_ok : Tags.iteration_order order.

(** No other name has the tag of [begin_update] or of [exit], unless
    [MPI.ANY_SOURCE] happens to be that tag. *)
Lemma inv_tag_begin_update :
  ANY_SOURCE ≠ 3 → inv_tag_lookup order !! 3 = Some "begin_update".
Proof.
  intros Hany.
  destruct (invert_items_is_Some order 3 "begin_update" order_ok)
    as [name Hname]; [unfold Tags.tag_items; set_solver|].
  unfold inv_tag_lookup. rewrite Hname. f_equal.
  apply (invert_items_lookup_Some _ _ _ order_ok) in Hname.
  unfold Tags.tag_items in Hname.
  repeat (apply elem_of_cons in Hname as [Heq|Hname];
          [first [by simplify_eq | congruence]|]).
  by apply elem_of_nil in Hname.
Qed.

Lemma inv_tag_exit :
  ANY_SOURCE ≠ 1 → inv_tag_lookup order !! 1 = Some "exit".
Proof.
  intros Hany.
  destruct (invert_items_is_Some order 1 "exit" order_ok)
    as [name Hname]; [unfold Tags.tag_items; set_solver|].
  unfold inv_tag_lookup. rewrite Hname. f_equal.
  apply (invert_items_lookup_Some _ _ _ order_ok) in Hname.
  unfold Tags.tag_items in Hname.
  repeat (apply elem_of_cons in Hname as [Heq|Hname];
          [first [by simplify_eq | congruence]|]).
  by apply elem_of_nil in Hname.
Qed.

Lemma inv_tag_name t name :
  inv_tag_lookup order !! t = Some name → Tags.lookup_mpi_tag name = Some t.
Proof.
  intros Hl. apply tag_items_name.
  by apply (invert_items_lookup_Some order).
Qed.

(** [recv_any_from_child] takes one message and leaves the process as it
    is. *)
Lemma recv_any_from_child_Ok w status w1 :
  recv_any_from_child w = Ok status w1 →
  self w1 = self w ∧ length (inbox w) = S (length (inbox w1)).
Proof.
  unfold recv_any_from_child, recv. run. rewrite tag_of_any.
  unfold mpi_recv.
  destruct (take_first _ (inbox w)) as [[e rest]|] eqn:Htake; [|done].
  simpl. destruct (env_body e); [|done].
  intros [= <- <-]. simpl. split; [done|].
  by eapply take_first_length.
Qed.

(** A message processed counts at most one worker out and adds nothing to
    the mailbox. *)
Lemma process_message_Ok status w tag w' :
  process_message order status w = Ok tag w' →
  (running_workers (self w') = running_workers (self w)
   ∨ running_workers (self w') = running_workers (self w) - 1)
  ∧ (length (inbox w') ≤ length (inbox w))%nat.
Proof.
  unfold process_message.
  destruct (bool_decide _).
  - pose proof (do_update_sequence_steady (Get_source status) w) as [Hr Hl].
    unfold mbind, M_bind, bind.
    destruct (do_update_sequence _ w) as [[] w1|e w1|w1]; [|done..].
    intros [= <- <-]. simpl in *. auto.
  - destruct (bool_decide _); [|done].
    intros [= <- <-]. simpl. auto.
Qed.

(** The loop stops only with no worker left. *)
Lemma serve_stops_at_zero fuel w w' :
  0 ≤ running_workers (self w) →
  serve order fuel w = Ok true w' → running_workers (self w') = 0.
Proof.
  revert w. induction fuel as [|fuel IH]; intros w Hpos; simpl;
    rewrite bind_get.
  - destruct (0 <? running_workers (self w)) eqn:Hrun; [done|].
    intros [= <-]. lia.
  - destruct (0 <? running_workers (self w)) eqn:Hrun;
      [|intros [= <-]; lia].
    unfold mbind, M_bind, bind.
    destruct (recv_any_from_child w) as [status w1|e w1|w1] eqn:Hrecv;
      [|done..].
    destruct (process_message order status w1) as [tag w2|e w2|w2] eqn:Hproc;
      [|done..].
    apply recv_any_from_child_Ok in Hrecv as [Hself _].
    apply process_message_Ok in Hproc as [Hr _]. rewrite Hself in Hr.
    apply IH. lia.
Qed.

(** With more fuel than messages in the mailbox the loop never stops for
    lack of fuel. *)
Lemma serve_fuel fuel w w' :
  (length (inbox w) < fuel)%nat → serve order fuel w ≠ Ok false w'.
Proof.
  revert w. induction fuel as [|fuel IH]; intros w Hlen; [lia|].
  simpl. rewrite bind_get.
  destruct (0 <? running_workers (self w)); [|done].
  unfold mbind, M_bind, bind.
  destruct (recv_any_from_child w) as [status w1|e w1|w1] eqn:Hrecv;
    [|done..].
  destruct (process_message order status w1) as [tag w2|e w2|w2] eqn:Hproc;
    [|done..].
  apply recv_any_from_child_Ok in Hrecv as [_ Hl1].
  apply process_message_Ok in Hproc as [_ Hl2].
  apply IH. lia.
Qed.

(** C5. [process_message] handles two message types: on [begin_update] it
    runs the update sequence for the source of the message, on [exit] it
    takes one off [running_workers] and one off [num_sync_workers]; any
    other tag raises [ValueError].  The serving loop runs its body while
    [running_workers] is positive and returns once it is not, which from a
    count that is not negative happens exactly at zero; and it returns for
    lack of fuel only when the fuel does not exceed the messages that have
    arrived. *)
Theorem serving_loop_dispatch status w :
  ANY_SOURCE ≠ 3 → ANY_SOURCE ≠ 1 →
  (Get_tag status = 3 →
   process_message order status w
   = (do_update_sequence (Get_source status)
      ≫= λ _, mret (Some "begin_update")) w)
  ∧ (Get_tag status = 1 →
     process_message order status w
     = Ok (Some "exit")
         {| self :=
              with_num_sync_workers (num_sync_workers (self w) - 1)
                (with_running_workers (running_workers (self w) - 1)
                   (self w));
            inbox := inbox w; outbox := outbox w |})
  ∧ (Get_tag status ≠ 3 → Get_tag status ≠ 1 →
     process_message order status w
     = Raised (ValueError (inv_tag_lookup order !! Get_tag status)) w)
  ∧ (∀ fuel, running_workers (self w) ≤ 0 → serve order fuel w = Ok true w)
  ∧ (∀ fuel, 0 < running_workers (self w) →
     serve order (S fuel) w
     = (recv_any_from_child
        ≫= λ status, process_message order status
        ≫= λ _, serve order fuel) w)
  ∧ (∀ fuel w', 0 ≤ running_workers (self w) →
     serve order fuel w = Ok true w' → running_workers (self w') = 0)
  ∧ (∀ fuel w', (length (inbox w) < fuel)%nat →
     serve order fuel w ≠ Ok false w').
Proof.
  intros Hany3 Hany1. repeat split.
  - intros Htag. unfold process_message, Tags.lookup_mpi_tag_inv.
    rewrite Htag, inv_tag_begin_update by done.
    by rewrite bool_decide_eq_true_2.
  - intros Htag. unfold process_message, Tags.lookup_mpi_tag_inv.
    rewrite Htag, inv_tag_exit by done.
    rewrite bool_decide_eq_false_2 by done.
    by rewrite bool_decide_eq_true_2.
  - intros Hne3 Hne1. unfold process_message, Tags.lookup_mpi_tag_inv.
    rewrite bool_decide_eq_false_2.
    + rewrite bool_decide_eq_false_2; [done|].
      intros Hl. apply inv_tag_name in Hl. rewrite tag_of_exit in Hl.
      congruence.
    + intros Hl. apply inv_tag_name in Hl.
      rewrite tag_of_begin_update in Hl. congruence.
  - intros fuel Hrun. destruct fuel; simpl; rewrite bind_get;
      by replace (0 <? running_workers (self w)) with false
        by (symmetry; lia).
  - intros fuel Hrun. simpl. rewrite bind_get.
    by replace (0 <? running_workers (self w)) with true
      by (symmetry; lia).
  - intros fuel w'. apply serve_stops_at_zero.
  - intros fuel w'. apply serve_fuel.
Qed.
End Dispatch.

(** ** The entry point *)
Section EntryFacts.



End EntryFacts.

(** ** Periodic validation *)
Section Validation.
Context `{Scalar, MPIConsts, Collab, !NumPy}.



(** On a master that has a parent [validate] returns at once. *)
Lemma validate_below b w :
  has_parent (self w) = true → validate b w = Ok tt w.
Proof. intros Hp. unfold validate. rewrite bind_get. by rewrite Hp. Qed.

(** The test of the periodic validation. *)
Lemma periodic_validation_run w :
  let t := time_step (self w) in
  let every := validate_every (algo (self w)) in
  periodic_validation w
  = if every =? 0 then Raised ZeroDivisionError w
    else if (t `mod` every =? 0) && (0 <? t) then validate true w
         else Ok tt w.
Proof.
  intros t every. unfold periodic_validation, py_mod.
  rewrite bind_get. fold t every.
  destruct (every =? 0); [done|]. rewrite bind_ret.
  by destruct (_ && _).
Qed.

(** C8. The periodic validation of the update sequence calls [validate]
    only when the time step is positive and an exact multiple of
    [validate_every], and then it does call it; [validate] on a master that
    has a parent returns at once, and leaves the world as it is: no batch
    is evaluated, [best_val_loss] and the saved models are untouched.  So a
    validation that changes either happens on a root. *)
Theorem validation_only_at_root w :
  let t := time_step (self w) in
  let every := validate_every (algo (self w)) in
  (every ≠ 0 → 0 < t → (every | t) →
   periodic_validation w = validate true w)
  ∧ (every ≠ 0 → ¬ (0 < t ∧ (every | t)) → periodic_validation w = Ok tt w)
  ∧ (∀ b, has_parent (self w) = true → validate b w = Ok tt w)
  ∧ (∀ b,
       best_val_loss (self (world_of (validate b w)))
       ≠ best_val_loss (self w)
       ∨ saved_models (model (self (world_of (validate b w))))
         ≠ saved_models (model (self w)) →
       has_parent (self w) = false).
Proof.
  intros t every. repeat split.
  - intros Hne Hpos Hdiv. rewrite periodic_validation_run. fold t every.
    replace (every =? 0) with false by (symmetry; lia).
    apply Z.mod_divide in Hdiv; [|done].
    rewrite Hdiv. simpl.
    by replace (0 <? t) with true by (symmetry; lia).
  - intros Hne Hnot. rewrite periodic_validation_run. fold t every.
    replace (every =? 0) with false by (symmetry; lia).
    destruct (t `mod` every =? 0) eqn:Hmod; [|done].
    destruct (0 <? t) eqn:Hpos; [|done].
    exfalso. apply Hnot. split; [lia|].
    apply Z.mod_divide; [done|lia].
  - intros b. apply validate_below.
  - intros b Hchange. destruct (has_parent (self w)) eqn:Hp; [|done].
    rewrite (validate_below b w Hp) in Hchange. simpl in Hchange.
    by destruct Hchange.
Qed.

End Validation.

(** ** The checkpoint of the best model *)
Section Checkpoint.
Context `{Scalar, MPIConsts, Collab, !NumPy}.

(** One call: the model is saved and the record updated exactly when there
    is no record yet or the primary metric is below the record. *)
Lemma save_model_if_best_run v val_loss w :
  primary_metric v = Some val_loss →
  save_model_if_best v w
  = Ok tt
      (if match best_val_loss (self w) with
          | None => true
          | Some best => metric_ltb val_loss best
          end
       then {| self :=
                 with_model
                   (model_save (model (self w)) "mpi_learn_model.h5")
                   (with_best_val_loss (Some val_loss) (self w));
               inbox := inbox w; outbox := outbox w |}
       else w).
Proof.
  intros Hv. unfold save_model_if_best.
  assert (match v with
          | MetricSeq [] => raise IndexError
          | MetricSeq (m :: _) => mret m
          | MetricScalar m => mret m
          end = (mret val_loss : M metric)) as ->.
  { destruct v as [[|m l]|m]; simpl in Hv; by simplify_eq. }
  rewrite bind_ret, bind_get.
  by destruct (match best_val_loss (self w) with
               | None => true
               | Some best => metric_ltb val_loss best
               end).
Qed.

(** Over any number of calls the record only goes down. *)
Lemma save_each_decreases vs w w' b :
  (∀ x y z, metric_ltb x y = true → metric_ltb y z = true →
            metric_ltb x z = true) →
  save_each vs w = Ok tt w' → best_val_loss (self w) = Some b →
  ∃ b', best_val_loss (self w') = Some b'
        ∧ (b' = b ∨ metric_ltb b' b = true).
Proof.
  intros Htrans. revert w b. induction vs as [|v vs IH]; intros w b.
  - intros [= <-] Hb. eauto.
  - simpl. intros Hrun Hb.
    destruct (primary_metric v) as [val_loss|] eqn:Hv.
    + rewrite (bind_Ok _ _ _ _ _ (save_model_if_best_run v val_loss w Hv))
        in Hrun.
      rewrite Hb in Hrun.
      destruct (metric_ltb val_loss b) eqn:Hlt.
      * destruct (IH _ val_loss Hrun eq_refl) as (b' & Hb' & [->|Hlt']);
          eauto.
      * eauto.
    + destruct v as [[|m l]|m]; by simplify_eq.
Qed.

(** C7. [save_model_if_best] saves the model and updates [best_val_loss]
    if and only if no best value is recorded yet or the primary metric is
    strictly below the recorded best; a repeated validation with the same
    primary metric does not save again; and over any sequence of calls
    [best_val_loss] never increases.  The comparison of the metrics is
    only assumed irreflexive and transitive. *)
Theorem checkpoint_on_strict_improvement :
  (∀ x, metric_ltb x x = false) →
  (∀ x y z, metric_ltb x y = true → metric_ltb y z = true →
            metric_ltb x z = true) →
  (∀ v val_loss w,
     primary_metric v = Some val_loss →
     let improves :=
       match best_val_loss (self w) with
       | None => true
       | Some best => metric_ltb val_loss best
       end in
     ∃ w',
       save_model_if_best v w = Ok tt w'
       ∧ best_val_loss (self w')
         = (if improves then Some val_loss else best_val_loss (self w))
       ∧ saved_models (model (self w'))
         = (if improves
            then saved_models (model (self w))
                 ++ [("mpi_learn_model.h5", model_weights (model (self w)))]
            else saved_models (model (self w))))
  ∧ (∀ v v' val_loss w w1,
       primary_metric v = Some val_loss →
       primary_metric v' = Some val_loss →
       save_model_if_best v w = Ok tt w1 →
       save_model_if_best v' w1 = Ok tt w1)
  ∧ (∀ vs w w' b,
       save_each vs w = Ok tt w' → best_val_loss (self w) = Some b →
       ∃ b', best_val_loss (self w') = Some b'
             ∧ (b' = b ∨ metric_ltb b' b = true)
             ∧ metric_ltb b b' = false).
Proof.
  intros Hirr Htrans. repeat split.
  - intros v val_loss w Hv improves. eexists. split.
    + by apply save_model_if_best_run.
    + fold improves. by destruct improves.
  - intros v v' val_loss w w1 Hv Hv' Hrun.
    rewrite (save_model_if_best_run v val_loss w Hv) in Hrun.
    rewrite (save_model_if_best_run v' val_loss w1 Hv').
    injection Hrun as <-.
    destruct (best_val_loss (self w)) as [best|] eqn:Hbest.
    + destruct (metric_ltb val_loss best) eqn:Hlt.
      * simpl. by rewrite Hirr.
      * by rewrite Hbest, Hlt.
    + simpl. by rewrite Hirr.
  - intros vs w w' b Hrun Hb.
    destruct (save_each_decreases vs w w' b Htrans Hrun Hb)
      as (b' & Hb' & Hle).
    exists b'. split; [done|]. split; [done|].
    destruct Hle as [->|Hlt]; [apply Hirr|].
    destruct (metric_ltb b b') eqn:Hgt; [|done].
    pose proof (Htrans _ _ _ Hgt Hlt) as Hbb. by rewrite Hirr in Hbb.
Qed.
End Checkpoint.

(** ** Time steps in a tree of processes *)
Module SystemFacts.
Import System.

Lemma ascending_app_r k l : ascending (k ++ l) → ascending l.
Proof. induction k as [|x k IH]; simpl; [done|]. intros [_ Hl]. auto. Qed.

Lemma ascending_snoc l x :
  ascending l → Forall (λ y, y ≤ x) l → ascending (l ++ [x]).
Proof.
  induction l as [|y l IH]; simpl.
  - by repeat constructor.
  - intros [Hy Hl] Hx. inversion_clear Hx as [|? ? Hyx Hx']. split.
    + apply Forall_app. split; [done|]. by repeat constructor.
    + by apply IH.
Qed.

Lemma times_app l k : times (l ++ k) = times l ++ times k.
Proof. apply omap_app. Qed.

Lemma take_tag_tag tag l m rest :
  take_tag tag l = Some (m, rest) → tag_of m = tag.
Proof.
  revert m rest. induction l as [|x l IH]; intros m rest; [done|].
  simpl. destruct (tag_of x =? tag) eqn:Hx.
  - intros [= <- <-]. lia.
  - destruct (take_tag tag l) as [[m' r']|]; [|done].
    intros [= <- <-]. by eapply IH.
Qed.

Lemma times_cons x l : times (x :: l) = times [x] ++ times l.
Proof. by destruct x. Qed.

(** A receive takes the oldest message of its tag: of the time steps in the
    channel it removes the first, or none. *)
Lemma take_tag_times tag l m rest :
  take_tag tag l = Some (m, rest) → times l = times [m] ++ times rest.
Proof.
  revert m rest. induction l as [|x l IH]; intros m rest; [done|].
  cbn [take_tag]. destruct (tag_of x =? tag) eqn:Hx.
  - intros [= <- <-]. apply times_cons.
  - destruct (take_tag tag l) as [[m' r']|] eqn:Htake; [|done].
    intros [= <- <-].
    rewrite (times_cons x l), (times_cons x r'), (IH m' r' eq_refl).
    apply take_tag_tag in Htake. apply Z.eqb_neq in Hx.
    destruct x, m'; simpl in *; try done; lia.
Qed.

Section TimesOk.
Variable T : Tree.

Lemma insert_apply {V} (f : nat * nat → V) k v k' :
  (<[k := v]> f) k' = if decide (k = k') then v else f k'.
Proof. reflexivity. Qed.

Lemma insert_apply_nat {V} (f : nat → V) k v k' :
  (<[k := v]> f) k' = if decide (k = k') then v else f k'.
Proof. reflexivity. Qed.

(** A process sends its own time step, or no time step at all. *)
Lemma times_ok_send tm ch n d msgs :
  times msgs = [] ∨ times msgs = [tm n] →
  times_ok T tm ch →
  times_ok T tm (<[(n, d) := ch (n, d) ++ msgs]> ch).
Proof.
  intros Hmsgs Hok c p Hpar.
  destruct (Hok c p Hpar) as (Hle & Hasc & Hdown & Hup).
  split; [done|]. rewrite !insert_apply.
  assert (Forall (λ t, t ≤ tm p) (times (ch (p, c)))) as Hdown'.
  { eapply Forall_impl; [|exact Hdown]; simpl; intros; lia. }
  repeat split.
  - case_decide as Heq; [|done]. injection Heq as -> ->.
    rewrite times_app. destruct Hmsgs as [->| ->].
    + by rewrite app_nil_r.
    + by apply ascending_snoc.
  - case_decide as Heq; [|done]. injection Heq as -> ->.
    rewrite times_app. apply Forall_app. split; [done|].
    destruct Hmsgs as [->| ->]; [done|].
    repeat constructor; lia.
  - case_decide as Heq; [|done]. injection Heq as -> ->.
    rewrite times_app. apply Forall_app. split; [done|].
    destruct Hmsgs as [->| ->]; [done|].
    by repeat constructor.
Qed.

(** Taking messages out of a channel does no harm. *)
Lemma times_ok_take tm ch k pre rest :
  times (ch k) = pre ++ times rest →
  times_ok T tm ch → times_ok T tm (<[k := rest]> ch).
Proof.
  intros Htimes Hok c p Hpar.
  destruct (Hok c p Hpar) as (Hle & Hasc & Hdown & Hup).
  split; [done|]. rewrite !insert_apply.
  repeat split; case_decide as Heq; try done; subst k;
    rewrite Htimes in *.
  - by eapply ascending_app_r.
  - by apply Forall_app in Hdown as [_ ?].
  - by apply Forall_app in Hup as [_ ?].
Qed.

(** A process takes the oldest time step its parent sent and makes it its
    own. *)
Lemma times_ok_recv_time tm ch n p t rest :
  well_formed T → parent T n = Some p →
  times (ch (p, n)) = t :: times rest →
  times_ok T tm ch →
  times_ok T (<[n := t]> tm) (<[(p, n) := rest]> ch).
Proof.
  intros Hwf Hparn Htimes Hok.
  destruct (Hok n p Hparn) as (Hle & Hasc & Hdown & Hup).
  rewrite Htimes in Hasc, Hdown. destruct Hasc as [Hhead Hasc].
  inversion_clear Hdown as [|? ? Ht Hdown'].
  pose proof (Hwf n p Hparn) as Hlt.
  intros c q Hpar. rewrite !insert_apply, !insert_apply_nat.
  destruct (decide (n = c)) as [<-|Hnc].
  - (* the edge above the process *)
    assert (q = p) as -> by congruence.
    rewrite (decide_False (P := n = p)) by lia.
    rewrite (decide_True (P := (p, n) = (p, n))) by done.
    rewrite (decide_False (P := (p, n) = (n, p))) by (intros [= ? ?]; lia).
    repeat split; [lia|done| |done].
    apply Forall_forall. intros x Hx.
    rewrite Forall_forall in Hhead, Hdown'.
    specialize (Hhead x Hx). specialize (Hdown' x Hx). lia.
  - destruct (Hok c q Hpar) as (Hle' & Hasc' & Hdown'' & Hup').
    pose proof (Hwf c q Hpar) as Hlt'.
    rewrite (decide_False (P := (p, n) = (q, c)))
      by (intros [= ? ?]; congruence).
    destruct (decide (n = q)) as [<-|Hnq].
    + (* an edge below the process *)
      rewrite (decide_False (P := (p, n) = (c, n)))
        by (intros [= ?]; subst c; pose proof (Hwf _ _ Hpar); lia).
      repeat split; [lia|done| |].
      * eapply Forall_impl; [|exact Hdown'']; simpl; intros; lia.
      * eapply Forall_impl; [|exact Hup']; simpl; intros; lia.
    + (* an edge elsewhere *)
      rewrite (decide_False (P := (p, n) = (c, q)))
        by (intros [= ? ?]; congruence).
      done.
Qed.

(** A root counts a round. *)
Lemma times_ok_tick tm ch n :
  parent T n = None →
  times_ok T tm ch → times_ok T (<[n := tm n + 1]> tm) ch.
Proof.
  intros Hroot Hok c q Hpar.
  destruct (Hok c q Hpar) as (Hle & Hasc & Hdown & Hup).
  rewrite !insert_apply_nat.
  rewrite (decide_False (P := n = c)) by congruence.
  destruct (decide (n = q)) as [<-|Hnq]; [|done].
  repeat split; [lia|done| |].
  - eapply Forall_impl; [|exact Hdown]; simpl; intros; lia.
  - eapply Forall_impl; [|exact Hup]; simpl; intros; lia.
Qed.

(** Only the time steps and the channels matter. *)
Lemma times_ok_ext tm tm' ch ch' :
  (∀ n, tm' n = tm n) → (∀ k, ch' k = ch k) →
  times_ok T tm ch → times_ok T tm' ch'.
Proof.
  intros Htm Hch Hok c p Hpar. rewrite !Htm, !Hch.
  destruct (Hok c p Hpar) as (Hle & Hasc & Hdown & Hup).
  repeat split; done.
Qed.
End TimesOk.

Section Preservation.
Variable T : Tree.
Hypothesis tree : well_formed T.

Lemma clock_update_node n f cfg m :
  clock (update_node n f cfg) m
  = (<[n := time_step (f (nodes cfg n))]> (clock cfg)) m.
Proof.
  unfold clock, update_node. simpl. rewrite !insert_apply_nat.
  by case_decide.
Qed.

(** An assignment to attributes other than the time step. *)
Lemma invariant_update_node n f cfg :
  time_step (f (nodes cfg n)) = time_step (nodes cfg n) →
  (0 ≤ staleness (nodes cfg n) → 0 ≤ staleness (f (nodes cfg n))) →
  invariant T cfg → invariant T (update_node n f cfg).
Proof.
  intros Htime Hstale [Hok Hs]. split.
  - eapply times_ok_ext; [| |exact Hok]; [|done].
    intros m. rewrite clock_update_node, insert_apply_nat.
    case_decide; [by subst|done].
  - intros m. unfold update_node. simpl. rewrite insert_apply_nat.
    case_decide; [subst; auto|auto].
Qed.

Lemma invariant_push n d msgs cfg :
  times msgs = [] ∨ times msgs = [clock cfg n] →
  invariant T cfg → invariant T (push n d msgs cfg).
Proof.
  intros Hmsgs [Hok Hs]. split; [|done].
  by apply times_ok_send.
Qed.

Lemma invariant_push_parent n msgs cfg :
  times msgs = [] ∨ times msgs = [clock cfg n] →
  invariant T cfg → invariant T (push_parent T n msgs cfg).
Proof.
  intros Hmsgs Hinv. unfold push_parent.
  destruct (parent T n); [by apply invariant_push|done].
Qed.

Lemma invariant_set_chan s d pre rest cfg :
  times (chan cfg (s, d)) = pre ++ times rest →
  invariant T cfg → invariant T (set_chan s d rest cfg).
Proof.
  intros Htimes [Hok Hs]. split; [|done].
  by eapply times_ok_take.
Qed.

Lemma invariant_take tag s d m rest cfg :
  take_tag tag (chan cfg (s, d)) = Some (m, rest) →
  invariant T cfg → invariant T (set_chan s d rest cfg).
Proof.
  intros Htake. eapply invariant_set_chan. by eapply take_tag_times.
Qed.

Lemma invariant_take_head s d m rest cfg :
  chan cfg (s, d) = m :: rest →
  invariant T cfg → invariant T (set_chan s d rest cfg).
Proof.
  intros Hhead. eapply invariant_set_chan. rewrite Hhead.
  apply times_cons.
Qed.

(** [self.time_step = self.recv_time_step()], from the parent. *)
Lemma invariant_recv_time n p t rest f cfg :
  parent T n = Some p →
  take_tag 4 (chan cfg (p, n)) = Some (Time t, rest) →
  time_step (f (nodes cfg n)) = t →
  (0 ≤ staleness (nodes cfg n) → 0 ≤ staleness (f (nodes cfg n))) →
  invariant T cfg →
  invariant T (update_node n f (set_chan p n rest cfg)).
Proof.
  intros Hpar Htake Htime Hstale [Hok Hs]. split.
  - eapply times_ok_ext;
      [| |exact (times_ok_recv_time T _ _ n p t rest tree Hpar
                   (take_tag_times _ _ _ _ Htake) Hok)]; [|done].
    intros m. rewrite clock_update_node. simpl. by rewrite Htime.
  - intros m. unfold update_node. simpl. rewrite insert_apply_nat.
    case_decide; [subst; auto|auto].
Qed.

(** [self.time_step += 1], at a root. *)
Lemma invariant_tick n f cfg :
  parent T n = None →
  time_step (f (nodes cfg n)) = time_step (nodes cfg n) + 1 →
  (0 ≤ staleness (nodes cfg n) → 0 ≤ staleness (f (nodes cfg n))) →
  invariant T cfg → invariant T (update_node n f cfg).
Proof.
  intros Hroot Htime Hstale [Hok Hs]. split.
  - eapply times_ok_ext;
      [| |exact (times_ok_tick T _ _ n Hroot Hok)]; [|done].
    intros m. rewrite clock_update_node. by rewrite Htime.
  - intros m. unfold update_node. simpl. rewrite insert_apply_nat.
    case_decide; [subst; auto|auto].
Qed.

Lemma invariant_sync_child n child cfg :
  invariant T cfg → invariant T (sync_child n child cfg).
Proof. intros Hinv. apply invariant_push; [by right|done]. Qed.

Lemma invariant_serve_all n stack cfg :
  invariant T cfg →
  invariant T (foldl (λ cfg child, sync_child n child cfg) cfg stack).
Proof.
  revert cfg. induction stack as [|child stack IH]; intros cfg Hinv;
    [done|].
  simpl. apply IH. by apply invariant_sync_child.
Qed.

Lemma invariant_sync_children n cfg :
  invariant T cfg → invariant T (sync_children n cfg).
Proof.
  intros Hinv. unfold sync_children.
  apply invariant_update_node; [done|done|].
  by apply invariant_serve_all.
Qed.

Lemma invariant_signal_children n cfg :
  invariant T cfg → invariant T (signal_children T n cfg).
Proof.
  unfold signal_children. generalize (children T n). intros l.
  revert cfg. induction l as [|child l IH]; intros cfg Hinv; [done|].
  simpl. apply IH. apply invariant_push; [by left|done].
Qed.

Lemma invariant_validation_check n cfg :
  invariant T cfg → invariant T (validation_check T n cfg).
Proof. intros Hinv. by apply invariant_update_node. Qed.

Lemma invariant_finish_round n cfg :
  invariant T cfg → invariant T (finish_round T n cfg).
Proof.
  intros Hinv. apply invariant_validation_check.
  by apply invariant_sync_children.
Qed.

Lemma invariant_continue n k cfg :
  invariant T cfg → invariant T (continue T n k cfg).
Proof.
  intros Hinv. destruct k; simpl.
  - by apply invariant_update_node.
  - by apply invariant_finish_round.
Qed.

(** The staleness a master computes is not negative. *)
Lemma step_staleness cfg m s cfg' :
  invariant T cfg → step T cfg (Staleness m s) cfg' → 0 ≤ s.
Proof.
  intros [Hok _] Hstep. inversion Hstep as
    [| | | | | | | | | | |n c t ? rest Hpc Hpar Htake|]; subst.
  destruct (Hok c m Hpar) as (_ & _ & _ & Hup).
  rewrite (take_tag_times _ _ _ _ Htake) in Hup.
  inversion_clear Hup as [|? ? Ht _]. unfold clock in Ht. lia.
Qed.

(** Every step keeps the invariant. *)
Lemma step_invariant cfg l cfg' :
  invariant T cfg → step T cfg l cfg' → invariant T cfg'.
Proof.
  intros Hinv Hstep. pose proof Hinv as [Hok Hs].
  destruct Hstep.
  - apply invariant_update_node; [done|done|]. by eapply invariant_take.
  - apply invariant_update_node; [done|done|].
    apply invariant_push_parent; [by right|done].
  - apply invariant_update_node; [done|done|].
    apply invariant_push_parent; [by left|done].
  - apply invariant_update_node; [done|done|].
    apply invariant_push; [destruct b; by left|]. by eapply invariant_take.
  - by eapply invariant_recv_time.
  - apply invariant_continue. by eapply invariant_take.
  - apply invariant_update_node; [done|done|].
    by apply invariant_signal_children.
  - apply invariant_update_node; [done|done|].
    apply invariant_push_parent; [by left|done].
  - apply invariant_update_node; [done|done|].
    by eapply invariant_take_head.
  - apply invariant_update_node; [done|done|].
    by eapply invariant_take_head.
  - apply invariant_update_node; [done|done|].
    by eapply invariant_take_head.
  - (* the staleness is computed *)
    assert (0 ≤ time_step (nodes cfg n) - t) as Hstale.
    { eapply (step_staleness cfg n); [done|].
      by eapply (master_child_time T n c t cfg rest). }
    assert (invariant T cfg2) as Hinv2.
    { apply invariant_push; [by left|].
      apply invariant_update_node; [done|done|]. by eapply invariant_take. }
    destruct (accept_update s).
    + by apply invariant_update_node.
    + apply invariant_update_node; [done|done|].
      by apply invariant_sync_child.
  - (* the update has arrived *)
    assert (invariant T cfg1) as Hinv1.
    { apply invariant_update_node; [done|done|]. by eapply invariant_take. }
    destruct (decide_whether_to_sync (nodes cfg1 n)).
    + destruct (parent T n) as [p|] eqn:Hroot.
      * apply invariant_update_node; [done|done|].
        apply invariant_push; [by right|done].
      * apply invariant_finish_round. by apply invariant_tick.
    + by apply invariant_validation_check.
Qed.

Lemma initial_invariant : invariant T (initial T).
Proof.
  split; [|done]. intros c p Hpar. simpl. repeat split; done.
Qed.

Lemma reachable_invariant cfg : reachable T cfg → invariant T cfg.
Proof.
  induction 1 as [|cfg l cfg' _ IH Hstep].
  - apply initial_invariant.
  - by eapply step_invariant.
Qed.

(** C6. In every reachable state of a tree of processes, where each worker
    declares the time step it last received from its master, the staleness
    a master computes on an update request, its own time step less the one
    the child declares, is not negative; the staleness it holds is never
    negative, and no child is ahead of its parent. *)
Theorem staleness_never_negative cfg :
  reachable T cfg →
  (∀ m s cfg', step T cfg (Staleness m s) cfg' → 0 ≤ s)
  ∧ (∀ n, 0 ≤ staleness (nodes cfg n))
  ∧ (∀ c p, parent T c = Some p →
       time_step (nodes cfg c) ≤ time_step (nodes cfg p)).
Proof.
  intros Hreach. pose proof (reachable_invariant cfg Hreach) as Hinv.
  repeat split.
  - intros m s cfg'. by apply step_staleness.
  - apply Hinv.
  - intros c p Hpar. destruct Hinv as [Hok _].
    by destruct (Hok c p Hpar) as (Hle & _).
Qed.
End Preservation.

End SystemFacts.

(** ** Block numbers (OptimizeCNN.py) *)
Section Blocks.

(** The block of a rank other than the coordinator's. *)
Lemma get_block_num_spec rank block_size k :
  1 ≤ rank → 0 < block_size →
  get_block_num rank block_size = Some k
  ↔ k * block_size + 1 ≤ rank ≤ (k + 1) * block_size.
Proof.
  intros Hrank Hbs. unfold get_block_num.
  rewrite (proj2 (Z.eqb_neq rank 0)) by lia.
  rewrite (proj2 (Z.eqb_neq block_size 0)) by lia.
  split.
  - intros [= <-].
    pose proof (Z.mul_div_le (rank - 1) block_size Hbs).
    pose proof (Z.mul_succ_div_gt (rank - 1) block_size Hbs).
    nia.
  - intros [Hlo Hhi]. f_equal. symmetry.
    apply (Z.div_unique_pos _ _ k (rank - 1 - k * block_size)); lia.
Qed.

(** X1. The ranks from 1 on fall into consecutive blocks of [block_size]
    ranks: for a positive block size, a rank of at least 1 has a block
    number, which is not negative, and it is in block [k] exactly when it
    lies between [k * block_size + 1] and [(k + 1) * block_size]. *)
Theorem block_of_rank rank block_size :
  1 ≤ rank → 0 < block_size →
  ∃ k, get_block_num rank block_size = Some k
       ∧ 0 ≤ k
       ∧ ∀ k', get_block_num rank block_size = Some k'
               ↔ k' * block_size + 1 ≤ rank ≤ (k' + 1) * block_size.
Proof.
  intros Hrank Hbs.
  destruct (get_block_num rank block_size) as [k|] eqn:Hk.
  - exists k. split; [done|].
    pose proof (proj1 (get_block_num_spec rank block_size k Hrank Hbs) Hk).
    split; [nia|]. intros k'. rewrite <- Hk.
    by apply get_block_num_spec.
  - unfold get_block_num in Hk.
    rewrite (proj2 (Z.eqb_neq rank 0)) in Hk by lia.
    rewrite (proj2 (Z.eqb_neq block_size 0)) in Hk by lia. done.
Qed.

(** X2. Block 999 is not the coordinator's alone: for a positive block
    size, a rank of at least 1 gets the block number of rank 0 exactly when
    it lies between [999 * block_size + 1] and [1000 * block_size]. *)
Theorem coordinator_block_shared rank block_size :
  1 ≤ rank → 0 < block_size →
  get_block_num rank block_size = get_block_num 0 block_size
  ↔ 999 * block_size + 1 ≤ rank ≤ 1000 * block_size.
Proof.
  intros Hrank Hbs.
  change (get_block_num 0 block_size) with (Some 999).
  rewrite get_block_num_spec by done. lia.
Qed.

(** X3. The branch of the main block that runs the coordinator is never
    taken: for a rank that is not negative and a positive block size the
    block number is not -1, so every process, rank 0 included, builds and
    runs a training block. *)
Theorem coordinator_branch_dead size rank block_size :
  0 ≤ rank → 0 < block_size →
  entry_branch size rank block_size = Some RunBlock.
Proof.
  intros Hrank Hbs. unfold entry_branch, entry_num_blocks.
  rewrite (proj2 (Z.eqb_neq block_size 0)) by lia. simpl.
  destruct (decide (rank = 0)) as [->|Hne]; [done|].
  destruct (get_block_num rank block_size) as [k|] eqn:Hk.
  - apply get_block_num_spec in Hk; [|lia..]. simpl.
    destruct (k =? -1) eqn:Hm; [|done]. apply Z.eqb_eq in Hm. nia.
  - unfold get_block_num in Hk.
    rewrite (proj2 (Z.eqb_neq rank 0)) in Hk by lia.
    rewrite (proj2 (Z.eqb_neq block_size 0)) in Hk by lia. done.
Qed.
End Blocks.

(** ** Looking tags up *)
Section Lookups.
Context `{MPIConsts}.

(** The table holds its items and nothing else. *)
Lemma lookup_mpi_tag_elem name t :
  Tags.lookup_mpi_tag name = Some t ↔ (name, t) ∈ Tags.tag_items.
Proof.
  split.
  - apply dict_of_items_lookup_Some.
  - apply tag_items_name.
Qed.

(** X4. [lookup_mpi_tag] finds a tag for a name exactly when the pair is
    an item of the table, and returns [None] exactly for the names that
    are not among the twelve of the table. *)
Theorem lookup_mpi_tag_table name :
  (∀ t, Tags.lookup_mpi_tag name = Some t ↔ (name, t) ∈ Tags.tag_items)
  ∧ (Tags.lookup_mpi_tag name = None
     ↔ name ∉ ["any"; "train"; "exit"; "begin_weights"; "begin_update";
               "time"; "bool"; "model_arch"; "algo"; "weights_shapes";
               "weights"; "update"]).
Proof.
  split; [intros t; apply lookup_mpi_tag_elem|].
  split.
  - intros Hnone Hin.
    repeat (apply elem_of_cons in Hin as [->|Hin]; [discriminate Hnone|]).
    by apply elem_of_nil in Hin.
  - intros Hnot. destruct (Tags.lookup_mpi_tag name) as [t|] eqn:Hl; [|done].
    apply lookup_mpi_tag_elem in Hl. exfalso. apply Hnot.
    unfold Tags.tag_items in Hl.
    repeat (apply elem_of_cons in Hl as [[= -> _]|Hl]; [set_solver|]).
    by apply elem_of_nil in Hl.
Qed.

(** X5. Whatever the order in which the inverse table was built, looking
    a tag of the table up in it gives a name of that tag, and a tag that is
    not in the table gives [None]; and where [MPI.ANY_SOURCE] is negative,
    the inverse lookup of the tag of a name gives that name back for every
    name but [weights] and [update]. *)
Theorem inverse_lookup_round_trip (order : list (string * Z)) :
  Tags.iteration_order order →
  (∀ name t, Tags.lookup_mpi_tag name = Some t →
     ∃ name', Tags.lookup_mpi_tag_inv (Tags.invert_items order) t
              = Some name'
              ∧ Tags.lookup_mpi_tag name' = Some t)
  ∧ (∀ t, (∀ name, Tags.lookup_mpi_tag name ≠ Some t) →
       Tags.lookup_mpi_tag_inv (Tags.invert_items order) t = None)
  ∧ (ANY_SOURCE < 0 →
     ∀ name t, Tags.lookup_mpi_tag name = Some t →
       name ≠ "weights" → name ≠ "update" →
       Tags.lookup_mpi_tag_inv (Tags.invert_items order) t = Some name).
Proof.
  intros Hperm. unfold Tags.lookup_mpi_tag_inv. repeat split.
  - intros name t Hl. apply lookup_mpi_tag_elem in Hl.
    destruct (invert_items_is_Some order t name Hperm Hl) as [name' Hinv].
    exists name'. split; [done|].
    apply tag_items_name. by apply (invert_items_lookup_Some order).
  - intros t Hnone.
    destruct (Tags.invert_items order !! t) as [name|] eqn:Hinv; [|done].
    apply (invert_items_lookup_Some _ _ _ Hperm) in Hinv.
    apply tag_items_name in Hinv. by destruct (Hnone name).
  - intros Hneg name t Hl Hw Hu. apply lookup_mpi_tag_elem in Hl.
    destruct (invert_items_is_Some order t name Hperm Hl) as [name' Hinv].
    rewrite Hinv. f_equal.
    apply (invert_items_lookup_Some _ _ _ Hperm) in Hinv.
    unfold Tags.tag_items in Hl, Hinv.
    repeat (apply elem_of_cons in Hl as [Hl|Hl];
            [injection Hl as -> ->;
             repeat (apply elem_of_cons in Hinv as [Hinv|Hinv];
                     [first [by simplify_eq | injection Hinv; intros; lia]|]);
             by apply elem_of_nil in Hinv|]).
    by apply elem_of_nil in Hl.
Qed.
End Lookups.

(** ** A process and its parent *)
Section Orphans.
Context `{Scalar, MPIConsts, Collab, !NumPy}.

(** X6. On a process without a parent, whatever addresses the parent by
    default raises [Error] naming the message type before anything is sent
    or taken from the mailbox: the update sequence towards the parent on
    [begin_update], the synchronisation on [time], the wait for the start
    signal and with it the worker's [train] on [train].  Only
    [send_exit_to_parent] checks for itself, and returns without
    sending. *)
Theorem no_parent_no_exchange p ib ob :
  parent_rank p = None →
  let w := {| self := p; inbox := ib; outbox := ob |} in
  do_send_sequence w = Raised (UtilsError "begin_update") w
  ∧ sync_with_master w = Raised (UtilsError "time") w
  ∧ await_signal_from_parent w = Raised (UtilsError "train") w
  ∧ worker_train w = Raised (UtilsError "train") w
  ∧ send_exit_to_parent w = Ok tt w.
Proof.
  intros Hp w. subst w.
  unfold do_send_sequence, send_update, send_arrays, sync_with_master,
    recv_time_step, worker_train, await_signal_from_parent,
    send_exit_to_parent, send, recv.
  run. rewrite Hp. simpl. done.
Qed.
End Orphans.

(** ** Receiving past other messages *)
Section Skipping.
Context `{Scalar, MPIConsts, Collab, !NumPy}.

Lemma take_first_skip f pre e l :
  Forall (λ x, f x = false) pre → f e = true →
  take_first f (pre ++ e :: l) = Some (e, pre ++ l).
Proof.
  intros Hpre He. induction Hpre as [|x pre Hx _ IH]; simpl.
  - by rewrite He.
  - by rewrite Hx, IH.
Qed.

Lemma take_first_None f l :
  Forall (λ x, f x = false) l → take_first f l = None.
Proof.
  induction 1 as [|x l Hx _ IH]; simpl; [done|]. by rewrite Hx, IH.
Qed.

(** A receive of a pickled object past messages that do not match. *)
Lemma recv_object_past tag t source comm s o p pre ib ob :
  Tags.lookup_mpi_tag tag = Some t → address p source = Some s →
  silent (default ParentComm comm) s t pre →
  recv None tag source false comm
    {| self := p;
       inbox := pre ++ msg (default ParentComm comm) s t (Pickled o) :: ib;
       outbox := ob |}
  = Ok (RecvObj o, {| Get_source := s; Get_tag := t |})
       {| self := p; inbox := pre ++ ib; outbox := ob |}.
Proof.
  intros Ht Hs Hpre.
  destruct source as [s'|]; simpl in Hs; [injection Hs as ->|];
    unfold recv; run; rewrite ?Hs; simpl;
    rewrite Ht; unfold mpi_recv; cbn [inbox].
  all: rewrite (take_first_skip _ _ _ _ Hpre) by apply matches_msg;
    reflexivity.
Qed.

(** A receive that finds no message for it blocks. *)
Lemma recv_blocks obj tag t source comm s buffer p ib ob :
  Tags.lookup_mpi_tag tag = Some t → address p source = Some s →
  silent (default ParentComm comm) s t ib →
  recv obj tag source buffer comm {| self := p; inbox := ib; outbox := ob |}
  = Blocked {| self := p; inbox := ib; outbox := ob |}.
Proof.
  intros Ht Hs Hpre.
  destruct source as [s'|]; simpl in Hs; [injection Hs as ->|];
    unfold recv; run; rewrite ?Hs; simpl;
    rewrite Ht; unfold mpi_recv; cbn [inbox].
  all: by rewrite (take_first_None _ _ Hpre).
Qed.

(** A receive into the array [w] past messages that do not match. *)
Lemma recv_buffer_past tag t source comm s d w p pre ib ob :
  Tags.lookup_mpi_tag tag = Some t → address p source = Some s →
  silent (default ParentComm comm) s t pre →
  (length d ≤ length (data w))%nat →
  recv (Some w) tag source true comm
    {| self := p;
       inbox := pre ++ msg (default ParentComm comm) s t (Buffer d) :: ib;
       outbox := ob |}
  = Ok (RecvBuf {| shape := shape w;
                   data := d ++ drop (length d) (data w) |},
        {| Get_source := s; Get_tag := t |})
       {| self := p; inbox := pre ++ ib; outbox := ob |}.
Proof.
  intros Ht Hs Hpre Hlen.
  destruct source as [s'|]; simpl in Hs; [injection Hs as ->|];
    unfold recv; run; rewrite ?Hs; simpl;
    rewrite Ht; unfold mpi_recv; cbn [inbox].
  all: rewrite (take_first_skip _ _ _ _ Hpre) by apply matches_msg; simpl.
  all: unfold fill_buffer; rewrite decide_True by done; reflexivity.
Qed.

Lemma recv_each_past ws ds tag comm source s p pre ib ob :
  Tags.lookup_mpi_tag tag = Some 13 → address p source = Some s →
  silent (default ParentComm comm) s 13 pre →
  fits ws ds →
  recv_each ws tag comm source
    {| self := p;
       inbox := pre ++ buffer_messages (default ParentComm comm) s ds ++ ib;
       outbox := ob |}
  = Ok (filled ws ds) {| self := p; inbox := pre ++ ib; outbox := ob |}.
Proof.
  intros Ht Hs Hpre Hfit. induction Hfit as [|w d ws ds Hlen Hfit IH]; simpl.
  - reflexivity.
  - rewrite (bind_Ok _ _ _ _ _
               (recv_buffer_past _ _ _ _ _ _ _ _ _ _ _ Ht Hs Hpre Hlen)).
    simpl. rewrite (bind_Ok _ _ _ _ _ IH). reflexivity.
Qed.

(** Buffers of the sizes of the arrays fill them completely. *)
Lemma same_sizes_fits ws vs : same_sizes ws vs → fits ws (map data vs).
Proof.
  induction 1 as [|w v ws vs Hlen _ IH]; simpl; constructor; [lia|done].
Qed.

Lemma filled_same_sizes ws vs :
  same_sizes ws vs →
  map data (filled ws (map data vs)) = map data vs
  ∧ map shape (filled ws (map data vs)) = map shape ws.
Proof.
  induction 1 as [|w v ws vs Hlen _ [IHd IHs]]; [done|].
  unfold filled in *. simpl. rewrite IHd, IHs. split; [|done].
  f_equal. rewrite <- Hlen, drop_all. apply app_nil_r.
Qed.

Lemma as_received_arrays r child ws :
  as_received r (array_messages ChildComm child ws)
  = buffer_messages ParentComm r (map data ws).
Proof.
  unfold as_received, array_messages, buffer_messages.
  rewrite !map_map. reflexivity.
Qed.

Lemma as_received_reply r child dec t ws :
  as_received r (msg ChildComm child 5 (Pickled dec)
                 :: child_service child t ws)
  = msg ParentComm r 5 (Pickled dec)
    :: msg ParentComm r 4 (Pickled (PyInt t))
    :: msg ParentComm r 2 (Pickled PyNone)
    :: buffer_messages ParentComm r (map data ws).
Proof.
  unfold child_service. rewrite <- (as_received_arrays r child).
  reflexivity.
Qed.

(** The exchange of [do_send_sequence] with a parent that answers with a
    decision and then serves the child, past the messages [pre]. *)
Lemma do_send_sequence_served r child dec t ws p pre ib ob :
  parent_rank p = Some r →
  same_sizes (weights p) ws →
  silent ParentComm r 5 pre → silent ParentComm r 4 pre →
  silent ParentComm r 13 pre → ANY_TAG ≠ 13 →
  let W := filled (weights p) (map data ws) in
  do_send_sequence
    {| self := p;
       inbox := pre
                ++ as_received r
                     (msg ChildComm child 5 (Pickled dec)
                      :: child_service child t ws)
                ++ ib;
       outbox := ob |}
  = Ok tt
      {| self :=
           with_model (set_worker_model_weights (algo p) (model p) W)
             (with_weights W (with_time_step t p));
         inbox := pre ++ msg ParentComm r 2 (Pickled PyNone) :: ib;
         outbox :=
           ob ++ [msg ParentComm r 3 (Pickled PyNone);
                  msg ParentComm r 4 (Pickled (PyInt (time_step p)))]
              ++ (if truthy dec
                  then array_messages ParentComm r (update p)
                  else []) |}.
Proof.
  intros Hr Hsz H5 H4 H13 Hany W.
  rewrite as_received_reply. cbn [app].
  unfold do_send_sequence, send_update.
  rewrite bind_assoc, bind_get. cbn [self].
  (* the request, up to the decision *)
  unfold send_arrays.
  rewrite bind_assoc.
  step_with ltac:(by apply (send_run _ "begin_update" 3 None None r);
                    [apply tag_of_begin_update|]).
  rewrite bind_assoc.
  step_with ltac:(by apply (send_time_step_run None None r)).
  rewrite !bind_assoc.
  unfold recv_bool at 1. rewrite bind_assoc.
  step_with ltac:(by apply (recv_object_past "bool" 5 None None r dec p pre);
                    [apply tag_of_bool| |]).
  cbn [fst]. rewrite bind_ret.
  assert (∀ ob',
    sync_with_master
      {| self := p;
         inbox := pre ++ msg ParentComm r 4 (Pickled (PyInt t))
                  :: msg ParentComm r 2 (Pickled PyNone)
                  :: buffer_messages ParentComm r (map data ws) ++ ib;
         outbox := ob' |}
    = Ok tt
        {| self :=
             with_model (set_worker_model_weights (algo p) (model p) W)
               (with_weights W (with_time_step t p));
           inbox := pre ++ msg ParentComm r 2 (Pickled PyNone) :: ib;
           outbox := ob' |}) as Hsync.
  { intros ob'. unfold sync_with_master, recv_time_step.
    rewrite bind_assoc.
    step_with ltac:(by apply (recv_object_past "time" 4 None None r
                                (PyInt t) p pre);
                      [apply tag_of_time| |]).
    cbn [fst]. rewrite bind_ret. cbn [as_int]. rewrite bind_ret, bind_modify.
    cbn [self inbox outbox].
    unfold recv_weights. rewrite bind_assoc, bind_get. cbn [self].
    unfold recv_arrays. rewrite bind_assoc.
    change (pre ++ msg ParentComm r 2 (Pickled PyNone)
              :: buffer_messages ParentComm r (map data ws) ++ ib)
      with (pre ++ [msg ParentComm r 2 (Pickled PyNone)]
              ++ buffer_messages ParentComm r (map data ws) ++ ib).
    rewrite (app_assoc pre).
    step_with ltac:(
      apply (recv_each_past (weights p) (map data ws) "weights" None None r
               (with_time_step t p)
               (pre ++ [msg ParentComm r 2 (Pickled PyNone)]) ib ob');
        [apply tag_of_weights|exact Hr| |by apply same_sizes_fits]).
    - rewrite bind_modify, bind_get. cbn [self inbox outbox].
      by rewrite <- app_assoc.
    - apply Forall_app. split; [exact H13|].
      constructor; [|constructor].
      unfold matches, msg. cbn [env_comm env_peer env_tag].
      rewrite (proj2 (Z.eqb_neq 13 ANY_TAG)) by congruence.
      apply andb_false_r. }
  destruct (truthy dec); cbn [negb]; cbv iota.
  - 
    step_with ltac:(by apply (send_each_run (update p) "update" None None r);
                      [apply tag_of_update|]).
    rewrite Hsync. by rewrite <- !app_assoc.
  - rewrite bind_ret, Hsync. by rewrite <- !app_assoc.
Qed.
(** X7. No array leaves before the decision: a process whose parent has
    not answered yet blocks in [do_send_sequence] having sent the
    announcement [begin_update] and its time step, and nothing else. *)
Theorem request_awaits_decision r p ib ob :
  parent_rank p = Some r → silent ParentComm r 5 ib →
  do_send_sequence {| self := p; inbox := ib; outbox := ob |}
  = Blocked
      {| self := p; inbox := ib;
         outbox := ob ++ [msg ParentComm r 3 (Pickled PyNone);
                          msg ParentComm r 4
                            (Pickled (PyInt (time_step p)))] |}.
Proof.
  intros Hr Hquiet. unfold do_send_sequence, send_update.
  rewrite bind_assoc, bind_get. cbn [self].
  unfold send_arrays. rewrite bind_assoc.
  step_with ltac:(by apply (send_run _ "begin_update" 3 None None r);
                    [apply tag_of_begin_update|]).
  rewrite bind_assoc.
  step_with ltac:(by apply (send_time_step_run None None r)).
  rewrite !bind_assoc. unfold recv_bool at 1. rewrite bind_assoc.
  erewrite bind_Blocked;
    [|by apply (recv_blocks None "bool" 5 None None r false);
        [apply tag_of_bool| |]].
  by rewrite <- app_assoc.
Qed.

(** X8. A master that has sent the child [child] its decision and then
    serves it with [sync_child], and that child in [do_send_sequence]: the
    child completes the exchange, whatever the decision, with the master's
    time step and with the elements of the master's weights in arrays of
    its own shapes, and hands them to its model.  The announcement
    [begin_weights] that the master sends ahead of the arrays is never
    received: it stays in the child's mailbox. *)
Theorem served_by_parent r child dec pm ibm p pre ib ob :
  parent_rank p = Some r →
  same_sizes (weights p) (weights pm) →
  silent ParentComm r 5 pre → silent ParentComm r 4 pre →
  silent ParentComm r 13 pre → ANY_TAG ≠ 13 →
  ∃ wm p',
    sync_child child
      {| self := pm; inbox := ibm;
         outbox := [msg ChildComm child 5 (Pickled dec)] |} = Ok tt wm
    ∧ do_send_sequence
        {| self := p; inbox := pre ++ as_received r (outbox wm) ++ ib;
           outbox := ob |}
      = Ok tt
          {| self := p';
             inbox := pre ++ msg ParentComm r 2 (Pickled PyNone) :: ib;
             outbox :=
               ob ++ [msg ParentComm r 3 (Pickled PyNone);
                      msg ParentComm r 4 (Pickled (PyInt (time_step p)))]
                  ++ (if truthy dec
                      then array_messages ParentComm r (update p)
                      else []) |}
    ∧ time_step p' = time_step pm
    ∧ map data (weights p') = map data (weights pm)
    ∧ map shape (weights p') = map shape (weights p)
    ∧ model p'
      = set_worker_model_weights (algo p) (model p) (weights p').
Proof.
  intros Hr Hsz H5 H4 H13 Hany. eexists _, _.
  split; [apply sync_child_run|]. cbn [outbox app].
  split; [by apply (do_send_sequence_served r child)|].
  destruct (filled_same_sizes _ _ Hsz) as [Hd Hs]. by repeat split.
Qed.
End Skipping.

(** ** What a transfer of arrays keeps *)
Section Transfers.
Context `{Scalar, MPIConsts, Collab, !NumPy}.

(** A receive into an array takes one message and keeps the shape and the
    size of the array. *)
Lemma recv_buffer_Ok a tag source comm w r st w' :
  recv (Some a) tag source true comm w = Ok (r, st) w' →
  ∃ a', r = RecvBuf a' ∧ shape a' = shape a
        ∧ length (data a') = length (data a)
        ∧ self w' = self w ∧ outbox w' = outbox w
        ∧ length (inbox w) = S (length (inbox w')).
Proof.
  unfold recv. run.
  destruct source as [s|]; [|destruct (parent_rank (self w)); [|done]];
    simpl; (destruct (Tags.lookup_mpi_tag tag); [|done]); simpl;
    unfold mpi_recv;
    (destruct (take_first _ (inbox w)) as [[e rest]|] eqn:Htake; [|done]);
    simpl; (destruct (env_body e) as [o|d]; [done|]);
    unfold fill_buffer; case_decide as Hlen; try done;
    intros [= <- <- <-]; eexists; (split; [done|]); simpl;
    (repeat split; [|by eapply take_first_length]);
    rewrite length_app, length_drop; lia.
Qed.

Lemma recv_each_Ok obj tag comm source w res w' :
  recv_each obj tag comm source w = Ok res w' →
  map shape res = map shape obj ∧ sizes res = sizes obj
  ∧ self w' = self w ∧ outbox w' = outbox w
  ∧ length (inbox w) = (length (inbox w') + length obj)%nat.
Proof.
  revert w res w'. induction obj as [|a obj IH]; intros w res w'; simpl.
  - by intros [= <- <-].
  - unfold mbind, M_bind, bind.
    destruct (recv (Some a) tag source true comm w) as [[r st] w1|e w1|w1]
      eqn:Hrecv; [|done..].
    apply recv_buffer_Ok in Hrecv
      as (a' & -> & Hs & Hl & Hself & Hout & Hin).
    simpl.
    destruct (recv_each obj tag comm source w1) as [rest w2|e w2|w2]
      eqn:Hrest; [|done..].
    apply IH in Hrest as (Hs' & Hl' & Hself' & Hout' & Hin').
    intros [= <- <-]. unfold sizes in *. simpl.
    repeat split; [congruence|congruence|congruence|congruence|lia].
Qed.

Lemma sizes_length ws vs : sizes ws = sizes vs → length ws = length vs.
Proof.
  unfold sizes. intros Hs.
  rewrite <- (length_map (λ a, length (data a)) ws), Hs.
  apply length_map.
Qed.

Lemma zip_with_iadd_shape (obj tmp : list ndarray) :
  length tmp = length obj → map shape (zip_with iadd obj tmp) = map shape obj.
Proof.
  revert tmp. induction obj as [|a obj IH]; intros [|b tmp] Hlen;
    simpl in *; try done. f_equal. apply IH. lia.
Qed.

Lemma zip_with_iadd_sizes (obj tmp : list ndarray) :
  sizes tmp = map (λ a, shape_size (shape a)) obj →
  Forall well_shaped obj → sizes (zip_with iadd obj tmp) = sizes obj.
Proof.
  unfold sizes. revert tmp.
  induction obj as [|a obj IH]; intros [|b tmp] Hs Hwf;
    simpl in *; try done.
  inversion_clear Hwf as [|? ? Ha Hobj]. injection Hs as Hb Hs.
  f_equal; [|by apply IH].
  rewrite length_zip_with. unfold well_shaped in Ha. lia.
Qed.

(** X9. A transfer received by [recv_arrays], whatever is in the mailbox:
    when it returns it has taken exactly one message per array, sent
    nothing and left the process alone, and the arrays it hands back have
    the shapes of the destination arrays; they have their sizes too, when
    it overwrites, and when it adds to well-formed arrays. *)
Theorem recv_arrays_keeps_shapes obj tag comm source add w res w' :
  recv_arrays obj tag comm source add w = Ok res w' →
  map shape res = map shape obj
  ∧ (add = false ∨ Forall well_shaped obj → sizes res = sizes obj)
  ∧ self w' = self w ∧ outbox w' = outbox w
  ∧ length (inbox w) = (length (inbox w') + length obj)%nat.
Proof.
  unfold recv_arrays. destruct add.
  - unfold mbind, M_bind, bind.
    destruct (recv_each _ tag comm source w) as [tmp w1|e w1|w1] eqn:Hrecv;
      [|done..].
    intros [= <- <-].
    apply recv_each_Ok in Hrecv as (Hs & Hl & Hself & Hout & Hin).
    unfold weights_from_shapes in *.
    rewrite length_map, length_map in Hin.
    repeat split; try done.
    + apply zip_with_iadd_shape.
      apply sizes_length in Hl. by rewrite Hl, !length_map.
    + intros [?|Hwf]; [done|]. apply zip_with_iadd_sizes; [|done].
      rewrite Hl. unfold sizes. rewrite !map_map. apply map_ext.
      intros a. simpl. apply length_replicate.
  - intros Hrecv.
    apply recv_each_Ok in Hrecv as (Hs & Hl & Hself & Hout & Hin).
    repeat split; done.
Qed.
End Transfers.

(** ** Setting a process up *)
Section SetupFacts.
Context `{Scalar, Collab}.
Variable model_from_json : string → Model.

(** X10. [check_sanity] returns exactly when the model, the architecture,
    the algorithm, the shapes and the weights are all set; the update
    buffer is not asked for.  When it raises, the error names one of the
    five.  A process fresh from the constructor fails on [model]. *)
Theorem check_sanity_passes (a : Setup.Attributes) :
  (Setup.check_sanity a = None
   ↔ is_Some (Setup.model a) ∧ is_Some (Setup.model_arch a)
     ∧ is_Some (Setup.algo a) ∧ is_Some (Setup.weights_shapes a)
     ∧ is_Some (Setup.weights a))
  ∧ (∀ e, Setup.check_sanity a = Some e →
       ∃ par, e = Setup.Error par
              ∧ par ∈ ["model"; "model_arch"; "algo"; "weights_shapes";
                       "weights"])
  ∧ Setup.check_sanity Setup.fresh = Some (Setup.Error "model").
Proof.
  assert (∀ A, ¬ is_Some (@None A)) as Hnone by (intros A [x Hx]; done).
  destruct a as [[m|] [arch|] [g|] [shapes|] [ws|] u];
    unfold Setup.check_sanity; simpl.
  all: split;
    [split; [try done; intros _; by repeat split
            |try done; intros (?&?&?&?&?); exfalso; by eapply Hnone]
    |split; [|done]].
  all: try done.
  all: intros e [= <-]; eexists; split; [done|set_solver].
Qed.

(** Broadcasting into zero arrays of the shapes of well-formed arrays
    gives these arrays. *)
Lemma bcast_weights_zeros (ws : list ndarray) :
  Forall well_shaped ws →
  Setup.bcast_weights ws
    (weights_from_shapes (Setup.shapes_from_weights ws)) = Some ws.
Proof.
  induction 1 as [|w ws Hw _ IH]; [done|].
  unfold weights_from_shapes, Setup.shapes_from_weights in *. simpl.
  rewrite IH. unfold Setup.Bcast. simpl.
  rewrite decide_True by (by rewrite length_replicate).
  by destruct w.
Qed.

(** X11. [set_model_info] sets the architecture first: called with
    weights on a process that has no model and is given no architecture,
    it raises [AttributeError] having stored the weights and their shapes
    but not the update buffer; called with an architecture, an algorithm
    and well-formed weights it returns whatever the process was, and the
    process is then set up: [check_sanity] passes, the model holds the
    weights, and the update buffer is made of zero arrays of their
    shapes. *)
Theorem set_model_info_order arch g ws (a : Setup.Attributes) :
  (Setup.model a = None →
   ∃ a', Setup.set_model_info model_from_json None g (Some ws) a
         = (a', Some Setup.AttributeError)
         ∧ Setup.weights a' = Some ws
         ∧ Setup.weights_shapes a' = Some (map shape ws)
         ∧ Setup.update a' = Setup.update a
         ∧ Setup.check_sanity a' = Some (Setup.Error "model"))
  ∧ (Forall well_shaped ws →
     ∀ g', ∃ a',
       Setup.set_model_info model_from_json (Some arch) (Some g')
         (Some ws) a = (a', None)
       ∧ Setup.configured a'
       ∧ Setup.model a'
         = Some (set_model_weights (model_from_json arch) ws)
       ∧ Setup.model_arch a' = Some arch
       ∧ Setup.algo a' = Some g'
       ∧ Setup.weights a' = Some ws
       ∧ Setup.update a' = Some (map np_zeros (map shape ws))).
Proof.
  split.
  - intros Hm. unfold Setup.set_model_info.
    destruct g as [g'|]; simpl; rewrite Hm; eexists; (split; [done|]);
      repeat split.
  - intros Hwf g'. eexists. split; [reflexivity|]. simpl.
    repeat split. exists ws. by repeat split.
Qed.

(** The construction of a process below a configured root. *)
Lemma MPIProcess_init_configured r (root : Setup.Attributes) :
  Setup.configured root →
  ∃ a arch ws,
    Setup.MPIProcess_init model_from_json (Some r) root = (a, None)
    ∧ Setup.configured a
    ∧ Setup.weights root = Some ws
    ∧ Setup.model_arch root = Some arch
    ∧ Setup.weights a = Some ws
    ∧ Setup.model_arch a = Some arch
    ∧ Setup.algo a = Setup.algo root
    ∧ Setup.weights_shapes a = Setup.weights_shapes root
    ∧ Setup.model a = Some (set_model_weights (model_from_json arch) ws)
    ∧ Setup.update a = Some (map np_zeros (map shape ws)).
Proof.
  intros [Hsane (ws & Hws & Hshapes & Hwf)].
  destruct root as [[m|] [arch|] [g|] [shapes|] [ws'|] u];
    try discriminate Hsane.
  simpl in Hws, Hshapes. injection Hws as ->. injection Hshapes as ->.
  exists {| Setup.model := Some (set_model_weights (model_from_json arch) ws);
            Setup.model_arch := Some arch; Setup.algo := Some g;
            Setup.weights_shapes := Some (Setup.shapes_from_weights ws);
            Setup.weights := Some ws;
            Setup.update :=
              Some (weights_from_shapes (Setup.shapes_from_weights ws)) |},
    arch, ws.
  split.
  - unfold Setup.MPIProcess_init, Setup.bcast_model_info. simpl.
    rewrite (bcast_weights_zeros ws Hwf). reflexivity.
  - repeat split. exists ws. by repeat split.
Qed.

(** X12. Below a configured root the constructors leave nothing to set
    by hand.  A worker, or a master with a child communicator, that is
    given a parent rank comes out of the broadcast and of
    [set_model_info] with the architecture, the algorithm, the shapes and
    the very weights of the root of its parent communicator, with a model
    holding these weights and a zero update buffer, and it is configured
    in turn, so that the [check_sanity] of its [train] passes and it can
    be the root of the broadcast to its own children. *)
Theorem configuration_propagates r (root : Setup.Attributes) :
  Setup.configured root →
  ∃ a arch ws,
    Setup.MPIWorker_init model_from_json (Some r) root = (a, None)
    ∧ Setup.MPIMaster_init model_from_json (Some r) true root = (a, None)
    ∧ Setup.configured a
    ∧ Setup.check_sanity a = None
    ∧ Setup.weights root = Some ws
    ∧ Setup.weights a = Some ws
    ∧ Setup.model_arch root = Some arch
    ∧ Setup.model_arch a = Some arch
    ∧ Setup.algo a = Setup.algo root
    ∧ Setup.weights_shapes a = Setup.weights_shapes root
    ∧ Setup.model a = Some (set_model_weights (model_from_json arch) ws)
    ∧ Setup.update a = Some (map np_zeros (map shape ws)).
Proof.
  intros Hroot.
  destruct (MPIProcess_init_configured r root Hroot)
    as (a & arch & ws & Hinit & Hconf & Hrw & Hra & Hw & Harch & Hg & Hs
        & Hm & Hu).
  exists a, arch, ws. unfold Setup.MPIWorker_init, Setup.MPIMaster_init.
  split; [exact Hinit|]. split; [exact Hinit|]. split; [exact Hconf|].
  split; [apply Hconf|]. by repeat split.
Qed.
End SetupFacts.

(** ** What the methods keep, assignment by assignment *)
Section Keeps.
Context `{Scalar, MPIConsts, Collab, !NumPy}.
Variable R : relation World.
Context `{!PreOrder R}.
Hypothesis R_send : ∀ e w,
  R w {| self := self w; inbox := inbox w; outbox := outbox w ++ [e] |}.
Hypothesis R_recv : ∀ f e rest w,
  take_first f (inbox w) = Some (e, rest) →
  R w {| self := self w; inbox := rest; outbox := outbox w |}.
Hypothesis R_assigns : ∀ f w,
  assigns f →
  R w {| self := f (self w); inbox := inbox w; outbox := outbox w |}.

Lemma keeps_ret {A} (a : A) : respects R (mret a).
Proof. intros w. reflexivity. Qed.

Lemma keeps_raise {A} e : respects R (@raise _ _ A e).
Proof. intros w. reflexivity. Qed.

Lemma keeps_get : respects R get_self.
Proof. intros w. reflexivity. Qed.

Lemma keeps_modify f : assigns f → respects R (modify_self f).
Proof. intros Hf w. by apply R_assigns. Qed.

Lemma keeps_mpi_send e : respects R (mpi_send e).
Proof. intros w. apply R_send. Qed.

Lemma keeps_mpi_recv c s t : respects R (mpi_recv c s t).
Proof.
  intros w. unfold mpi_recv.
  destruct (take_first _ _) as [[e rest]|] eqn:Htake; simpl.
  - by eapply R_recv.
  - reflexivity.
Qed.

Lemma keeps_bind {A B} (m : M A) (k : A → M B) :
  respects R m → (∀ a, respects R (k a)) → respects R (m ≫= k).
Proof.
  intros Hm Hk w. specialize (Hm w).
  unfold mbind, M_bind, bind. destruct (m w) as [a w'|e w'|w']; simpl in *.
  - etrans; [exact Hm|]. apply Hk.
  - exact Hm.
  - exact Hm.
Qed.

Create HintDb keeps.
Hint Resolve keeps_ret keeps_raise keeps_get keeps_mpi_send
  keeps_mpi_recv : keeps.

Ltac keeps_step :=
  first
    [ solve [eauto with keeps]
    | apply keeps_modify; constructor
    | progress cbv beta iota zeta
    | apply keeps_bind; [|intros ?]
    | match goal with
      | |- respects _ (match ?x with _ => _ end) => destruct x
      | |- respects _ (if ?b then _ else _) => destruct b
      end ].

Ltac solve_keeps := repeat keeps_step.

Lemma keeps_send obj tag dest comm : respects R (send obj tag dest comm).
Proof. unfold send. solve_keeps. Qed.

Lemma keeps_recv obj tag source buffer comm :
  respects R (recv obj tag source buffer comm).
Proof. unfold recv. solve_keeps. Qed.
Hint Resolve keeps_send keeps_recv : keeps.

Lemma keeps_send_exit_to_parent : respects R send_exit_to_parent.
Proof. unfold send_exit_to_parent. solve_keeps. Qed.

Lemma keeps_send_time_step comm dest : respects R (send_time_step comm dest).
Proof. unfold send_time_step. solve_keeps. Qed.

Lemma keeps_send_bool b comm dest : respects R (send_bool b comm dest).
Proof. unfold send_bool. solve_keeps. Qed.

Lemma keeps_recv_time_step comm source :
  respects R (recv_time_step comm source).
Proof. unfold recv_time_step. solve_keeps. Qed.

Lemma keeps_recv_bool comm source : respects R (recv_bool comm source).
Proof. unfold recv_bool. solve_keeps. Qed.
Hint Resolve keeps_send_exit_to_parent keeps_send_time_step
  keeps_send_bool keeps_recv_time_step keeps_recv_bool : keeps.

Lemma keeps_send_each obj tag comm dest :
  respects R (send_each obj tag comm dest).
Proof. induction obj; simpl; solve_keeps. Qed.
Hint Resolve keeps_send_each : keeps.

Lemma keeps_send_arrays obj expect_tag tag comm dest check :
  respects R (send_arrays obj expect_tag tag comm dest check).
Proof. unfold send_arrays. solve_keeps. Qed.
Hint Resolve keeps_send_arrays : keeps.

Lemma keeps_send_weights comm dest check :
  respects R (send_weights comm dest check).
Proof. unfold send_weights. solve_keeps. Qed.

Lemma keeps_send_update comm dest check :
  respects R (send_update comm dest check).
Proof. unfold send_update. solve_keeps. Qed.

Lemma keeps_recv_each obj tag comm source :
  respects R (recv_each obj tag comm source).
Proof. induction obj; simpl; solve_keeps. Qed.
Hint Resolve keeps_send_weights keeps_send_update keeps_recv_each : keeps.

Lemma keeps_recv_arrays obj tag comm source add :
  respects R (recv_arrays obj tag comm source add).
Proof. unfold recv_arrays. solve_keeps. Qed.
Hint Resolve keeps_recv_arrays : keeps.

Lemma keeps_recv_weights comm source add :
  respects R (recv_weights comm source add).
Proof. unfold recv_weights. solve_keeps. Qed.

Lemma keeps_recv_update comm source add :
  respects R (recv_update comm source add).
Proof. unfold recv_update. solve_keeps. Qed.
Hint Resolve keeps_recv_weights keeps_recv_update : keeps.

Lemma keeps_sync_with_master : respects R sync_with_master.
Proof. unfold sync_with_master. solve_keeps. Qed.
Hint Resolve keeps_sync_with_master : keeps.

Lemma keeps_do_send_sequence : respects R do_send_sequence.
Proof. unfold do_send_sequence. solve_keeps. Qed.
Hint Resolve keeps_do_send_sequence : keeps.

Lemma keeps_train_on_batch batch : respects R (train_on_batch batch).
Proof. unfold train_on_batch. solve_keeps. Qed.

Lemma keeps_worker_compute_update : respects R worker_compute_update.
Proof. unfold worker_compute_update. solve_keeps. Qed.
Hint Resolve keeps_train_on_batch keeps_worker_compute_update : keeps.

Lemma keeps_worker_batch batch : respects R (worker_batch batch).
Proof. unfold worker_batch. solve_keeps. Qed.
Hint Resolve keeps_worker_batch : keeps.

Lemma keeps_worker_batches batches : respects R (worker_batches batches).
Proof. induction batches; simpl; solve_keeps. Qed.
Hint Resolve keeps_worker_batches : keeps.

Lemma keeps_worker_epochs n : respects R (worker_epochs n).
Proof. induction n; simpl; solve_keeps. Qed.
Hint Resolve keeps_worker_epochs : keeps.

Lemma keeps_await_signal_from_parent : respects R await_signal_from_parent.
Proof. unfold await_signal_from_parent. solve_keeps. Qed.
Hint Resolve keeps_await_signal_from_parent : keeps.

Lemma keeps_worker_train : respects R worker_train.
Proof. unfold worker_train. solve_keeps. Qed.

Lemma keeps_sync_child child : respects R (sync_child child).
Proof. unfold sync_child. solve_keeps. Qed.
Hint Resolve keeps_sync_child : keeps.

Lemma keeps_sync_children_from stack : respects R (sync_children_from stack).
Proof. induction stack; simpl; solve_keeps. Qed.
Hint Resolve keeps_sync_children_from : keeps.

Lemma keeps_sync_children : respects R sync_children.
Proof. unfold sync_children. solve_keeps. Qed.

Lemma keeps_sync_parent : respects R sync_parent.
Proof. unfold sync_parent. solve_keeps. Qed.

Lemma keeps_master_apply_update : respects R master_apply_update.
Proof. unfold master_apply_update. solve_keeps. Qed.

Lemma keeps_save_model_if_best v : respects R (save_model_if_best v).
Proof. unfold save_model_if_best. solve_keeps. Qed.
Hint Resolve keeps_sync_children keeps_sync_parent
  keeps_master_apply_update keeps_save_model_if_best : keeps.

Lemma keeps_validate b : respects R (validate b).
Proof. unfold validate. solve_keeps. Qed.

Lemma keeps_py_mod a b : respects R (py_mod a b).
Proof. unfold py_mod. solve_keeps. Qed.
Hint Resolve keeps_validate keeps_py_mod : keeps.

Lemma keeps_periodic_validation : respects R periodic_validation.
Proof. unfold periodic_validation. solve_keeps. Qed.
Hint Resolve keeps_periodic_validation : keeps.

Lemma keeps_accepted_update_sequence source :
  respects R (accepted_update_sequence source).
Proof. unfold accepted_update_sequence. solve_keeps. Qed.
Hint Resolve keeps_accepted_update_sequence : keeps.

Lemma keeps_do_update_sequence source :
  respects R (do_update_sequence source).
Proof. unfold do_update_sequence. solve_keeps. Qed.
Hint Resolve keeps_do_update_sequence : keeps.

Lemma keeps_recv_any_from_child : respects R recv_any_from_child.
Proof. unfold recv_any_from_child. solve_keeps. Qed.
Hint Resolve keeps_recv_any_from_child : keeps.

Lemma keeps_signal_each children : respects R (signal_each children).
Proof. induction children; simpl; solve_keeps. Qed.
Hint Resolve keeps_signal_each : keeps.

Lemma keeps_signal_children : respects R signal_children.
Proof. unfold signal_children. solve_keeps. Qed.

(** The serving loop, given that the departure of a worker keeps [R]. *)
Variable order : list (string * Z).
Hypothesis R_exit : ∀ w,
  R w {| self := with_num_sync_workers (num_sync_workers (self w) - 1)
                   (with_running_workers (running_workers (self w) - 1)
                      (self w));
         inbox := inbox w; outbox := outbox w |}.

Lemma keeps_process_message status :
  respects R (process_message order status).
Proof.
  unfold process_message.
  destruct (bool_decide _); [solve_keeps|].
  destruct (bool_decide _); [|solve_keeps].
  intros w. apply R_exit.
Qed.
Hint Resolve keeps_process_message : keeps.

Lemma keeps_serve fuel : respects R (serve order fuel).
Proof. induction fuel; simpl; solve_keeps. Qed.
End Keeps.

(** ** The start signal and the end of training *)
Section Lifetime.
Context `{Scalar, MPIConsts, Collab, !NumPy}.
Variable order : list (string * Z).
Hypothesis order_ok : Tags.iteration_order order.

Lemma signal_each_run children p ib ob :
  signal_each children {| self := p; inbox := ib; outbox := ob |}
  = Ok tt {| self := p; inbox := ib;
             outbox := ob ++ map train_signal children |}.
Proof.
  revert ob. induction children as [|child rest IH]; intros ob; simpl.
  - by rewrite app_nil_r.
  - step_with ltac:(by apply (send_run _ "train" 0 (Some child)
                                (Some ChildComm) child);
                      [apply tag_of_train|]).
    rewrite IH. by rewrite <- app_assoc.
Qed.

Lemma signal_children_run p ib ob :
  signal_children {| self := p; inbox := ib; outbox := ob |}
  = Ok tt {| self := p; inbox := ib;
             outbox := ob ++ map train_signal (seqZ 1 (num_workers p)) |}.
Proof.
  unfold signal_children. rewrite bind_get. apply signal_each_run.
Qed.

Lemma filter_train_signal child (l : list Z) :
  NoDup l →
  filter (λ e, env_peer e = child) (map train_signal l)
  = if decide (child ∈ l) then [train_signal child] else [].
Proof.
  induction 1 as [|x l Hx Hl IH].
  - by destruct (decide (child ∈ [])) as [?%elem_of_nil|].
  - cbn [map]. rewrite filter_cons. cbn [train_signal msg env_peer].
    rewrite IH.
    destruct (decide (x = child)) as [->|Hne];
      destruct (decide (child ∈ l)) as [Hin|Hin];
      destruct (decide (child ∈ _ :: l)) as [Hin'|Hin'];
      try done.
    + exfalso. apply Hin'. by left.
    + exfalso. apply Hin'. by right.
    + exfalso. apply elem_of_cons in Hin' as [?|?]; congruence.
Qed.

(** X13. [signal_children] sends the start signal to the ranks 1 to
    [num_workers] of the child communicator, in ascending order, and does
    nothing else: every such rank is sent exactly one [train] message, no
    other rank is sent anything, and a master without workers sends
    nothing. *)
Theorem every_child_signalled p ib ob :
  let signals := map train_signal (seqZ 1 (num_workers p)) in
  signal_children {| self := p; inbox := ib; outbox := ob |}
  = Ok tt {| self := p; inbox := ib; outbox := ob ++ signals |}
  ∧ (∀ child, 1 ≤ child ≤ num_workers p →
       filter (λ e, env_peer e = child) signals = [train_signal child])
  ∧ (∀ child, ¬ (1 ≤ child ≤ num_workers p) →
       filter (λ e, env_peer e = child) signals = [])
  ∧ (num_workers p ≤ 0 → signals = []).
Proof.
  intros signals. split; [apply signal_children_run|]. subst signals.
  repeat split.
  - intros child Hc. rewrite filter_train_signal by apply NoDup_seqZ.
    rewrite decide_True; [done|]. apply elem_of_seqZ. lia.
  - intros child Hc. rewrite filter_train_signal by apply NoDup_seqZ.
    rewrite decide_False; [done|]. rewrite elem_of_seqZ. lia.
  - intros Hn. unfold seqZ. by replace (Z.to_nat (num_workers p)) with O by lia.
Qed.

(** Where [MPI.ANY_SOURCE] is [MPI.ANY_TAG], [recv_any_from_child] takes
    the first message on the child communicator. *)
Lemma recv_any_from_child_run s t o p ib ob :
  ANY_SOURCE = ANY_TAG →
  recv_any_from_child
    {| self := p; inbox := msg ChildComm s t (Pickled o) :: ib;
       outbox := ob |}
  = Ok {| Get_source := s; Get_tag := t |}
       {| self := p; inbox := ib; outbox := ob |}.
Proof.
  intros Hany. unfold recv_any_from_child, recv. run.
  rewrite tag_of_any. unfold mpi_recv. cbn [inbox].
  rewrite take_first_head; [done|].
  unfold matches, msg. cbn [env_comm env_peer env_tag default].
  rewrite bool_decide_eq_true_2 by done.
  by rewrite Hany, !Z.eqb_refl.
Qed.

(** The serving loop on the exit messages of all the running workers. *)
Lemma serve_exits sources fuel p ib ob :
  ANY_SOURCE = ANY_TAG → ANY_SOURCE ≠ 1 →
  running_workers p = Z.of_nat (length sources) →
  (length sources ≤ fuel)%nat →
  serve order fuel
    {| self := p; inbox := exit_messages sources ++ ib; outbox := ob |}
  = Ok true
      {| self := with_num_sync_workers
                   (num_sync_workers p - Z.of_nat (length sources))
                   (with_running_workers 0 p);
         inbox := ib; outbox := ob |}.
Proof.
  intros Hany Hany1. revert fuel p.
  induction sources as [|s sources IH]; intros fuel p Hrun Hfuel.
  - simpl in Hrun. cbn [length exit_messages map app].
    assert (with_num_sync_workers (num_sync_workers p - Z.of_nat 0)
              (with_running_workers 0 p) = p) as ->.
    { destruct p. simpl in *. subst. unfold with_num_sync_workers.
      simpl. f_equal. lia. }
    destruct fuel; simpl; rewrite bind_get; cbn [self];
      by rewrite Hrun.
  - destruct fuel as [|fuel]; [simpl in Hfuel; lia|].
    simpl in Hrun, Hfuel. cbn [serve]. rewrite bind_get. cbn [self].
    replace (0 <? running_workers p) with true by (symmetry; lia).
    cbn [exit_messages map app].
    step_with ltac:(by apply recv_any_from_child_run).
    unfold process_message, Tags.lookup_mpi_tag_inv. cbn [Get_tag Get_source].
    rewrite (inv_tag_exit order order_ok Hany1).
    rewrite bool_decide_eq_false_2 by done.
    rewrite bool_decide_eq_true_2 by done.
    rewrite !bind_assoc, bind_get, bind_assoc, bind_modify, bind_assoc,
      bind_get, bind_modify, bind_ret.
    cbn [self inbox outbox].
    change (map (λ s0, msg ChildComm s0 1 (Pickled PyNone)) sources)
      with (exit_messages sources).
    rewrite IH by (simpl; lia). simpl. do 2 f_equal.
    unfold with_num_sync_workers, with_running_workers. simpl.
    f_equal. lia.
Qed.

(** X14. Where [MPI.ANY_SOURCE] is [MPI.ANY_TAG]: a master whose workers
    all send [exit] signals them to start, takes the exit messages one by
    one, in whatever order of the sources, and leaves the loop with no
    running worker and its threshold lowered by their number.  Below a
    parent it then sends that parent exactly one [exit] and returns; at a
    root it sends no exit, and whatever the validation does, the
    mailboxes stay as the loop left them. *)
Theorem exits_end_training sources fuel p ib ob :
  ANY_SOURCE = ANY_TAG → ANY_SOURCE ≠ 1 →
  num_workers p = Z.of_nat (length sources) →
  (length sources ≤ fuel)%nat →
  let w := {| self := p; inbox := exit_messages sources ++ ib;
              outbox := ob |} in
  let signals := map train_signal (seqZ 1 (num_workers p)) in
  let p' := with_num_sync_workers
              (num_sync_workers p - Z.of_nat (length sources))
              (with_running_workers 0 (with_waiting_workers_list [] p)) in
  (∀ r, has_parent p = true → parent_rank p = Some r →
     master_train_signalled order fuel w
     = Ok true {| self := p'; inbox := ib;
                  outbox := ob ++ signals
                            ++ [msg ParentComm r 1 (Pickled PyNone)] |})
  ∧ (has_parent p = false → parent_rank p = None →
     let w' := world_of (master_train_signalled order fuel w) in
     outbox w' = ob ++ signals ∧ inbox w' = ib
     ∧ protocol_state (self w') = protocol_state p').
Proof.
  intros Hany Hany1 Hn Hfuel w signals p'.
  assert (master_train_signalled order fuel w
          = (validate true ≫= λ _, send_exit_to_parent ≫= λ _, mret true)
              {| self := p'; inbox := ib; outbox := ob ++ signals |})
    as Hrun.
  { unfold master_train_signalled, w.
    step_with ltac:(apply signal_children_run).
    unfold master_train. rewrite bind_get, bind_modify, bind_modify.
    cbn [self inbox outbox].
    step_with ltac:(apply (serve_exits sources fuel); [done|done| |done]).
    - reflexivity.
    - simpl. exact Hn. }
  split.
  - intros r Hhp Hr. rewrite Hrun.
    unfold validate. rewrite bind_assoc, bind_get. cbn [self].
    replace (has_parent p') with true by (symmetry; exact Hhp).
    cbv iota. step_with ltac:(reflexivity). unfold send_exit_to_parent.
    rewrite bind_assoc, bind_get. cbn [self].
    replace (parent_rank p') with (Some r) by (symmetry; exact Hr).
    cbv iota.
    step_with ltac:(by apply (send_run _ "exit" 1 None None r);
                      [apply tag_of_exit|]).
    cbv beta. rewrite <- app_assoc. reflexivity.
  - intros Hhp Hr w'. subst w'. rewrite Hrun.
    pose proof (frames_validate true
                  {| self := p'; inbox := ib; outbox := ob ++ signals |})
      as (Hp & Hi & Ho).
    unfold mbind, M_bind, bind.
    destruct (validate true _) as [[] w1|e w1|w1]; simpl in *;
      [|done..].
    unfold send_exit_to_parent. run.
    assert (parent_rank (self w1) = None) as ->.
    { unfold protocol_state in Hp. injection Hp as _ _ _ _ _ _ _ Hpr.
      by rewrite Hpr. }
    simpl. done.
Qed.
End Lifetime.

(** ** Invariants of a whole run *)
Section Kept.
Context `{Scalar, MPIConsts, Collab, !NumPy}.

Global Instance lockstep_preorder : PreOrder lockstep.
Proof.
  split.
  - intros w. by split.
  - intros w1 w2 w3 [Hg12 Hd12] [Hg23 Hd23]. split; congruence.
Qed.

Lemma lockstep_send e w :
  lockstep w
    {| self := self w; inbox := inbox w; outbox := outbox w ++ [e] |}.
Proof. by split. Qed.

Lemma lockstep_recv rest w :
  lockstep w {| self := self w; inbox := rest; outbox := outbox w |}.
Proof. by split. Qed.

Lemma lockstep_assigns f w :
  assigns f →
  lockstep w {| self := f (self w); inbox := inbox w; outbox := outbox w |}.
Proof. intros Hf. by destruct Hf. Qed.

Lemma lockstep_exit w :
  lockstep w
    {| self := with_num_sync_workers (num_sync_workers (self w) - 1)
                 (with_running_workers (running_workers (self w) - 1)
                    (self w));
       inbox := inbox w; outbox := outbox w |}.
Proof. split; simpl; [done|lia]. Qed.

(** The hypotheses of the lemmas above, for the relation. *)
Ltac kept :=
  first [ apply lockstep_send | apply lockstep_assigns | apply lockstep_exit
        | intros; apply lockstep_recv
        | intros; by split ].

Lemma lockstep_serve order fuel : respects lockstep (serve order fuel).
Proof. apply keeps_serve; try kept. apply _. Qed.

(** What follows the serving loop leaves the counts alone. *)
Lemma wind_up_steady :
  respects steady (validate true ≫= λ _, send_exit_to_parent
                   ≫= λ _, mret true).
Proof.
  assert (∀ e w, steady w {| self := self w; inbox := inbox w;
                             outbox := outbox w ++ [e] |}) as Hsend
    by (intros; by split).
  assert (∀ f e rest w, take_first f (inbox w) = Some (e, rest) →
            steady w {| self := self w; inbox := rest;
                        outbox := outbox w |}) as Hrecv.
  { intros f e rest w Ht. split; [done|]. simpl.
    apply take_first_length in Ht. lia. }
  assert (∀ f w, gentle f →
            steady w {| self := f (self w); inbox := inbox w;
                        outbox := outbox w |}) as Hmod
    by (intros f w Hf; split; [apply Hf|done]).
  apply respects_bind; [apply _| |intros _].
  { apply respects_validate; first [apply _|assumption]. }
  apply respects_bind; [apply _| |intros _].
  { apply respects_send_exit_to_parent; first [apply _|assumption]. }
  apply respects_ret. apply _.
Qed.

(** X16. The threshold follows the count of running workers.  In the
    serving loop of a master, however it ends, [num_sync_workers] less
    [running_workers] is what it was, and so are the parent rank,
    [has_parent], the rank, [num_workers], the shapes, the data and the
    number of epochs: only the exit of a worker changes the two counts,
    by one each.  Over the whole of [train] the difference is the initial
    threshold less [num_workers]; so a [train] that returns, from a
    number of workers that is not negative, leaves the threshold at its
    initial value less the number of workers, negative if it was set
    lower than that.  A worker's [train] changes none of these. *)
Theorem threshold_follows_running order fuel w :
  lockstep w (world_of (serve order fuel w))
  ∧ (let w' := world_of (master_train order fuel w) in
     given (self w') = given (self w)
     ∧ num_sync_workers (self w') - running_workers (self w')
       = num_sync_workers (self w) - num_workers (self w))
  ∧ (∀ w', master_train order fuel w = Ok true w' →
       0 ≤ num_workers (self w) →
       running_workers (self w') = 0
       ∧ num_sync_workers (self w')
         = num_sync_workers (self w) - num_workers (self w))
  ∧ lockstep w (world_of (worker_train w))
  ∧ (let w' := world_of (worker_train w) in
     num_sync_workers (self w') = num_sync_workers (self w)
     ∧ running_workers (self w') = running_workers (self w)).
Proof.
  set (w0 := {| self := with_waiting_workers_list []
                          (with_running_workers (num_workers (self w))
                             (self w));
                inbox := inbox w; outbox := outbox w |}).
  assert (master_train order fuel w
          = (serve order fuel ≫= λ finished : bool,
               if finished
               then validate true ≫= λ _, send_exit_to_parent
                    ≫= λ _, mret true
               else mret false) w0) as Hrun by reflexivity.
  assert (respects lockstep
            (validate true ≫= λ _, send_exit_to_parent ≫= λ _, mret true))
    as Hwind.
  { apply keeps_bind; [apply _|apply keeps_validate; try kept; apply _|].
    intros _.
    apply keeps_bind;
      [apply _|apply keeps_send_exit_to_parent; try kept; apply _|].
    intros _. apply keeps_ret. apply _. }
  assert (lockstep w0 (world_of (master_train order fuel w))) as Hlock.
  { rewrite Hrun. apply keeps_bind; [apply _|apply lockstep_serve|].
    intros [|]; [exact Hwind|apply keeps_ret; apply _]. }
  assert (lockstep w (world_of (worker_train w))) as Hworker
    by (apply keeps_worker_train; try kept; apply _).
  split; [apply lockstep_serve|]. split; [|split; [|split]].
  - destruct Hlock as [Hg Hd]. split; [by rewrite Hg|].
    rewrite Hd. reflexivity.
  - intros w' Hok Hn. destruct Hlock as [_ Hd]. rewrite Hok in Hd.
    simpl in Hd.
    assert (running_workers (self w') = 0) as Hzero.
    { rewrite Hrun in Hok. unfold mbind, M_bind, bind in Hok.
      destruct (serve order fuel w0) as [[|] w1|e w1|w1] eqn:Hserve;
        try done.
      apply serve_stops_at_zero in Hserve; [|done].
      pose proof (wind_up_steady w1) as [Hr _].
      unfold mbind, M_bind, bind in Hr. rewrite Hok in Hr.
      simpl in Hr. congruence. }
    split; [done|lia].
  - exact Hworker.
  - set (R := λ w w' : World,
                num_sync_workers (self w') = num_sync_workers (self w)
                ∧ running_workers (self w') = running_workers (self w)).
    assert (PreOrder R) as HR.
    { split; [by intros ?|].
      intros w1 w2 w3 [? ?] [? ?]. split; congruence. }
    apply (keeps_worker_train R).
    + by intros.
    + by intros.
    + intros f w1 Hf. by destruct Hf.
Qed.
End Kept.

(** ** The grammar of the traffic *)
Section Traffic.
Context `{Scalar, MPIConsts, Collab, !NumPy}.

Section TrafficGeneric.
Variable ok : option Z → Envelope → Prop.

Global Instance traffic_preorder : PreOrder (traffic ok).
Proof.
  split.
  - intros w. split; [done|]. exists []. by rewrite app_nil_r.
  - intros w1 w2 w3 [Hp12 (l12 & Ho12 & Hl12)] [Hp23 (l23 & Ho23 & Hl23)].
    split; [congruence|]. exists (l12 ++ l23). split.
    + by rewrite Ho23, Ho12, app_assoc.
    + apply Forall_app. split; [done|]. by rewrite <- Hp12.
Qed.

Lemma traffic_recv rest w :
  traffic ok w {| self := self w; inbox := rest; outbox := outbox w |}.
Proof. split; [done|]. exists []. by rewrite app_nil_r. Qed.

Lemma traffic_keeps_parent f w :
  parent_rank (f (self w)) = parent_rank (self w) →
  traffic ok w {| self := f (self w); inbox := inbox w; outbox := outbox w |}.
Proof. intros Hf. split; [done|]. exists []. by rewrite app_nil_r. Qed.

Lemma traffic_assigns f w :
  assigns f →
  traffic ok w {| self := f (self w); inbox := inbox w; outbox := outbox w |}.
Proof. intros Hf. apply traffic_keeps_parent. by destruct Hf. Qed.

Lemma traffic_modify f :
  (∀ p, parent_rank (f p) = parent_rank p) →
  respects (traffic ok) (modify_self f).
Proof. intros Hf w. by apply traffic_keeps_parent. Qed.

(** Only [send] puts messages out: it keeps the traffic as long as the
    message it builds is allowed. *)
Lemma traffic_send obj tag dest comm :
  sendable ok obj tag dest comm →
  respects (traffic ok) (send obj tag dest comm).
Proof.
  intros Hok w. unfold send. rewrite bind_get.
  assert (∀ d, address (self w) dest = Some d →
            traffic ok w
              (world_of
                 ((tag_num ← match Tags.lookup_mpi_tag tag with
                             | Some t => mret t
                             | None => raise TypeError
                             end;
                   mpi_send {| env_comm := default ParentComm comm;
                               env_peer := d; env_tag := tag_num;
                               env_body := obj |}) w))) as Hsend.
  { intros d Hd. destruct (Tags.lookup_mpi_tag tag) as [t|] eqn:Ht.
    - rewrite bind_ret. unfold mpi_send. simpl. split; [done|].
      eexists. split; [reflexivity|]. constructor; [|done].
      exact (Hok (self w) d t Hd Ht).
    - rewrite bind_raise. reflexivity. }
  destruct dest as [d|].
  - rewrite bind_ret. by apply Hsend.
  - destruct (parent_rank (self w)) as [r|] eqn:Hr.
    + rewrite bind_ret. apply Hsend. exact Hr.
    + rewrite bind_raise. reflexivity.
Qed.

Lemma traffic_send_each obj tag comm dest :
  (∀ d, sendable ok (Buffer d) tag dest comm) →
  respects (traffic ok) (send_each obj tag comm dest).
Proof.
  intros Hok. induction obj as [|w obj IH]; simpl.
  - apply keeps_ret. apply _.
  - apply keeps_bind; [apply _|by apply traffic_send|by intros _].
Qed.

(** The methods that send nothing keep any traffic. *)
Lemma quiet_recv obj tag source buffer comm :
  respects (traffic ok) (recv obj tag source buffer comm).
Proof. apply keeps_recv; [apply _|intros; apply traffic_recv]. Qed.

Lemma quiet_recv_time_step comm source :
  respects (traffic ok) (recv_time_step comm source).
Proof. apply keeps_recv_time_step; [apply _|intros; apply traffic_recv]. Qed.

Lemma quiet_recv_bool comm source :
  respects (traffic ok) (recv_bool comm source).
Proof. apply keeps_recv_bool; [apply _|intros; apply traffic_recv]. Qed.

Lemma quiet_recv_update comm source add :
  respects (traffic ok) (recv_update comm source add).
Proof.
  apply keeps_recv_update;
    [apply _|intros; apply traffic_recv|intros; by apply traffic_assigns].
Qed.

Lemma quiet_sync_with_master : respects (traffic ok) sync_with_master.
Proof.
  apply keeps_sync_with_master;
    [apply _|intros; apply traffic_recv|intros; by apply traffic_assigns].
Qed.

Lemma quiet_train_on_batch batch :
  respects (traffic ok) (train_on_batch batch).
Proof.
  apply keeps_train_on_batch; [apply _|intros; by apply traffic_assigns].
Qed.

Lemma quiet_worker_compute_update :
  respects (traffic ok) worker_compute_update.
Proof.
  apply keeps_worker_compute_update;
    [apply _|intros; by apply traffic_assigns].
Qed.

Lemma quiet_await_signal_from_parent :
  respects (traffic ok) await_signal_from_parent.
Proof.
  apply keeps_await_signal_from_parent;
    [apply _|intros; apply traffic_recv].
Qed.

Lemma quiet_master_apply_update : respects (traffic ok) master_apply_update.
Proof.
  apply keeps_master_apply_update;
    [apply _|intros; by apply traffic_assigns].
Qed.

Lemma quiet_validate b : respects (traffic ok) (validate b).
Proof.
  apply keeps_validate; [apply _|intros; by apply traffic_assigns].
Qed.

Lemma quiet_periodic_validation : respects (traffic ok) periodic_validation.
Proof.
  apply keeps_periodic_validation;
    [apply _|intros; by apply traffic_assigns].
Qed.

Lemma quiet_recv_any_from_child : respects (traffic ok) recv_any_from_child.
Proof.
  apply keeps_recv_any_from_child; [apply _|intros; apply traffic_recv].
Qed.
End TrafficGeneric.

(** More allowed, same traffic. *)
Lemma traffic_mono (ok ok' : option Z → Envelope → Prop) {A} (m : M A) :
  (∀ r e, ok r e → ok' r e) →
  respects (traffic ok) m → respects (traffic ok') m.
Proof.
  intros Himp Hm w. destruct (Hm w) as [Hp (l & Ho & Hl)].
  split; [done|]. exists l. split; [done|].
  eapply Forall_impl; [|exact Hl]. apply Himp.
Qed.

(** The messages that the calls of the exchange build. *)
Ltac in_list :=
  repeat first [ apply list_elem_of_here | apply list_elem_of_further ].

Ltac sendable_step :=
  let p := fresh "p" in
  let d := fresh "d" in
  let t := fresh "t" in
  let Haddr := fresh "Haddr" in
  let Htag := fresh "Htag" in
  intros p d t Haddr Htag; cbn [address] in Haddr;
  vm_compute in Htag; injection Htag as <-;
  unfold up_or_down, upward, downward, protocol_message, msg;
  cbn [env_comm env_peer env_tag env_body default];
  first [ by repeat split; try in_list
        | left; by repeat split; try in_list
        | right; by repeat split; try in_list ].

Create HintDb traffic.
Hint Resolve quiet_recv quiet_recv_time_step quiet_recv_bool
  quiet_recv_update quiet_sync_with_master quiet_train_on_batch
  quiet_worker_compute_update quiet_await_signal_from_parent
  quiet_master_apply_update quiet_validate quiet_periodic_validation
  quiet_recv_any_from_child : traffic.

Ltac traffic_step :=
  lazymatch goal with
  | |- respects _ (send _ _ _ _) => apply traffic_send; sendable_step
  | |- respects _ (send_each _ _ _ _) =>
      apply traffic_send_each; intros ?; sendable_step
  | |- respects _ (modify_self _) =>
      apply traffic_modify; intros []; reflexivity
  | |- respects _ (mret _) => apply keeps_ret; apply _
  | |- respects _ (raise _) => apply keeps_raise; apply _
  | |- respects _ get_self => apply keeps_get; apply _
  | |- respects _ (_ ≫= _) => apply keeps_bind; [apply _| |intros ?]
  | |- respects _ (match ?x with _ => _ end) => destruct x
  | |- respects _ _ => solve [eauto with traffic]
  end.

Ltac solve_traffic := repeat (cbv beta iota zeta; traffic_step).

(** *** What a request sends *)

Lemma upward_send_exit_to_parent :
  respects (traffic upward) send_exit_to_parent.
Proof. unfold send_exit_to_parent. solve_traffic. Qed.

Lemma upward_send_update :
  respects (traffic upward) (send_update None None true).
Proof.
  unfold send_update, send_arrays, send_time_step. solve_traffic.
Qed.

Lemma upward_do_send_sequence : respects (traffic upward) do_send_sequence.
Proof.
  unfold do_send_sequence.
  apply keeps_bind; [apply _|apply upward_send_update|intros _].
  solve_traffic.
Qed.
Hint Resolve upward_send_exit_to_parent upward_do_send_sequence : traffic.

Lemma upward_worker_batches batches :
  respects (traffic upward) (worker_batches batches).
Proof.
  induction batches; simpl; [solve_traffic|].
  unfold worker_batch. solve_traffic.
Qed.
Hint Resolve upward_worker_batches : traffic.

Lemma upward_worker_epochs n : respects (traffic upward) (worker_epochs n).
Proof. induction n; simpl; solve_traffic. Qed.
Hint Resolve upward_worker_epochs : traffic.


(** *** What a master sends *)

Lemma upward_up_or_down r e : upward r e → up_or_down r e.
Proof. by left. Qed.

Lemma master_do_send_sequence :
  respects (traffic up_or_down) do_send_sequence.
Proof.
  apply (traffic_mono upward); [apply upward_up_or_down|].
  apply upward_do_send_sequence.
Qed.

Lemma master_send_exit_to_parent :
  respects (traffic up_or_down) send_exit_to_parent.
Proof.
  apply (traffic_mono upward); [apply upward_up_or_down|].
  apply upward_send_exit_to_parent.
Qed.
Hint Resolve master_do_send_sequence master_send_exit_to_parent : traffic.

Lemma master_sync_child child :
  respects (traffic up_or_down) (sync_child child).
Proof.
  unfold sync_child, send_time_step, send_weights, send_arrays.
  solve_traffic.
Qed.
Hint Resolve master_sync_child : traffic.

Lemma master_sync_children_from stack :
  respects (traffic up_or_down) (sync_children_from stack).
Proof. induction stack; simpl; solve_traffic. Qed.
Hint Resolve master_sync_children_from : traffic.

Lemma master_do_update_sequence source :
  respects (traffic up_or_down) (do_update_sequence source).
Proof.
  unfold do_update_sequence, accepted_update_sequence, sync_children,
    sync_parent, send_bool.
  solve_traffic.
Qed.
Hint Resolve master_do_update_sequence : traffic.

Lemma master_signal_each children :
  respects (traffic up_or_down) (signal_each children).
Proof. induction children; simpl; solve_traffic. Qed.
Hint Resolve master_signal_each : traffic.

Section TrafficLoop.
Variable order : list (string * Z).

Lemma master_serve fuel : respects (traffic up_or_down) (serve order fuel).
Proof.
  induction fuel; simpl; unfold process_message; solve_traffic.
Qed.
Hint Resolve master_serve : traffic.


End TrafficLoop.
End Traffic.

(** ** Time steps and stalls in a tree *)
Module SystemRuns.
Import System SystemFacts.

Section Clocks.
Variable T : Tree.
Hypothesis tree : well_formed T.

(** An assignment that leaves the time step of the process alone. *)
Lemma clock_update_node_same n f cfg m :
  time_step (f (nodes cfg n)) = time_step (nodes cfg n) →
  clock (update_node n f cfg) m = clock cfg m.
Proof.
  intros Hf. rewrite clock_update_node, insert_apply_nat.
  case_decide; [subst; exact Hf|done].
Qed.

Lemma clock_push_parent n msgs cfg m :
  clock (push_parent T n msgs cfg) m = clock cfg m.
Proof. unfold push_parent. by destruct (parent T n). Qed.

Lemma clock_serve_all n stack cfg m :
  clock (foldl (λ cfg child, sync_child n child cfg) cfg stack) m
  = clock cfg m.
Proof.
  revert cfg. induction stack as [|child stack IH]; intros cfg; [done|].
  simpl. by rewrite IH.
Qed.

Lemma clock_sync_children n cfg m :
  clock (sync_children n cfg) m = clock cfg m.
Proof.
  unfold sync_children. rewrite clock_update_node_same by done.
  apply clock_serve_all.
Qed.

Lemma clock_signal_children n cfg m :
  clock (signal_children T n cfg) m = clock cfg m.
Proof.
  unfold signal_children. generalize (children T n). intros l.
  revert cfg. induction l as [|child l IH]; intros cfg; [done|].
  simpl. by rewrite IH.
Qed.

Lemma clock_validation_check n cfg m :
  clock (validation_check T n cfg) m = clock cfg m.
Proof. unfold validation_check. by rewrite clock_update_node_same. Qed.

Lemma clock_finish_round n cfg m :
  clock (finish_round T n cfg) m = clock cfg m.
Proof.
  unfold finish_round.
  by rewrite clock_validation_check, clock_sync_children.
Qed.

Lemma clock_continue n k cfg m :
  clock (continue T n k cfg) m = clock cfg m.
Proof.
  destruct k; simpl.
  - by rewrite clock_update_node_same.
  - apply clock_finish_round.
Qed.

(** No step takes a time step back. *)
Lemma step_clock cfg l cfg' m :
  invariant T cfg → step T cfg l cfg' → clock cfg m ≤ clock cfg' m.
Proof.
  intros [Hok _] Hstep. destruct Hstep.
  - by rewrite clock_update_node_same.
  - by rewrite clock_update_node_same, clock_push_parent.
  - by rewrite clock_update_node_same, clock_push_parent.
  - by rewrite clock_update_node_same.
  - (* the time step of the parent arrives *)
    rewrite clock_update_node, insert_apply_nat.
    case_decide as Hn; [subst m|done]. simpl.
    match goal with
    | Hpar : parent T n = Some _, Htake : take_tag 4 _ = Some _ |- _ =>
        destruct (Hok _ _ Hpar) as (_ & _ & Hdown & _);
        rewrite (take_tag_times _ _ _ _ Htake) in Hdown
    end.
    inversion_clear Hdown as [|? ? Ht _]. lia.
  - by rewrite clock_continue.
  - by rewrite clock_update_node_same, clock_signal_children.
  - by rewrite clock_update_node_same, clock_push_parent.
  - by rewrite clock_update_node_same.
  - by rewrite clock_update_node_same.
  - by rewrite clock_update_node_same.
  - subst s cfg1 cfg2. destruct (accept_update _).
    + rewrite clock_update_node_same by done.
      change (clock (push ?a ?b ?c ?d)) with (clock d).
      by rewrite clock_update_node_same.
    + rewrite clock_update_node_same by done.
      change (clock (sync_child ?a ?b ?d)) with (clock d).
      change (clock (push ?a ?b ?c ?d)) with (clock d).
      by rewrite clock_update_node_same.
  - assert (∀ k, clock cfg1 k = clock cfg k) as Hcfg1
      by (intros k; subst cfg1; by rewrite clock_update_node_same).
    clearbody cfg1.
    destruct (decide_whether_to_sync _).
    + destruct (parent T n).
      * rewrite clock_update_node_same by done.
        change (clock (push ?a ?b ?c ?d)) with (clock d).
        rewrite Hcfg1. lia.
      * rewrite clock_finish_round, clock_update_node, insert_apply_nat.
        case_decide; [subst m|rewrite Hcfg1; lia].
        cbn [with_time_step time_step].
        change (time_step (nodes cfg1 n)) with (clock cfg1 n).
        rewrite Hcfg1. lia.
    + rewrite clock_validation_check, Hcfg1. lia.
Qed.

(** X17. In a tree of processes the time step of a process never goes
    back: whatever step a reachable configuration takes, no process has a
    smaller time step after it; and no time step is ever negative. *)
Theorem time_never_goes_back cfg :
  reachable T cfg →
  (∀ l cfg' n, step T cfg l cfg' →
     time_step (nodes cfg n) ≤ time_step (nodes cfg' n))
  ∧ ∀ n, 0 ≤ time_step (nodes cfg n).
Proof.
  intros Hreach. split.
  - intros l cfg' n Hstep.
    apply (step_clock cfg l cfg' n); [|done].
    by apply reachable_invariant.
  - intros n. induction Hreach as [|cfg l cfg' Hreach IH Hstep]; [done|].
    pose proof (step_clock cfg l cfg' n
                  (reachable_invariant T tree cfg Hreach) Hstep) as Hle.
    unfold clock in Hle. lia.
Qed.
End Clocks.
(** X18. Lowering the threshold when a worker leaves does not start the
    round that the lower threshold calls for.  In the tree of a master
    that synchronises on two updates, a worker with batches and a worker
    without, there is a reachable configuration that is stuck: the first
    worker's update was accepted and it waits for the master's time step,
    the second worker has left, the master is in its serving loop with
    one running worker, its only waiting worker now meets the threshold,
    and no process can take a step. *)
Theorem shrunk_threshold_stalls batches every :
  every ≠ 0 →
  ∃ cfg,
    reachable (tree1 batches every) cfg
    ∧ stuck (tree1 batches every) cfg
    ∧ pc (nodes cfg 0%nat) = Serving
    ∧ running_workers (nodes cfg 0%nat) = 1
    ∧ num_sync_workers (nodes cfg 0%nat) = 1
    ∧ waiting_workers_list (nodes cfg 0%nat) = [1%nat]
    ∧ decide_whether_to_sync (nodes cfg 0%nat) = true
    ∧ pc (nodes cfg 1%nat) = AwaitTime (NextBatch batches)
    ∧ pc (nodes cfg 2%nat) = Exited.
Proof.
  intros Hevery.
  assert (∃ q, every = Z.pos q ∨ every = Z.neg q) as [q Hq]
    by (destruct every as [|q|q]; [done|exists q; by left|exists q; by right]).
  set (T := tree1 batches every).
  pose proof (reachable_initial T) as R0.
  match type of R0 with
  | reachable _ ?c =>
      pose proof (reachable_step _ c _ _ R0
                    (master_start T 0 c eq_refl eq_refl)) as R1
  end.
  match type of R1 with
  | reachable _ ?c =>
      pose proof (reachable_step _ c _ _ R1
                    (worker_start T 2 0 c [] eq_refl eq_refl eq_refl
                       eq_refl)) as R2
  end.
  match type of R2 with
  | reachable _ ?c =>
      pose proof (reachable_step _ c _ _ R2
                    (worker_exit T 2 c eq_refl)) as R3
  end.
  match type of R3 with
  | reachable _ ?c =>
      pose proof (reachable_step _ c _ _ R3
                    (worker_start T 1 0 c [] eq_refl eq_refl eq_refl
                       eq_refl)) as R4
  end.
  match type of R4 with
  | reachable _ ?c =>
      pose proof (reachable_step _ c _ _ R4
                    (worker_batch T 1 batches c eq_refl)) as R5
  end.
  match type of R5 with
  | reachable _ ?c =>
      pose proof (reachable_step _ c _ _ R5
                    (master_begin_update T 0 1 c [Time 0] eq_refl eq_refl
                       eq_refl eq_refl)) as R6
  end.
  match type of R6 with
  | reachable _ ?c =>
      pose proof (reachable_step _ c _ _ R6
                    (master_child_time T 0 1 0 c [] eq_refl eq_refl
                       eq_refl)) as R7
  end.
  match type of R7 with
  | reachable _ ?c =>
      pose proof (reachable_step _ c _ _ R7
                    (sender_bool T 1 0 (NextBatch batches) true c []
                       eq_refl eq_refl eq_refl)) as R8
  end.
  match type of R8 with
  | reachable _ ?c =>
      pose proof (reachable_step _ c _ _ R8
                    (master_child_update T 0 1 c [] eq_refl eq_refl
                       eq_refl)) as R9
  end.
  match type of R9 with
  | reachable _ ?c =>
      pose proof (reachable_step _ c _ _ R9
                    (master_child_exit T 0 2 c []
                       ltac:(subst T; by destruct Hq as [-> | ->])
                       ltac:(subst T; by destruct Hq as [-> | ->])
                       eq_refl
                       ltac:(subst T; by destruct Hq as [-> | ->]))) as R10
  end.
  clear R0 R1 R2 R3 R4 R5 R6 R7 R8 R9.
  match type of R10 with
  | reachable _ ?c => exists c
  end.
  split; [exact R10|]. clear R10.
  split.
  - intros l cfg' Hstep.
    match type of Hstep with
    | step _ ?c _ _ => remember c as cfg eqn:Hcfg
    end.
    destruct Hstep; subst cfg.
    all: destruct Hq as [-> | ->]; subst T.
    all: try destruct n as [|[|[|n]]]; try destruct c as [|[|[|c]]].
    all: try match goal with
             | H : parent _ _ = Some ?p |- _ =>
                 is_var p; vm_compute in H;
                 first [discriminate H | injection H as <-]
             end.
    all: try (repeat match goal with
              | H : _ = _ |- _ => vm_compute in H; discriminate H
              | H : _ ≤ _ |- _ => vm_compute in H; by destruct H
              end; fail).
  - destruct Hq as [-> | ->]; by repeat split.
Qed.
End SystemRuns.

(** ** Whole runs of a root *)
Section Runs.
Context `{Scalar, MPIConsts, Collab, !NumPy}.
Variable order : list (string * Z).
Hypothesis order_ok : Tags.iteration_order order.

(** A periodic validation that is not due does nothing. *)
Lemma periodic_validation_idle w :
  validate_every (algo (self w)) ≠ 0 →
  ¬ due (time_step (self w)) (validate_every (algo (self w))) →
  periodic_validation w = Ok tt w.
Proof.
  intros Hne Hdue. rewrite periodic_validation_run. cbv zeta.
  rewrite (proj2 (Z.eqb_neq _ 0)) by done.
  destruct (_ `mod` _ =? 0) eqn:Hmod; [|done].
  destruct (0 <? _) eqn:Hpos; [|done].
  exfalso. apply Hdue. split; [by apply Z.eqb_eq|by apply Z.ltb_lt].
Qed.

(** The update sequence of a root on an acceptable request. *)
Lemma root_accepts_run p source t ds ib ob :
  acceptable p (source, t, ds) →
  do_update_sequence source
    {| self := p;
       inbox := msg ChildComm source 4 (Pickled (PyInt t))
                :: buffer_messages ChildComm source ds ++ ib;
       outbox := ob |}
  = Ok tt
      {| self := (root_accepts p (source, t, ds)).1; inbox := ib;
         outbox := ob ++ (root_accepts p (source, t, ds)).2 |}.
Proof.
  intros (Hroot & Hacc & Hfit & Hne & Hdue). simpl in Hacc, Hfit.
  unfold root_accepts in *.
  set (p1 := with_algo (set_staleness (algo p) (time_step p - t)) p) in *.
  set (U := received (update p) (is_synchronous p) ds) in *.
  destruct (num_sync_workers p
            <=? Z.of_nat (length (waiting_workers_list p ++ [source])))
    eqn:Hthr.
  - (* the round *)
    set (q0 := with_waiting_workers_list (waiting_workers_list p ++ [source])
                 (with_update U p1)).
    unfold do_update_sequence. rewrite bind_get. cbn [self].
    step_with ltac:(by apply (recv_time_step_run (Some ChildComm)
                                (Some source) source)).
    cbn [as_int]. rewrite bind_ret, bind_modify, bind_get.
    cbn [self inbox outbox]. fold p1. rewrite Hacc.
    step_with ltac:(by apply (send_bool_run true (Some ChildComm)
                                (Some source) source)).
    cbv iota. unfold accepted_update_sequence. rewrite bind_get.
    cbn [self].
    step_with ltac:(by apply (recv_update_run (is_synchronous p) ds
                                (Some ChildComm) (Some source) source)).
    rewrite bind_get, bind_modify, bind_get. cbn [self inbox outbox].
    match goal with
    | |- context [decide_whether_to_sync ?x] => change x with q0
    end.
    assert (decide_whether_to_sync q0 = true) as -> by exact Hthr.
    rewrite bind_assoc.
    destruct (send_before_apply (algo p)) eqn:Hsba.
    + replace (send_before_apply (algo q0)) with true
        by (symmetry; exact Hsba).
      cbv iota. rewrite bind_assoc.
      step_with ltac:(by apply sync_parent_root).
      rewrite bind_assoc.
      step_with ltac:(by apply (sync_children_run (waiting_workers_list p)
                                  source)).
      step_with ltac:(apply master_apply_update_run).
      rewrite bind_assoc, bind_get, bind_modify. cbn [self inbox outbox].
      rewrite periodic_validation_idle; [|exact Hne|exact Hdue].
      cbn. by rewrite <- !app_assoc.
    + replace (send_before_apply (algo q0)) with false
        by (symmetry; exact Hsba).
      cbv iota. rewrite bind_assoc.
      step_with ltac:(apply master_apply_update_run).
      rewrite bind_assoc.
      step_with ltac:(by apply sync_parent_root).
      step_with ltac:(by apply (sync_children_run (waiting_workers_list p)
                                  source)).
      rewrite bind_assoc, bind_get, bind_modify. cbn [self inbox outbox].
      rewrite periodic_validation_idle; [|exact Hne|exact Hdue].
      cbn. by rewrite <- !app_assoc.
  - (* the child waits *)
    rewrite (accepted_waiting_run source t ds p ib ob Hacc Hfit)
      by (rewrite length_app in Hthr; simpl in Hthr;
          apply Z.leb_gt in Hthr; lia).
    by rewrite periodic_validation_idle.
Qed.

(** The serving loop on acceptable requests, one after the other. *)
Lemma serve_requests rs fuel p rest ob :
  ANY_SOURCE = ANY_TAG → ANY_SOURCE ≠ 3 →
  0 < running_workers p → all_acceptable p rs →
  serve order (length rs + fuel)
    {| self := p; inbox := concat (map request_messages rs) ++ rest;
       outbox := ob |}
  = serve order fuel
      {| self := after_requests p rs; inbox := rest;
         outbox := ob ++ answers p rs |}.
Proof.
  intros Hany Hany3. revert p ob.
  induction rs as [|[[source t] ds] rs IH]; intros p ob Hrun Hok.
  - simpl. by rewrite app_nil_r.
  - destruct Hok as [Hr Hok].
    cbn [length Nat.add serve]. rewrite bind_get. cbn [self].
    replace (0 <? running_workers p) with true by (symmetry; lia).
    cbn [map concat request_messages]. rewrite <- !app_assoc.
    cbn [app].
    step_with ltac:(by apply recv_any_from_child_run).
    unfold process_message, Tags.lookup_mpi_tag_inv.
    cbn [Get_tag Get_source].
    rewrite (inv_tag_begin_update order order_ok Hany3).
    rewrite bool_decide_eq_true_2 by done.
    rewrite !bind_assoc.
    step_with ltac:(by apply root_accepts_run).
    rewrite bind_ret.
    rewrite IH; [|by destruct Hr as (_&_&_&_&_);
                    unfold root_accepts; cbn;
                    destruct (_ <=? _)|exact Hok].
    cbn [after_requests answers]. by rewrite <- app_assoc.
Qed.





End Runs.

(** ** The whole run of a worker *)
Section WorkerRuns.
Context `{Scalar, MPIConsts, Collab, !NumPy}.

Lemma same_sizes_sizes ws vs : same_sizes ws vs ↔ sizes ws = sizes vs.
Proof.
  unfold same_sizes, sizes. split.
  - induction 1 as [|w v ws vs Hlen _ IH]; simpl; congruence.
  - revert vs. induction ws as [|w ws IH]; intros [|v vs] Hs;
      simpl in Hs; try done; constructor.
    + by injection Hs.
    + apply IH. by injection Hs.
Qed.

Lemma sizes_data ws vs : map data ws = map data vs → sizes ws = sizes vs.
Proof.
  unfold sizes. revert vs.
  induction ws as [|w ws IH]; intros [|v vs] Hd; simpl in *; try done.
  injection Hd as Hd1 Hd2. f_equal; [by rewrite Hd1|by apply IH].
Qed.

(** One batch of a worker whose master answers. *)
Lemma worker_batch_run r child p b dec t ws pre ib ob :
  parent_rank p = Some r →
  sizes ws = sizes (weights p) →
  silent ParentComm r 5 pre → silent ParentComm r 4 pre →
  silent ParentComm r 13 pre → ANY_TAG ≠ 13 →
  worker_batch b
    {| self := p;
       inbox := pre ++ reply_messages r child (dec, t, ws) ++ ib;
       outbox := ob |}
  = Ok tt
      {| self := (worker_step r p b (dec, t, ws)).1;
         inbox := pre ++ leftover r :: ib;
         outbox := ob ++ (worker_step r p b (dec, t, ws)).2 |}.
Proof.
  intros Hr Hsz H5 H4 H13 Hany. unfold worker_batch, train_on_batch.
  rewrite bind_assoc, bind_get, bind_modify. cbn [self inbox outbox].
  unfold worker_compute_update.
  rewrite bind_assoc, bind_get, bind_modify. cbn [self inbox outbox].
  unfold reply_messages.
  rewrite (do_send_sequence_served r child dec t ws); try done.
  symmetry in Hsz. by apply same_sizes_sizes.
Qed.

Lemma silent_leftover r tag pre :
  ANY_TAG ≠ tag → tag ≠ 2 →
  silent ParentComm r tag pre → silent ParentComm r tag (pre ++ [leftover r]).
Proof.
  intros Hany Htag Hpre. apply Forall_app. split; [done|].
  constructor; [|constructor].
  unfold matches, leftover, msg. cbn [env_comm env_peer env_tag].
  rewrite (proj2 (Z.eqb_neq tag ANY_TAG)) by congruence.
  rewrite (proj2 (Z.eqb_neq tag 2)) by done.
  apply andb_false_r.
Qed.

(** The batches of a worker whose master answers every request. *)
Lemma worker_batches_run r child steps p pre ib ob :
  parent_rank p = Some r →
  Forall (λ s : Batch * Reply, sizes s.2.2 = sizes (weights p)) steps →
  silent ParentComm r 5 pre → silent ParentComm r 4 pre →
  silent ParentComm r 13 pre →
  ANY_TAG ≠ 5 → ANY_TAG ≠ 4 → ANY_TAG ≠ 13 →
  worker_batches (map fst steps)
    {| self := p;
       inbox := pre
                ++ concat (map (λ s : Batch * Reply,
                                  reply_messages r child s.2) steps)
                ++ ib;
       outbox := ob |}
  = Ok tt
      {| self := after_batches r p steps;
         inbox := pre ++ replicate (length steps) (leftover r) ++ ib;
         outbox := ob ++ requests r p steps |}.
Proof.
  intros Hr Hsz H5 H4 H13 Hany5 Hany4 Hany13.
  revert p pre ob Hr Hsz H5 H4 H13.
  induction steps as [|[b [[dec t] ws]] steps IH];
    intros p pre ob Hr Hsz H5 H4 H13.
  - simpl. by rewrite app_nil_r.
  - inversion_clear Hsz as [|? ? Hs Hsz']. simpl in Hs.
    cbn [map fst snd worker_batches concat]. rewrite <- app_assoc.
    step_with ltac:(by apply (worker_batch_run r child)).
    cbn [after_batches requests length replicate].
    change (pre ++ leftover r
              :: concat (map (λ s : Batch * Reply,
                                reply_messages r child s.2) steps) ++ ib)
      with (pre ++ [leftover r]
              ++ concat (map (λ s : Batch * Reply,
                                reply_messages r child s.2) steps) ++ ib).
    rewrite (app_assoc pre).
    rewrite IH.
    + by rewrite <- !app_assoc.
    + done.
    + eapply Forall_impl; [|exact Hsz']. intros s Hs'. simpl in *.
      rewrite Hs'.
      destruct (filled_same_sizes (weights p) ws) as [Hd _];
        [apply same_sizes_sizes; by symmetry|].
      rewrite (sizes_data _ _ Hd). symmetry. exact Hs.
    + by apply silent_leftover.
    + by apply silent_leftover.
    + by apply silent_leftover.
Qed.

Lemma worker_batches_app l1 l2 w :
  worker_batches (l1 ++ l2) w
  = (worker_batches l1 ≫= λ _, worker_batches l2) w.
Proof.
  revert w. induction l1 as [|b l1 IH]; intros w; [done|].
  cbn [app worker_batches]. rewrite bind_assoc.
  unfold mbind, M_bind, bind.
  destruct (worker_batch b w) as [[] w1|e w1|w1]; [|done..].
  rewrite IH. reflexivity.
Qed.

(** The epochs of a worker are its batches, over and over. *)
Lemma worker_epochs_flat n w :
  worker_epochs n w
  = worker_batches (concat (replicate n (data_batches (self w)))) w.
Proof.
  revert w. induction n as [|n IH]; intros w; [done|].
  cbn [worker_epochs replicate concat]. rewrite bind_get.
  rewrite worker_batches_app.
  assert (lockstep w (world_of (worker_batches (data_batches (self w)) w)))
    as [Hg _].
  { apply keeps_worker_batches; first [apply _|apply lockstep_send
      |intros; apply lockstep_recv|apply lockstep_assigns]. }
  unfold mbind, M_bind, bind.
  destruct (worker_batches (data_batches (self w)) w) as [[] w1|e w1|w1];
    [|done..].
  rewrite IH. simpl in Hg. unfold given in Hg.
  injection Hg as _ _ _ _ _ Hd _. by rewrite Hd.
Qed.
Lemma worker_epochs_flat_bind {B} n (k : unit → M B) w :
  (worker_epochs n ≫= k) w
  = (worker_batches (concat (replicate n (data_batches (self w)))) ≫= k) w.
Proof. unfold mbind, M_bind, bind. by rewrite worker_epochs_flat. Qed.

Lemma last_cons_default {A} (l : list A) x d : last (x :: l) d = last l x.
Proof.
  revert x d. induction l as [|a l IH]; intros x d; [done|].
  change (last (x :: a :: l) d) with (last (a :: l) d).
  by rewrite !IH.
Qed.

(** What the batches leave behind, in closed form. *)
Lemma after_batches_facts r steps p :
  Forall (λ s : Batch * Reply, sizes s.2.2 = sizes (weights p)) steps →
  time_step (after_batches r p steps)
  = last (map (λ s : Batch * Reply, s.2.1.2) steps) (time_step p)
  ∧ map data (weights (after_batches r p steps))
    = last (map (λ s : Batch * Reply, map data s.2.2) steps)
        (map data (weights p))
  ∧ map shape (weights (after_batches r p steps)) = map shape (weights p)
  ∧ given (after_batches r p steps) = given p
  ∧ filter (λ e, env_tag e ≠ 13) (requests r p steps)
    = concat
        (map (λ t, [msg ParentComm r 3 (Pickled PyNone);
                    msg ParentComm r 4 (Pickled (PyInt t))])
           (take (length steps)
              (time_step p :: map (λ s : Batch * Reply, s.2.1.2) steps))).
Proof.
  revert p. induction steps as [|[b [[dec t] ws]] steps IH]; intros p Hsz.
  - by repeat split.
  - inversion_clear Hsz as [|? ? Hs Hsz']. simpl in Hs.
    destruct (filled_same_sizes (weights p) ws) as [Hd Hsh];
      [apply same_sizes_sizes; by symmetry|].
    set (q := (worker_step r p b (dec, t, ws)).1).
    assert (time_step q = t) as Hqt by reflexivity.
    assert (map data (weights q) = map data ws) as Hqd by exact Hd.
    assert (map shape (weights q) = map shape (weights p)) as Hqs
      by exact Hsh.
    assert (given q = given p) as Hqg by reflexivity.
    destruct (IH q) as (Ht & Hw & Hshape & Hg & Hreq).
    { eapply Forall_impl; [|exact Hsz']. intros s Hs'. simpl in *.
      rewrite Hs', (sizes_data _ _ Hqd). by symmetry. }
    cbn [after_batches requests map length take fst snd]. fold q.
    rewrite Ht, Hw, Hshape, Hg, Hqt, Hqd, Hqs, Hqg.
    split; [by rewrite last_cons_default|].
    split; [by rewrite last_cons_default|].
    split; [done|]. split; [done|].
    rewrite list.filter_app, Hreq, Hqt. cbn [concat map].
    f_equal.
    cbn [worker_step snd]. rewrite list.filter_app.
    assert (filter (λ e, env_tag e ≠ 13)
              (if truthy dec
               then array_messages ParentComm r
                      (compute_update (algo p) (weights p)
                         (model_weights
                            (set_model_weights (model p)
                               (train_step (model p)
                                  (model_weights (model p)) b))))
               else []) = []) as ->.
    { destruct (truthy dec); [|done].
      unfold array_messages.
      induction (compute_update _ _ _) as [|a l IHl]; [done|].
      cbn [map]. rewrite filter_cons_False; [done|].
      intros Hne. by apply Hne. }
    by rewrite app_nil_r.
Qed.

(** X21. The whole of a worker's [train], where [MPI.ANY_TAG] is none of
    the three tags the worker receives by, with a master that answers
    every request: after the start signal the worker sends one request
    per batch of each epoch and then [exit], and nothing else but the
    update arrays of the requests that were accepted.  The first
    request declares the worker's own time step and each later one the
    time step of the previous answer.  The worker ends with the time step
    and the elements of the weights of the last answer, in arrays of its
    own shapes; and one [begin_weights] announcement per answer is left
    in its mailbox. *)
Theorem worker_lifecycle r (replies : list Reply) p rest ob :
  parent_rank p = Some r →
  ANY_TAG ≠ 5 → ANY_TAG ≠ 4 → ANY_TAG ≠ 13 →
  length replies = length (all_batches p) →
  Forall (λ reply : Reply, sizes reply.2 = sizes (weights p)) replies →
  ∃ p' out,
    worker_train
      {| self := p;
         inbox := msg ParentComm r 0 (Pickled PyNone)
                  :: concat (map (reply_messages r (rank p)) replies)
                  ++ rest;
         outbox := ob |}
    = Ok tt
        {| self := p';
           inbox := replicate (length replies) (leftover r) ++ rest;
           outbox := ob ++ out ++ [msg ParentComm r 1 (Pickled PyNone)] |}
    ∧ filter (λ e, env_tag e ≠ 13) out
      = concat
          (map (λ t, [msg ParentComm r 3 (Pickled PyNone);
                      msg ParentComm r 4 (Pickled (PyInt t))])
             (take (length replies)
                (time_step p :: map (λ reply : Reply, reply.1.2) replies)))
    ∧ time_step p'
      = last (map (λ reply : Reply, reply.1.2) replies) (time_step p)
    ∧ map data (weights p')
      = last (map (λ reply : Reply, map data reply.2) replies)
          (map data (weights p))
    ∧ map shape (weights p') = map shape (weights p)
    ∧ given p' = given p.
Proof.
  intros Hr Hany5 Hany4 Hany13 Hlen Hsz.
  set (steps := zip (all_batches p) replies).
  assert (map fst steps = all_batches p) as Hfst
    by (apply fst_zip; lia).
  assert (map snd steps = replies) as Hsnd
    by (apply snd_zip; lia).
  clearbody steps.
  assert (length steps = length replies) as Hlen'
    by (by rewrite <- Hsnd, length_map).
  assert (Forall (λ s : Batch * Reply, sizes s.2.2 = sizes (weights p))
            steps) as Hsz'.
  { rewrite <- Hsnd in Hsz. by apply Forall_fmap in Hsz. }
  destruct (after_batches_facts r steps p Hsz')
    as (Ht & Hw & Hshape & Hg & Hreq).
  exists (after_batches r p steps), (requests r p steps).
  split.
  - unfold worker_train, await_signal_from_parent.
    rewrite !bind_assoc.
    step_with ltac:(by apply (recv_object "train" 0 None None r);
                      [apply tag_of_train|]).
    rewrite bind_ret, bind_get. cbn [self].
    rewrite worker_epochs_flat_bind. cbn [self].
    fold (all_batches p). rewrite <- Hfst.
    assert (concat (map (reply_messages r (rank p)) replies)
            = concat (map (λ s : Batch * Reply,
                             reply_messages r (rank p) s.2) steps)) as ->
      by (by rewrite <- Hsnd, map_map).
    rewrite (bind_Ok _ _ _ _ _
               (worker_batches_run r (rank p) steps p [] rest ob Hr Hsz'
                  ltac:(constructor) ltac:(constructor) ltac:(constructor)
                  Hany5 Hany4 Hany13)).
    unfold send_exit_to_parent. rewrite bind_get. cbn [self].
    assert (parent_rank (after_batches r p steps) = Some r) as Hr'.
    { unfold given in Hg. injection Hg as Hp _. by rewrite Hp. }
    rewrite Hr'.
    rewrite (send_run _ "exit" 1 None None r _ _ _ tag_of_exit Hr').
    cbn [app default]. by rewrite Hlen', <- app_assoc.
  - rewrite Hreq, Ht, Hw, Hshape, Hg, Hlen'.
    clear Hlen Hsz Hlen'. subst replies. by rewrite !map_map.
Qed.
End WorkerRuns.

(** ** What a validation saves, and what an exit makes of a pending round *)
Section Checkpoints.
Context `{Scalar, MPIConsts, Collab, !NumPy}.

(** X22. A validation at a root evaluates and saves the weights the
    process holds: whether or not it returns, the model then holds these
    weights, and it has saved either nothing or one more checkpoint, under
    the name [mpi_learn_model.h5], of exactly these weights; without
    [save_if_best] it saves nothing.  Below a parent the validation leaves
    the model alone. *)
Theorem checkpoint_holds_weights b w :
  let m := model (self w) in
  let m' := model (self (world_of (validate b w))) in
  (has_parent (self w) = false →
   model_weights m' = weights (self w)
   ∧ (saved_models m' = saved_models m
      ∨ (b = true
         ∧ saved_models m'
           = saved_models m ++ [("mpi_learn_model.h5", weights (self w))])))
  ∧ (has_parent (self w) = true → validate b w = Ok tt w).
Proof.
  cbv zeta. split; intros Hp.
  - unfold validate. rewrite bind_get, Hp. rewrite bind_modify, bind_get.
    cbn [self].
    destruct (validate_batches _ _ _ _) as [n v].
    destruct b; [|by split; [|left]].
    unfold save_model_if_best.
    destruct (np_divide v n) as [[|m l]|m].
    + by split; [|left].
    + rewrite bind_ret, bind_get. cbn [self].
      destruct (match best_val_loss _ with
                | None => true | Some best => metric_ltb m best end);
        (split; [done|]); [by right|by left].
    + rewrite bind_ret, bind_get. cbn [self].
      destruct (match best_val_loss _ with
                | None => true | Some best => metric_ltb m best end);
        (split; [done|]); [by right|by left].
  - unfold validate. by rewrite bind_get, Hp.
Qed.
End Checkpoints.
(** ** An exit while a round is pending *)
Section LateExit.
Context `{Scalar, MPIConsts, Collab, !NumPy}.
Variable order : list (string * Z).
Hypothesis order_ok : Tags.iteration_order order.

(** One turn of the serving loop on an exit message. *)
Lemma serve_exit_step s fuel p ib ob :
  ANY_SOURCE = ANY_TAG → ANY_SOURCE ≠ 1 → 0 < running_workers p →
  serve order (S fuel)
    {| self := p; inbox := msg ChildComm s 1 (Pickled PyNone) :: ib;
       outbox := ob |}
  = serve order fuel
      {| self := with_num_sync_workers (num_sync_workers p - 1)
                   (with_running_workers (running_workers p - 1) p);
         inbox := ib; outbox := ob |}.
Proof.
  intros Hany Hany1 Hrun. cbn [serve]. rewrite bind_get. cbn [self].
  replace (0 <? running_workers p) with true by (symmetry; lia).
  step_with ltac:(by apply recv_any_from_child_run).
  unfold process_message, Tags.lookup_mpi_tag_inv. cbn [Get_tag Get_source].
  rewrite (inv_tag_exit order order_ok Hany1).
  rewrite bool_decide_eq_false_2 by done.
  rewrite bool_decide_eq_true_2 by done.
  rewrite !bind_assoc, bind_get, bind_assoc, bind_modify, bind_assoc,
    bind_get, bind_modify, bind_ret.
  reflexivity.
Qed.

(** Buffers of the size of the arrays replace all their elements. *)
Lemma filled_whole (ws : list ndarray) ds :
  Forall2 (λ w d, length d = length (data w)) ws ds →
  filled ws ds
  = zip_with (λ w d, {| shape := shape w; data := d |}) ws ds.
Proof.
  induction 1 as [|w d ws ds Hlen _ IH]; [done|].
  unfold filled in *. cbn [zip_with]. rewrite IH.
  by rewrite Hlen, drop_all, app_nil_r.
Qed.

(** X23. An exit that lowers the threshold of a synchronous root to 1
    while children wait loses their updates.  Where [MPI.ANY_SOURCE] is
    [MPI.ANY_TAG], a root that synchronises on two updates and holds the
    pending update of the children that wait takes the exit of another
    child and then the request of the child [source], whatever time step
    it declares: the update is accepted and received over the pending one
    instead of being added to it, the round is triggered, and the weights
    become the old ones with the update of [source] alone applied.  All
    the children that waited are served these weights together with
    [source], last first, under the new time step. *)
Theorem exit_drops_pending_update c source t ds fuel p rest ob :
  ANY_SOURCE = ANY_TAG → ANY_SOURCE ≠ 1 → ANY_SOURCE ≠ 3 →
  has_parent p = false → num_sync_workers p = 2 →
  1 < running_workers p →
  Forall2 (λ u d, length d = length (data u)) (update p) ds →
  validate_every (algo p) ≠ 0 →
  ¬ due (time_step p + 1) (validate_every (algo p)) →
  let U := zip_with (λ u d, {| shape := shape u; data := d |})
             (update p) ds in
  let W := apply_update (algo p) (weights p) U in
  ∃ p',
    serve order (2 + fuel)
      {| self := p;
         inbox := exit_messages [c]
                  ++ request_messages (source, t, ds) ++ rest;
         outbox := ob |}
    = serve order fuel
        {| self := p'; inbox := rest;
           outbox :=
             ob ++ msg ChildComm source 5 (Pickled (PyBool true))
                   :: fan_out (time_step p + 1)
                        (if send_before_apply (algo p) then weights p
                         else W)
                        (source :: reverse (waiting_workers_list p)) |}
    ∧ map data U = ds
    ∧ weights p' = W
    ∧ time_step p' = time_step p + 1
    ∧ waiting_workers_list p' = []
    ∧ update p' = weights_from_shapes (weights_shapes p)
    ∧ num_sync_workers p' = 1
    ∧ running_workers p' = running_workers p - 1
    ∧ given p' = given p.
Proof.
  intros Hany Hany1 Hany3 Hroot Hn Hrun Hsz Hne Hdue. cbv zeta.
  set (pe := with_num_sync_workers (num_sync_workers p - 1)
               (with_running_workers (running_workers p - 1) p)).
  assert (num_sync_workers pe = 1) as Hne1 by (subst pe; simpl; lia).
  assert (is_synchronous pe = false) as Hsync
    by (unfold is_synchronous; rewrite Hne1; done).
  assert (root_accepts pe (source, t, ds)
          = (with_update (weights_from_shapes (weights_shapes p))
               (with_waiting_workers_list []
                  (with_time_step (time_step p + 1)
                     (with_weights
                        (apply_update (algo p) (weights p)
                           (filled (update p) ds))
                        (with_update (filled (update p) ds)
                           (with_algo
                              (set_staleness (algo p) (time_step p - t))
                              pe))))),
             msg ChildComm source 5 (Pickled (PyBool true))
             :: fan_out (time_step p + 1)
                  (if send_before_apply (algo p) then weights p
                   else apply_update (algo p) (weights p)
                          (filled (update p) ds))
                  (reverse (waiting_workers_list p ++ [source]))))
    as Hstep.
  { unfold root_accepts. rewrite Hsync, Hne1.
    replace (1 <=? Z.of_nat (length (waiting_workers_list pe ++ [source])))
      with true
      by (symmetry; apply Z.leb_le; rewrite length_app; simpl; lia).
    reflexivity. }
  assert (acceptable pe (source, t, ds)) as Hacc.
  { split; [exact Hroot|]. split.
    - unfold accept_update, is_synchronous.
      cbn [num_sync_workers with_algo]. by rewrite Hne1.
    - split; [|split; [exact Hne|]].
      + rewrite Hsync.
        change (Forall2 (λ (w : ndarray) (d : list num),
                           (length d ≤ length (data w))%nat) (update p) ds).
        clear -Hsz. induction Hsz; constructor; [lia|assumption].
      + rewrite Hstep. exact Hdue. }
  exists (root_accepts pe (source, t, ds)).1.
  split.
  - change (2 + fuel)%nat with (S (length [(source, t, ds)] + fuel)).
    cbn [exit_messages map app].
    rewrite serve_exit_step by (done || lia).
    fold pe.
    replace (request_messages (source, t, ds) ++ rest)
      with (concat (map request_messages [(source, t, ds)]) ++ rest)
      by (cbn [map concat]; by rewrite app_nil_r).
    rewrite (serve_requests order order_ok [(source, t, ds)] fuel pe rest ob
               Hany Hany3)
      by (by split || (subst pe; simpl; lia)).
    cbn [after_requests answers]. rewrite app_nil_r. rewrite Hstep.
    cbn [fst snd]. rewrite reverse_app. cbn [reverse].
    by rewrite (filled_whole _ _ Hsz).
  - rewrite Hstep. cbn [fst]. rewrite (filled_whole _ _ Hsz).
    split.
    + clear -Hsz. induction Hsz as [|u d us ds' _ _ IH]; [done|].
      cbn [zip_with map data]. by rewrite IH.
    + by repeat split.
Qed.
End LateExit.

(** * Worked instances *)
Module Witnesses.
Import Concrete.

(** The order of the source text is one possible enumeration order. *)
Lemma tag_13_shared_witness :
  Tags.iteration_order Tags.tag_items
  ∧ is_Some (Tags.invert_items Tags.tag_items !! 13).
Proof.
  split; [apply Permutation_refl|].
  apply (tag_13_shared Tags.tag_items). apply Permutation_refl.
Defined.

(** A synchronous master at time step 3 rejects an update computed at time
    step 2. *)
Lemma rejected_request_witness :
  do_update_sequence 1
    (world0 (process0 None [0] [0] 3 false 5 2 [])
       [msg ChildComm 1 4 (Pickled (PyInt 2))])
  = Ok tt
      {| self := with_algo (set_staleness (algo0 false 5) 1)
                   (process0 None [0] [0] 3 false 5 2 []);
         inbox := [];
         outbox := [msg ChildComm 1 5 (Pickled (PyBool false));
                    msg ChildComm 1 4 (Pickled (PyInt 3));
                    msg ChildComm 1 2 (Pickled PyNone);
                    msg ChildComm 1 13 (Buffer [0])] |}.
Proof.
  apply (rejected_request 1 2 (process0 None [0] [0] 3 false 5 2 []) [] []).
  reflexivity.
Defined.

(** A worker holding the weights [0] is refused; the master's weights are
    [42] at time step 7. *)
Lemma worker_exchange_witness :
  ∃ p',
    do_send_sequence
      (world0 (process0 (Some 0) [0] [5] 3 false 5 2 [])
         [msg ParentComm 0 5 (Pickled (PyBool false));
          msg ParentComm 0 4 (Pickled (PyInt 7));
          msg ParentComm 0 13 (Buffer [42])])
    = Ok tt
        {| self := p'; inbox := [];
           outbox := [msg ParentComm 0 3 (Pickled PyNone);
                      msg ParentComm 0 4 (Pickled (PyInt 3))] |}
    ∧ weights p' = [vec [42]].
Proof.
  destruct (worker_exchange (H := scalar) 0 (PyBool false) 7 [[42]]
              (process0 (Some 0) [0] [5] 3 false 5 2 []) [] [])
    as (p' & Hrun & Hw & _).
  - reflexivity.
  - repeat constructor.
  - exists p'. split; [exact Hrun | exact Hw].
Defined.

(** The worker of the example does not keep its weights [0] when it is
    refused: it holds the master's [42] afterwards. *)
Lemma keeps_weights_on_rejection_fails : ¬ keeps_weights_on_rejection.
Proof.
  intros Hkeep.
  specialize (Hkeep 0 7 [[42] : list (@num scalar)] (process0 (Some 0) [0] [5] 3 false 5 2 [])
                [] [] _ eq_refl (ltac:(repeat constructor)) eq_refl).
  discriminate Hkeep.
Qed.

(** An asynchronous master accepts an update that is one step stale. *)
Lemma acceptance_decision_witness :
  accept_update
    (with_algo (set_staleness (algo0 false 5) (3 - 2))
       (process0 None [0] [0] 3 false 5 1 [])) = true.
Proof.
  destruct (acceptance_decision 1 2 (process0 None [0] [0] 3 false 5 1 [])
              [] []) as (_ & _ & Hasync & _).
  apply Hasync. reflexivity.
Defined.

(** A root master in asynchronous mode receives the update [1] for its
    weights [0]: one round, after which it holds [1] at time step 1. *)
Lemma round_completion_witness :
  let w' :=
    world_of
      (do_update_sequence 1
         (world0 (process0 None [0] [0] 0 false 5 1 [])
            [msg ChildComm 1 4 (Pickled (PyInt 0));
             msg ChildComm 1 13 (Buffer [1])])) in
  outbox w'
  = [msg ChildComm 1 5 (Pickled (PyBool true));
     msg ChildComm 1 4 (Pickled (PyInt 1));
     msg ChildComm 1 2 (Pickled PyNone);
     msg ChildComm 1 13 (Buffer [1])]
  ∧ weights (self w') = [vec [1]]
  ∧ time_step (self w') = 1
  ∧ waiting_workers_list (self w') = []
  ∧ update (self w') = [vec [0]].
Proof.
  destruct (round_completion (H := scalar) 1 0 [[1]] 0 PyNone 0 []
              (process0 None [0] [0] 0 false 5 1 []) [] [])
    as (Ho & _ & Hw & Ht & Hwait & Hu).
  - reflexivity.
  - repeat constructor.
  - simpl. lia.
  - discriminate.
  - exact (conj Ho (conj Hw (conj Ht (conj Hwait Hu)))).
Defined.

(** The exit message of a child, with the table inverted in source
    order. *)
Lemma serving_loop_dispatch_witness :
  process_message Tags.tag_items {| Get_source := 1; Get_tag := 1 |}
    (world0 (process0 None [0] [0] 0 false 5 2 []) [])
  = Ok (Some "exit")
      (world0
         (with_num_sync_workers 1
            (with_running_workers 1 (process0 None [0] [0] 0 false 5 2 [])))
         []).
Proof.
  assert (ANY_SOURCE ≠ 3) as Hany3 by (cbv; discriminate).
  assert (ANY_SOURCE ≠ 1) as Hany1 by (cbv; discriminate).
  destruct (serving_loop_dispatch Tags.tag_items (Permutation_refl _)
              {| Get_source := 1; Get_tag := 1 |}
              (world0 (process0 None [0] [0] 0 false 5 2 []) [])
              Hany3 Hany1)
    as (_ & Hexit & _).
  apply Hexit. reflexivity.
Defined.

(** The integers under [<]: a first validation with loss 5 is saved. *)
Lemma checkpoint_on_strict_improvement_witness :
  ∃ w',
    save_model_if_best (metrics [5])
      (world0 (process0 None [0] [0] 0 false 5 1 []) []) = Ok tt w'
    ∧ best_val_loss (self w') = Some 5.
Proof.
  destruct (checkpoint_on_strict_improvement (H := scalar) (H1 := collab))
    as (Hsave & _).
  - intros x. apply Z.ltb_irrefl.
  - intros x y z Hxy Hyz. apply Z.ltb_lt. apply Z.ltb_lt in Hxy, Hyz. lia.
  - destruct (Hsave (metrics [5]) 5
                (world0 (process0 None [0] [0] 0 false 5 1 []) []) eq_refl)
      as (w' & Hrun & Hbest & _).
    exists w'. split; [exact Hrun|exact Hbest].
Defined.

(** At time step 10 with [validate_every = 5] the validation is due. *)
Lemma validation_only_at_root_witness :
  periodic_validation (world0 (process0 None [0] [0] 10 false 5 1 []) [])
  = validate true (world0 (process0 None [0] [0] 10 false 5 1 []) []).
Proof.
  destruct (validation_only_at_root
              (world0 (process0 None [0] [0] 10 false 5 1 []) []))
    as (Hdue & _).
  apply Hdue; [discriminate|reflexivity|by exists 2].
Defined.



(** The master 0 and the worker 1: the start signal, the first batch, the
    request; then the master computes the staleness 0 - 0. *)
Lemma staleness_never_negative_witness :
  System.well_formed tree0
  ∧ ∃ cfg cfg',
      System.reachable tree0 cfg
      ∧ System.step tree0 cfg (System.Staleness 0 (0 - 0)) cfg'
      ∧ 0 ≤ 0 - 0.
Proof.
  assert (System.well_formed tree0) as Hwf.
  { intros [|[|n]] p; simpl; intros [= <-]. lia. }
  split; [exact Hwf|].
  pose proof (System.reachable_initial tree0) as R0.
  match type of R0 with
  | System.reachable _ ?c =>
      pose proof (System.reachable_step _ c _ _ R0
                    (System.master_start tree0 0 c eq_refl eq_refl)) as R1
  end.
  match type of R1 with
  | System.reachable _ ?c =>
      pose proof (System.reachable_step _ c _ _ R1
                    (System.worker_start tree0 1 0 c [] eq_refl eq_refl
                       eq_refl eq_refl)) as R2
  end.
  match type of R2 with
  | System.reachable _ ?c =>
      pose proof (System.reachable_step _ c _ _ R2
                    (System.worker_batch tree0 1 0 c eq_refl)) as R3
  end.
  match type of R3 with
  | System.reachable _ ?c =>
      pose proof (System.reachable_step _ c _ _ R3
                    (System.master_begin_update tree0 0 1 c [System.Time 0]
                       eq_refl eq_refl eq_refl eq_refl)) as R4
  end.
  match type of R4 with
  | System.reachable _ ?c =>
      pose proof (System.master_child_time tree0 0 1 0 c [] eq_refl
                    eq_refl eq_refl) as S5
  end.
  eexists _, _. split; [exact R4|]. split; [exact S5|].
  exact (proj1 (SystemFacts.staleness_never_negative tree0 Hwf _ R4)
           _ _ _ S5).
Defined.

(** Rank 5 with blocks of two ranks has a block. *)
Lemma block_of_rank_witness :
  ∃ k, get_block_num 5 2 = Some k ∧ 0 ≤ k.
Proof.
  destruct (block_of_rank 5 2) as (k & Hk & Hpos & _); [lia|lia|].
  exists k. exact (conj Hk Hpos).
Defined.

(** With blocks of one rank, rank 1000 is in the coordinator's block. *)
Lemma coordinator_block_shared_witness :
  get_block_num 1000 1 = get_block_num 0 1.
Proof. apply (coordinator_block_shared 1000 1); lia. Defined.

(** Rank 0 of four processes, with blocks of one rank. *)
Lemma coordinator_branch_dead_witness : entry_branch 4 0 1 = Some RunBlock.
Proof. apply (coordinator_branch_dead 4 0 1); lia. Defined.

(** The inverse table built in source order gives [exit] back. *)
Lemma inverse_lookup_round_trip_witness :
  Tags.lookup_mpi_tag_inv (Tags.invert_items Tags.tag_items) 1 = Some "exit".
Proof.
  destruct (inverse_lookup_round_trip Tags.tag_items (Permutation_refl _))
    as (_ & _ & Hback).
  apply Hback; [reflexivity|reflexivity|discriminate|discriminate].
Defined.

(** A root asked to exchange with a parent. *)
Lemma no_parent_no_exchange_witness :
  do_send_sequence (world0 (process0 None [0] [0] 0 false 5 1 []) [])
  = Raised (UtilsError "begin_update")
      (world0 (process0 None [0] [0] 0 false 5 1 []) []).
Proof.
  apply (no_parent_no_exchange (process0 None [0] [0] 0 false 5 1 []) [] []).
  reflexivity.
Defined.

(** A worker at time step 3 whose master has sent only the start
    signal. *)
Lemma request_awaits_decision_witness :
  do_send_sequence
    (world0 (process0 (Some 0) [0] [5] 3 false 5 1 [])
       [msg ParentComm 0 0 (Pickled PyNone)])
  = Blocked
      {| self := process0 (Some 0) [0] [5] 3 false 5 1 [];
         inbox := [msg ParentComm 0 0 (Pickled PyNone)];
         outbox := [msg ParentComm 0 3 (Pickled PyNone);
                    msg ParentComm 0 4 (Pickled (PyInt 3))] |}.
Proof.
  apply (request_awaits_decision 0 (process0 (Some 0) [0] [5] 3 false 5 1 [])
           [msg ParentComm 0 0 (Pickled PyNone)] []).
  - reflexivity.
  - repeat constructor.
Defined.

(** The master holds [42] at time step 7 and refuses the worker 1, which
    still has the announcement of an earlier transfer in its mailbox. *)
Lemma served_by_parent_witness :
  ∃ wm p',
    sync_child 1
      {| self := process0 None [42] [0] 7 false 5 2 []; inbox := [];
         outbox := [msg ChildComm 1 5 (Pickled (PyBool false))] |}
    = Ok tt wm
    ∧ do_send_sequence
        {| self := process0 (Some 0) [0] [5] 3 false 5 1 [];
           inbox := [msg ParentComm 0 2 (Pickled PyNone)]
                    ++ as_received 0 (outbox wm) ++ [];
           outbox := [] |}
      = Ok tt
          {| self := p';
             inbox := [msg ParentComm 0 2 (Pickled PyNone)]
                      ++ [msg ParentComm 0 2 (Pickled PyNone)];
             outbox := [msg ParentComm 0 3 (Pickled PyNone);
                        msg ParentComm 0 4 (Pickled (PyInt 3))] |}
    ∧ time_step p' = 7
    ∧ map data (weights p') = [[42]].
Proof.
  destruct (served_by_parent 0 1 (PyBool false)
              (process0 None [42] [0] 7 false 5 2 []) []
              (process0 (Some 0) [0] [5] 3 false 5 1 [])
              [msg ParentComm 0 2 (Pickled PyNone)] [] [])
    as (wm & p' & Hm & Hw & Ht & Hd & _).
  - reflexivity.
  - repeat constructor.
  - repeat constructor.
  - repeat constructor.
  - repeat constructor.
  - discriminate.
  - exists wm, p'. exact (conj Hm (conj Hw (conj Ht Hd))).
Defined.

(** One array of two elements received from the child 1. *)
Lemma recv_arrays_keeps_shapes_witness :
  ∃ res w',
    recv_arrays [vec [0; 0]] "update" (Some ChildComm) (Some 1) false
      (world0 (process0 None [0; 0] [0; 0] 0 false 5 1 [])
         [msg ChildComm 1 13 (Buffer [7; 8])])
    = Ok res w'
    ∧ map shape res = map shape [vec [0; 0]].
Proof.
  eexists _, _. split; [reflexivity|].
  eapply (recv_arrays_keeps_shapes (H := scalar) [vec [0; 0]] "update" (Some ChildComm)
            (Some 1) false
            (world0 (process0 None [0; 0] [0; 0] 0 false 5 1 [])
               [msg ChildComm 1 13 (Buffer ([7; 8] : list (@num scalar)))])).
  reflexivity.
Defined.

(** A worker made below the root of the examples. *)
Lemma configuration_propagates_witness :
  Setup.configured Examples.root0
  ∧ ∃ a, Setup.MPIWorker_init Examples.model_of (Some 0) Examples.root0 = (a, None)
         ∧ Setup.weights a = Some [vec [1; 2]].
Proof.
  assert (Setup.configured Examples.root0) as Hroot.
  { split; [reflexivity|]. exists [vec [1; 2]].
    repeat split. repeat constructor. }
  split; [exact Hroot|].
  destruct (configuration_propagates Examples.model_of 0 Examples.root0 Hroot)
    as (a & arch & ws & Hw & _ & _ & _ & Hrw & Haw & _).
  exists a. split; [exact Hw|]. rewrite Haw, <- Hrw. reflexivity.
Defined.

(** A master below the rank 0 whose two workers have left. *)
Lemma exits_end_training_witness :
  master_train_signalled Tags.tag_items 2
    (world0 (process0 (Some 0) [0] [0] 0 false 5 2 [])
       (exit_messages [2; 1]))
  = Ok true
      {| self := with_num_sync_workers 0
                   (with_running_workers 0
                      (with_waiting_workers_list []
                         (process0 (Some 0) [0] [0] 0 false 5 2 [])));
         inbox := [];
         outbox := [train_signal 1; train_signal 2;
                    msg ParentComm 0 1 (Pickled PyNone)] |}.
Proof.
  destruct (exits_end_training Tags.tag_items (Permutation_refl _) [2; 1] 2
              (process0 (Some 0) [0] [0] 0 false 5 2 []) [] [])
    as (Hbelow & _).
  - reflexivity.
  - discriminate.
  - reflexivity.
  - simpl. lia.
  - rewrite app_nil_r in Hbelow. apply (Hbelow 0); reflexivity.
Defined.

(** The master 0 and the worker 1: the start signal, the first batch, the
    request and its update; the step that completes the round takes the
    master's time step from 0 to 1. *)
Lemma time_never_goes_back_witness :
  System.well_formed tree0
  ∧ ∃ cfg cfg',
      System.reachable tree0 cfg
      ∧ System.step tree0 cfg System.Silent cfg'
      ∧ System.time_step (System.nodes cfg 0%nat) = 0
      ∧ System.time_step (System.nodes cfg' 0%nat) = 1
      ∧ System.time_step (System.nodes cfg 0%nat)
        ≤ System.time_step (System.nodes cfg' 0%nat).
Proof.
  assert (System.well_formed tree0) as Hwf.
  { intros [|[|n]] p; simpl; intros [= <-]. lia. }
  split; [exact Hwf|].
  pose proof (System.reachable_initial tree0) as R0.
  match type of R0 with
  | System.reachable _ ?c =>
      pose proof (System.reachable_step _ c _ _ R0
                    (System.master_start tree0 0 c eq_refl eq_refl)) as R1
  end.
  match type of R1 with
  | System.reachable _ ?c =>
      pose proof (System.reachable_step _ c _ _ R1
                    (System.worker_start tree0 1 0 c [] eq_refl eq_refl
                       eq_refl eq_refl)) as R2
  end.
  match type of R2 with
  | System.reachable _ ?c =>
      pose proof (System.reachable_step _ c _ _ R2
                    (System.worker_batch tree0 1 0 c eq_refl)) as R3
  end.
  match type of R3 with
  | System.reachable _ ?c =>
      pose proof (System.reachable_step _ c _ _ R3
                    (System.master_begin_update tree0 0 1 c [System.Time 0]
                       eq_refl eq_refl eq_refl eq_refl)) as R4
  end.
  match type of R4 with
  | System.reachable _ ?c =>
      pose proof (System.reachable_step _ c _ _ R4
                    (System.master_child_time tree0 0 1 0 c [] eq_refl
                       eq_refl eq_refl)) as R5
  end.
  match type of R5 with
  | System.reachable _ ?c =>
      pose proof (System.reachable_step _ c _ _ R5
                    (System.sender_bool tree0 1 0 (System.NextBatch 0) true
                       c [] eq_refl eq_refl eq_refl)) as R6
  end.
  match type of R6 with
  | System.reachable _ ?c =>
      pose proof (System.master_child_update tree0 0 1 c [] eq_refl
                    eq_refl eq_refl) as S7
  end.
  eexists _, _. split; [exact R6|]. split; [exact S7|].
  split; [reflexivity|]. split; [reflexivity|].
  exact (proj1 (SystemRuns.time_never_goes_back tree0 Hwf _ R6) _ _ 0%nat S7).
Defined.

(** The tree with one batch for the worker 1 and a validation every five
    time steps. *)
Lemma shrunk_threshold_stalls_witness :
  5 ≠ 0
  ∧ ∃ cfg, System.reachable (tree1 0 5) cfg ∧ stuck (tree1 0 5) cfg.
Proof.
  assert (5 ≠ 0) as Hne by discriminate.
  split; [exact Hne|].
  destruct (SystemRuns.shrunk_threshold_stalls 0 5 Hne)
    as (cfg & Hreach & Hstuck & _).
  exists cfg. split; [exact Hreach|exact Hstuck].
Defined.



(** A worker at time step 3 with one batch; its master accepts the update
    and answers with the weights [42] at time step 7. *)
Lemma worker_lifecycle_witness :
  ∃ p' out,
    worker_train
      (world0 (process0 (Some 0) [0] [5] 3 false 5 1 [])
         (msg ParentComm 0 0 (Pickled PyNone)
          :: concat (map (reply_messages 0 0) [(PyBool true, 7, [vec [42]])])
          ++ []))
    = Ok tt
        {| self := p';
           inbox := replicate 1 (leftover 0) ++ [];
           outbox := [] ++ out ++ [msg ParentComm 0 1 (Pickled PyNone)] |}
    ∧ time_step p' = 7
    ∧ map data (weights p') = [[42]].
Proof.
  destruct (worker_lifecycle (H := scalar) 0 [(PyBool true, 7, [vec [42]])]
              (process0 (Some 0) [0] [5] 3 false 5 1 []) [] [])
    as (p' & out & Hrun & _ & Ht & Hw & _).
  - reflexivity.
  - discriminate.
  - discriminate.
  - discriminate.
  - reflexivity.
  - repeat constructor.
  - exists p', out. exact (conj Hrun (conj Ht Hw)).
Defined.


(** A root that synchronises on two updates holds the update [3] of the
    waiting child 1 when the child 3 exits and the child 2 sends [4]. *)
Lemma exit_drops_pending_update_witness :
  ∃ p',
    serve Tags.tag_items (2 + 0)
      (world0 (process0 None [0] [3] 0 false 5 2 [1])
         (exit_messages [3] ++ request_messages (2, 0, [[4]]) ++ []))
    = serve Tags.tag_items 0
        {| self := p'; inbox := [];
           outbox := [msg ChildComm 2 5 (Pickled (PyBool true));
                      msg ChildComm 2 4 (Pickled (PyInt 1));
                      msg ChildComm 2 2 (Pickled PyNone);
                      msg ChildComm 2 13 (Buffer [4]);
                      msg ChildComm 1 4 (Pickled (PyInt 1));
                      msg ChildComm 1 2 (Pickled PyNone);
                      msg ChildComm 1 13 (Buffer [4])] |}
    ∧ weights p' = [vec [4]]
    ∧ num_sync_workers p' = 1.
Proof.
  destruct (exit_drops_pending_update (H := scalar) Tags.tag_items
              (Permutation_refl _) 3 2 0 [[4]] 0
              (process0 None [0] [3] 0 false 5 2 [1]) [] [])
    as (p' & Hrun & _ & Hw & _ & _ & _ & Hn & _).
  - reflexivity.
  - discriminate.
  - discriminate.
  - reflexivity.
  - reflexivity.
  - reflexivity.
  - repeat constructor.
  - discriminate.
  - intros [Hmod _]. discriminate Hmod.
  - exists p'. exact (conj Hrun (conj Hw Hn)).
Defined.

End Witnesses.
